(** * Load generators for three Redis-compatible HA deployments

    A shallow embedding of the three load generators of the repository

      - [src/cluster/s/load-generator.py]   (class [LoadGenerator], Redis Cluster)
      - [src/sentinel/s/load-generator.py]  (class [LoadGenerator], Redis Sentinel)
      - [src/dragonfly/s/load-generator.py] (module-level script, static replicas)

    Python's effects are made explicit: a computation is a function from a
    world to a result (a value or a raised exception), the next world and
    the list of externally visible events it produced (store commands put
    on the wire, sleeps, log lines).  Everything the program cannot decide
    itself is read from the world: the random source, the outcome of each
    network call, whether a sleep is cut short by SIGINT, and the clock.

    SIGINT is delivered where a script blocks, in a sleep and in a network
    call; an interrupt that Python raises between two other statements is
    not modelled.  Writing a log line is taken to succeed. *)

From Stdlib Require Import ZArith QArith Lia Ascii.
From stdpp Require Import base list strings gmap pretty.

#[local] Open Scope string_scope.
#[local] Open Scope list_scope.
#[local] Open Scope Z_scope.

(** ** Python: exceptions, results *)

Module Py.

(** The exception classes the three scripts can meet.  In redis-py both
    [ConnectionError] and [ClusterDownError] derive from [RedisError], so an
    [except (ConnectionError, RedisError, ClusterDownError)] clause catches
    exactly the [RedisError] family; [OtherException] stands for any other
    subclass of [Exception]. *)
Inductive exn :=
| RedisError
| OtherException
| AttributeError
| ValueError
| ZeroDivisionError
| KeyboardInterrupt
| OverflowError.

#[global] Instance exn_eq_dec : EqDecision exn.
Proof. solve_decision. Defined.

(** [except Exception]: everything but [KeyboardInterrupt], which derives
    from [BaseException]. *)
Definition is_Exception (e : exn) : bool :=
  match e with KeyboardInterrupt => false | _ => true end.

(** [except RedisError] (and the tuples of its subclasses). *)
Definition is_RedisError (e : exn) : bool :=
  match e with RedisError => true | _ => false end.

Inductive res (A : Type) :=
| Ret (a : A)
| Raise (e : exn).
Arguments Ret {A} a.
Arguments Raise {A} e.

(** [string.ascii_letters + string.digits] *)
Definition ascii_letters_digits : list Ascii.ascii :=
  String.list_ascii_of_string
    "abcdefghijklmnopqrstuvwxyzABCDEFGHIJKLMNOPQRSTUVWXYZ0123456789".

(** [random.randint(a, b)] on one value [r] of the random source: an
    integer [n] with [a <= n <= b]. *)
Definition randint_of (a b r : Z) : Z := a + r mod (b - a + 1).

(** [random.choice(seq)] on one value [r] of the random source. *)
Definition choice_of {A} (seq : list A) (d : A) (r : Z) : A :=
  nth (Z.to_nat (r mod Z.of_nat (length seq))) seq d.

(** The least positive int that [float()] refuses: every int below
    [2^1024 - 2^970] in absolute value rounds to a finite double, every
    other one is an [OverflowError]. *)
Definition float_limit : Z := 2 ^ 1024 - 2 ^ 970.
#[global] Arguments float_limit : simpl never.

(** An f-string [f"{ns}:{n}"]. *)
Definition fmt_key (ns : string) (n : Z) : string := ns +:+ ":" +:+ pretty n.
#[global] Arguments fmt_key : simpl never.

End Py.
Export Py.

(** ** The store: commands and their effect *)

Module Redis.

Inductive client :=
| ClusterClient   (* cluster:  self.cluster *)
| SentinelClient  (* sentinel: self.sentinel *)
| Master          (* sentinel: self.master *)
| Slave           (* sentinel: self.slave *)
| Primary         (* dragonfly: primary_client *)
| Replica1        (* dragonfly: replica_1_client *)
| Replica2.       (* dragonfly: replica_2_client *)

#[global] Instance client_eq_dec : EqDecision client.
Proof. solve_decision. Defined.

Inductive command :=
| PING
| CLUSTER_INFO
| SET (key value : string) (ex : option Z)
| SETEX (key : string) (seconds : Z) (value : string)
| INCR (key : string)
| LPUSH (key value : string)
| LTRIM (key : string) (start stop : Z)
| SADD (key member : string)
| HSET (key field value : string)
| GET (key : string)
| EXISTS (key : string)
| LRANGE (key : string) (start stop : Z)
| SMEMBERS (key : string)
| HGETALL (key : string).

(** Values held by the store, one keyspace for all types as in Redis.  A
    string carries the expiry it was written with; integers written by
    [INCR] are kept apart from other strings. *)
Inductive rvalue :=
| RString (v : string) (ttl : option Z)
| RInt (n : Z)
| RList (l : list string)
| RSet (s : gset string)
| RHash (h : gmap string string).

Abbreviation Store := (gmap string rvalue).

(** Redis list indices: a negative index counts from the tail. *)
Definition norm_index (len i : Z) : Z := if i <? 0 then Z.max 0 (len + i) else i.

(** [LTRIM key start stop] keeps the elements [start..stop], both ends
    included. *)
Definition ltrim_list (l : list string) (start stop : Z) : list string :=
  let len := Z.of_nat (length l) in
  let a := norm_index len start in
  let b := norm_index len stop in
  take (Z.to_nat (b + 1 - a)) (drop (Z.to_nat a) l).

(** The largest value of a counter, a signed 64-bit integer. *)
Definition int64_max : Z := 2 ^ 63 - 1.
#[global] Arguments int64_max : simpl never.

(** The effect of a write command on the data set; [None] is an error
    reply, which redis-py raises as a [ResponseError] (a [RedisError]):
    WRONGTYPE when the key holds a value of another type, and for [INCR]
    also the refusal to count past [int64_max].  Commands that only read
    leave the data set alone. *)
Definition apply (k : command) (st : Store) : option Store :=
  match k with
  | SET key v ex => Some (<[key := RString v ex]> st)
  | SETEX key secs v => Some (<[key := RString v (Some secs)]> st)
  | INCR key =>
      match st !! key with
      | None => Some (<[key := RInt 1]> st)
      | Some (RInt n) =>
          if n <? int64_max then Some (<[key := RInt (n + 1)]> st) else None
      | Some _ => None
      end
  | LPUSH key v =>
      match st !! key with
      | None => Some (<[key := RList [v]]> st)
      | Some (RList l) => Some (<[key := RList (v :: l)]> st)
      | Some _ => None
      end
  | LTRIM key start stop =>
      match st !! key with
      | None => Some st
      | Some (RList l) =>
          match ltrim_list l start stop with
          | [] => Some (delete key st)
          | l' => Some (<[key := RList l']> st)
          end
      | Some _ => None
      end
  | SADD key m =>
      match st !! key with
      | None => Some (<[key := RSet {[ m ]}]> st)
      | Some (RSet s) => Some (<[key := RSet ({[ m ]} ∪ s)]> st)
      | Some _ => None
      end
  | HSET key f v =>
      match st !! key with
      | None => Some (<[key := RHash {[ f := v ]}]> st)
      | Some (RHash h) => Some (<[key := RHash (<[f := v]> h)]> st)
      | Some _ => None
      end
  | _ => Some st
  end.

(** The length of the list at [key] ([LLEN]): 0 when the key is absent. *)
Definition llen (st : Store) (key : string) : Z :=
  match st !! key with
  | Some (RList l) => Z.of_nat (length l)
  | _ => 0
  end.

(** The clients whose commands reach the writable data set. *)
Definition writes_to_primary (c : client) : bool :=
  match c with
  | ClusterClient | Master | Primary => true
  | _ => false
  end.

End Redis.
Export Redis.

(** ** Effects *)

Module Eff.

(** What the world answers to one network call. *)
Inductive net_outcome :=
| NetOk            (* the call goes through *)
| NetRedisError    (* redis-py raises a RedisError (connection, timeout, ...) *)
| NetOtherError    (* some other Exception escapes the client *)
| NetInterrupt.    (* SIGINT arrives while the call blocks *)

(** Externally visible events; [L] is the type of log lines. *)
Inductive event (L : Type) :=
| Cmd (c : client) (k : command)   (* a command sent through a client *)
| New (c : client)                 (* a client object is built *)
| Sleep (d : Q)                    (* time.sleep(d) *)
| Log (l : L).                     (* logger.* / print *)
Arguments Cmd {L} c k.
Arguments New {L} c.
Arguments Sleep {L} d.
Arguments Log {L} l.

(** The world: the random source, the answers to the coming network calls,
    whether each coming sleep is interrupted, the coming clock readings, the
    data set of the writable node, and the program's own variables. *)
Record World (St : Type) := mkWorld {
  rng : list Z;
  net : list net_outcome;
  naps : list bool;
  clock : list Q;
  store : Store;
  self : St
}.
Arguments mkWorld {St}.
Arguments rng {St}.
Arguments net {St}.
Arguments naps {St}.
Arguments clock {St}.
Arguments store {St}.
Arguments self {St}.

Definition M (St L A : Type) : Type := World St → res A * World St * list (event L).

Section Ops.
Context {St L : Type}.

Definition ret {A} (a : A) : M St L A := λ w, (Ret a, w, []).

Definition raise {A} (e : exn) : M St L A := λ w, (Raise e, w, []).

Definition bind {A B} (m : M St L A) (f : A → M St L B) : M St L B := λ w,
  match m w with
  | (Ret a, w1, ev1) => let '(r, w2, ev2) := f a w1 in (r, w2, ev1 ++ ev2)
  | (Raise e, w1, ev1) => (Raise e, w1, ev1)
  end.

(** [try: body / except <clause>: handler]: [handler e] is [None] when no
    clause matches [e]; an exception raised by the handler propagates. *)
Definition try_except {A} (body : M St L A) (handler : exn → option (M St L A))
  : M St L A := λ w,
  match body w with
  | (Ret a, w1, ev1) => (Ret a, w1, ev1)
  | (Raise e, w1, ev1) =>
      match handler e with
      | Some h => let '(r, w2, ev2) := h w1 in (r, w2, ev1 ++ ev2)
      | None => (Raise e, w1, ev1)
      end
  end.

Definition emit (e : event L) : M St L unit := λ w, (Ret tt, w, [e]).

Definition log (l : L) : M St L unit := emit (Log l).

Definition get_self : M St L St := λ w, (Ret (self w), w, []).

Definition modify_self (f : St → St) : M St L unit := λ w,
  (Ret tt, mkWorld (rng w) (net w) (naps w) (clock w) (store w) (f (self w)), []).

(** One value of the random source. *)
Definition random : M St L Z := λ w,
  (Ret (hd 0 (rng w)),
   mkWorld (tl (rng w)) (net w) (naps w) (clock w) (store w) (self w), []).

(** [time.time()] *)
Definition time_time : M St L Q := λ w,
  (Ret (hd 0%Q (clock w)),
   mkWorld (rng w) (net w) (naps w) (tl (clock w)) (store w) (self w), []).

(** [time.sleep(d)]: [ValueError] on a negative length; otherwise the sleep
    happens, and raises [KeyboardInterrupt] when SIGINT arrives meanwhile. *)
Definition sleep (d : Q) : M St L unit := λ w,
  if Qle_bool 0 d then
    let w' := mkWorld (rng w) (net w) (tl (naps w)) (clock w) (store w) (self w) in
    if hd false (naps w) then (Raise KeyboardInterrupt, w', [Sleep d])
    else (Ret tt, w', [Sleep d])
  else (Raise ValueError, w, []).

(** [1.0 / n] for an int [n]: the int is first made a float, which fails
    with [OverflowError] from [float_limit] on in absolute value; a zero
    divisor is a [ZeroDivisionError].  The quotient is kept exact. *)
Definition float_div (n : Z) : M St L Q :=
  if float_limit <=? Z.abs n then raise OverflowError
  else if n =? 0 then raise ZeroDivisionError
  else ret (1 / inject_Z n)%Q.

(** A network round trip whose answer the world decides. *)
Definition round_trip (ev : event L) : M St L unit := λ w,
  let w' := mkWorld (rng w) (tl (net w)) (naps w) (clock w) (store w) (self w) in
  match hd NetOk (net w) with
  | NetOk => (Ret tt, w', [ev])
  | NetRedisError => (Raise RedisError, w', [ev])
  | NetOtherError => (Raise OtherException, w', [ev])
  | NetInterrupt => (Raise KeyboardInterrupt, w', [ev])
  end.

(** The data set takes a command that went through. *)
Definition commit (c : client) (k : command) : M St L unit := λ w,
  if writes_to_primary c then
    match Redis.apply k (store w) with
    | Some st => (Ret tt, mkWorld (rng w) (net w) (naps w) (clock w) st (self w), [])
    | None => (Raise RedisError, w, [])
    end
  else (Ret tt, w, []).

(** [handle.cmd(...)]: a method call on [None] is an [AttributeError]. *)
Definition call (handle : option client) (k : command) : M St L unit :=
  match handle with
  | None => raise AttributeError
  | Some c => bind (round_trip (Cmd c k)) (λ _, commit c k)
  end.

(** [random.randint(a, b)] *)
Definition randint (a b : Z) : M St L Z := bind random (λ r, ret (randint_of a b r)).

(** [random.choice(seq)] *)
Definition choice {A} (seq : list A) (d : A) : M St L A :=
  bind random (λ r, ret (choice_of seq d r)).

(** [random.choices(population, k=k)] *)
Fixpoint choices {A} (population : list A) (d : A) (k : nat) : M St L (list A) :=
  match k with
  | O => ret []
  | S k' => bind (choice population d) (λ x,
            bind (choices population d k') (λ xs, ret (x :: xs)))
  end.

End Ops.

Declare Scope py_scope.
Delimit Scope py_scope with py.
Notation "'let*' x ':=' m 'in' k" := (bind m (λ x, k))
  (at level 10, x name, m at level 100, k at level 200) : py_scope.
Notation "m ';;;' k" := (bind m (λ _, k))
  (at level 100, k at level 200, right associativity) : py_scope.

End Eff.
Export Eff.

#[local] Open Scope py_scope.

(** ** Helper functions shared verbatim by the three scripts *)

Section Helpers.
Context {St L : Type}.

(** [generate_random_string(length=20)] *)
Definition generate_random_string (length : nat) : M St L string :=
  let* cs := choices ascii_letters_digits "0"%char length in
  ret (String.string_of_list_ascii cs).

(** [generate_random_key()] *)
Definition generate_random_key : M St L string :=
  let* n := randint 1 1000 in
  ret (fmt_key "key" n).

End Helpers.

(** What the interpreter does with the way the script ends: status 0 when
    it runs off its end, a non-zero status on an uncaught exception.
    [Running] is a script still in its loop when the observation stops. *)
Inductive flow := Continue | Break.

Inductive status := Running | Exited (code : Z).

Definition exit_status (r : res flow) : status :=
  match r with
  | Ret Continue => Running
  | Ret Break => Exited 0
  | Raise KeyboardInterrupt => Exited 130
  | Raise _ => Exited 1
  end.

Definition Qlt_bool (x y : Q) : bool := negb (Qle_bool y x).

(** ** The class [LoadGenerator] of the cluster and sentinel scripts

    The two files differ in the clients they hold, in the steps of one
    connection attempt and in the list key given to [ltrim]; [topology]
    selects the file. *)

Module LoadGenerator.

Inductive topology := Cluster | Sentinel.

(** [self.stats] *)
Record Stats := mkStats {
  total_ops : Z;
  successful_ops : Z;
  failed_ops : Z;
  reads : Z;
  writes : Z;
  last_report : Q
}.

(** The attributes of [self]: [cluster] in the cluster script; [sentinel],
    [master] and [slave] in the sentinel script. *)
Record t := mkSelf {
  cluster : option client;
  sentinel : option client;
  master : option client;
  slave : option client;
  stats : Stats
}.

Definition set_cluster (h : option client) (s : t) : t :=
  mkSelf h (sentinel s) (master s) (slave s) (stats s).
Definition set_sentinel (h : option client) (s : t) : t :=
  mkSelf (cluster s) h (master s) (slave s) (stats s).
Definition set_master (h : option client) (s : t) : t :=
  mkSelf (cluster s) (sentinel s) h (slave s) (stats s).
Definition set_slave (h : option client) (s : t) : t :=
  mkSelf (cluster s) (sentinel s) (master s) h (stats s).
Definition set_stats (f : Stats → Stats) (s : t) : t :=
  mkSelf (cluster s) (sentinel s) (master s) (slave s) (f (stats s)).

(** [self.stats[...] += 1] *)
Definition incr_total_ops (s : Stats) : Stats :=
  mkStats (total_ops s + 1) (successful_ops s) (failed_ops s) (reads s) (writes s)
          (last_report s).
Definition incr_successful_ops (s : Stats) : Stats :=
  mkStats (total_ops s) (successful_ops s + 1) (failed_ops s) (reads s) (writes s)
          (last_report s).
Definition incr_failed_ops (s : Stats) : Stats :=
  mkStats (total_ops s) (successful_ops s) (failed_ops s + 1) (reads s) (writes s)
          (last_report s).
Definition incr_reads (s : Stats) : Stats :=
  mkStats (total_ops s) (successful_ops s) (failed_ops s) (reads s + 1) (writes s)
          (last_report s).
Definition incr_writes (s : Stats) : Stats :=
  mkStats (total_ops s) (successful_ops s) (failed_ops s) (reads s) (writes s + 1)
          (last_report s).

(** The log lines, each with the values it is formatted from. *)
Inductive line :=
| Attempting (attempt max_retries : Z)
| Connected
| ClusterState
| ClusterSlots
| AttemptFailed (attempt : Z) (e : exn)
| Retrying (retry_delay : Z)
| MaxRetriesReached
| ConnectionLost
| WriteFailed (e : exn)
| ReadFailed (e : exn)
| StatsLine (s : Stats) (ops_per_sec success_rate : Q)
| Starting
| ShuttingDown
| UnexpectedError (e : exn).

Abbreviation Run := (M t line).

Section WithConfig.

(** [OPERATIONS_PER_SECOND], [READ_WRITE_RATIO] *)
Variables (OPERATIONS_PER_SECOND READ_WRITE_RATIO : Z).
Variable topo : topology.

(** [handle.method]: looking up a method on [None] fails before the
    arguments are evaluated. *)
Definition attr (h : t → option client) : Run client :=
  let* me := get_self in
  match h me with
  | Some c => ret c
  | None => raise AttributeError
  end.

Definition max_retries : Z := 10.
Definition retry_delay : Z := 5.

(** The body of the [try] in [connect]. *)
Definition connect_attempt (attempt : Z) : Run unit :=
  match topo with
  | Cluster =>
      log (Attempting (attempt + 1) max_retries);;;
      round_trip (New ClusterClient);;;
      modify_self (set_cluster (Some ClusterClient));;;
      (let* c := attr cluster in call (Some c) PING);;;
      log Connected;;;
      (let* c := attr cluster in call (Some c) CLUSTER_INFO);;;
      log ClusterState;;;
      log ClusterSlots
  | Sentinel =>
      log (Attempting (attempt + 1) max_retries);;;
      emit (New SentinelClient);;;
      modify_self (set_sentinel (Some SentinelClient));;;
      (let* _ := attr sentinel in emit (New Master));;;
      modify_self (set_master (Some Master));;;
      (let* _ := attr sentinel in emit (New Slave));;;
      modify_self (set_slave (Some Slave));;;
      (let* c := attr master in call (Some c) PING);;;
      log Connected
  end.

(** [for attempt in range(max_retries)], from [attempt] on, [todo]
    iterations left; the loop is left by [return] or by [raise]. *)
Fixpoint connect_from (todo : nat) (attempt : Z) : Run unit :=
  match todo with
  | O => ret tt
  | S todo' =>
      let* returned :=
        try_except (connect_attempt attempt;;; ret true)
          (λ e, if is_Exception e then Some (
             log (AttemptFailed (attempt + 1) e);;;
             if attempt <? max_retries - 1 then
               log (Retrying retry_delay);;;
               sleep (inject_Z retry_delay);;;
               ret false
             else
               log MaxRetriesReached;;;
               raise e)
           else None) in
      if returned : bool then ret tt else connect_from todo' (attempt + 1)
  end.

Definition connect : Run unit := connect_from (Z.to_nat max_retries) 0.

Definition reconnect : Run unit :=
  log ConnectionLost;;;
  sleep 2;;;
  connect.

Definition write_handle : t → option client :=
  match topo with Cluster => cluster | Sentinel => master end.

Definition read_handle : t → option client :=
  match topo with Cluster => cluster | Sentinel => slave end.

(** The body of the [try] in [perform_write]. *)
Definition write_body : Run bool :=
  let* key := generate_random_key in
  let* value := generate_random_string 20 in
  let* op_type := choice ["set"; "incr"; "lpush"; "sadd"; "hset"] "" in
  (if String.eqb op_type "set" then
     let* c := attr write_handle in
     call (Some c) (SET key value (Some 300))
   else if String.eqb op_type "incr" then
     let* c := attr write_handle in
     let* n := randint 1 100 in
     call (Some c) (INCR (fmt_key "counter" n))
   else if String.eqb op_type "lpush" then
     match topo with
     | Cluster =>
         let* n := randint 1 50 in
         let list_key := fmt_key "list" n in
         (let* c := attr write_handle in call (Some c) (LPUSH list_key value));;;
         (let* c := attr write_handle in call (Some c) (LTRIM list_key 0 99))
     | Sentinel =>
         (let* c := attr write_handle in
          let* n := randint 1 50 in
          call (Some c) (LPUSH (fmt_key "list" n) value));;;
         (let* c := attr write_handle in
          let* n := randint 1 50 in
          call (Some c) (LTRIM (fmt_key "list" n) 0 99))
     end
   else if String.eqb op_type "sadd" then
     let* c := attr write_handle in
     let* n := randint 1 50 in
     call (Some c) (SADD (fmt_key "set" n) value)
   else if String.eqb op_type "hset" then
     let* c := attr write_handle in
     let* n := randint 1 50 in
     let* field := generate_random_string 10 in
     call (Some c) (HSET (fmt_key "hash" n) field value)
   else ret tt);;;
  modify_self (set_stats incr_writes);;;
  modify_self (set_stats incr_successful_ops);;;
  ret true.

Definition perform_write : Run bool :=
  try_except write_body
    (λ e, if is_RedisError e then Some (
       log (WriteFailed e);;;
       modify_self (set_stats incr_failed_ops);;;
       reconnect;;;
       ret false)
     else None).

(** The body of the [try] in [perform_read]. *)
Definition read_body : Run bool :=
  let* key := generate_random_key in
  let* op_type := choice ["get"; "exists"; "lrange"; "smembers"; "hgetall"] "" in
  (if String.eqb op_type "get" then
     let* c := attr read_handle in
     call (Some c) (GET key)
   else if String.eqb op_type "exists" then
     let* c := attr read_handle in
     call (Some c) (EXISTS key)
   else if String.eqb op_type "lrange" then
     let* c := attr read_handle in
     let* n := randint 1 50 in
     call (Some c) (LRANGE (fmt_key "list" n) 0 10)
   else if String.eqb op_type "smembers" then
     let* c := attr read_handle in
     let* n := randint 1 50 in
     call (Some c) (SMEMBERS (fmt_key "set" n))
   else if String.eqb op_type "hgetall" then
     let* c := attr read_handle in
     let* n := randint 1 50 in
     call (Some c) (HGETALL (fmt_key "hash" n))
   else ret tt);;;
  modify_self (set_stats incr_reads);;;
  modify_self (set_stats incr_successful_ops);;;
  ret true.

Definition perform_read : Run bool :=
  try_except read_body
    (λ e, if is_RedisError e then Some (
       log (ReadFailed e);;;
       modify_self (set_stats incr_failed_ops);;;
       reconnect;;;
       ret false)
     else None).

Definition report_stats : Run unit :=
  let* now := time_time in
  let* me := get_self in
  let s := stats me in
  let elapsed := (now - last_report s)%Q in
  if Qle_bool 10 elapsed then
    let ops_per_sec :=
      if Qlt_bool 0 elapsed then (inject_Z (total_ops s) / elapsed)%Q else 0%Q in
    let success_rate :=
      if 0 <? total_ops s
      then (inject_Z (successful_ops s) / inject_Z (total_ops s) * 100)%Q
      else 0%Q in
    log (StatsLine s ops_per_sec success_rate);;;
    modify_self (set_stats (λ _, mkStats 0 0 0 0 0 now))
  else ret tt.

(** The value of [sleep_time] in [run],
    [1.0 / OPERATIONS_PER_SECOND if OPERATIONS_PER_SECOND > 0 else 0.01],
    when the division has one. *)
Definition sleep_time : Q :=
  if 0 <? OPERATIONS_PER_SECOND then (1 / inject_Z OPERATIONS_PER_SECOND)%Q
  else (1 # 100)%Q.

(** The assignment to [sleep_time] in [run]: the division is evaluated for
    a positive rate only, and raises when the rate has no float.  When it
    returns, it returns [sleep_time]. *)
Definition assign_sleep_time : Run Q :=
  if 0 <? OPERATIONS_PER_SECOND then float_div OPERATIONS_PER_SECOND
  else ret (1 # 100)%Q.

(** The body of the [try] in the loop of [run]. *)
Definition tick_body : Run unit :=
  let* draw := randint 1 100 in
  (if draw <=? READ_WRITE_RATIO then perform_read else perform_write);;;
  modify_self (set_stats incr_total_ops);;;
  report_stats;;;
  sleep sleep_time.

(** One iteration of [while True]. *)
Definition tick : Run flow :=
  try_except (tick_body;;; ret Continue)
    (λ e, match e with
          | KeyboardInterrupt => Some (log ShuttingDown;;; ret Break)
          | _ => Some (log (UnexpectedError e);;; sleep 1;;; ret Continue)
          end).

(** [while True], observed for at most [fuel] iterations. *)
Fixpoint loop (fuel : nat) : Run flow :=
  match fuel with
  | O => ret Continue
  | S fuel' =>
      let* f := tick in
      match f with
      | Break => ret Break
      | Continue => loop fuel'
      end
  end.

Definition run (fuel : nat) : Run flow :=
  log Starting;;;
  let* _ := assign_sleep_time in
  loop fuel.

(** [LoadGenerator.__init__] *)
Definition init : Run unit :=
  let* now := time_time in
  modify_self (λ _, mkSelf None None None None (mkStats 0 0 0 0 0 now));;;
  connect.

(** [generator = LoadGenerator(); generator.run()] *)
Definition main (fuel : nat) : Run flow :=
  init;;;
  run fuel.

End WithConfig.

(** The attributes before [__init__] has run. *)
Definition blank : t := mkSelf None None None None (mkStats 0 0 0 0 0 0).

End LoadGenerator.

(** ** The dragonfly script

    A module-level script: three clients built once, a start-up wait loop,
    and the load loop, all at top level. *)

Module Dragonfly.

(** [stats] *)
Record Stats := mkStats {
  total_operations : Z;
  successful_operations : Z;
  failed_operations : Z;
  reads : Z;
  writes : Z;
  read_errors : Z;
  write_errors : Z
}.

(** The module's variables that the loop assigns. *)
Record globals := mkGlobals {
  stats : Stats;
  last_report_time : Q
}.

Definition set_stats (f : Stats → Stats) (g : globals) : globals :=
  mkGlobals (f (stats g)) (last_report_time g).
Definition set_last_report_time (now : Q) (g : globals) : globals :=
  mkGlobals (stats g) now.

(** [stats[...] += 1] *)
Definition incr_total_operations (s : Stats) : Stats :=
  mkStats (total_operations s + 1) (successful_operations s) (failed_operations s)
          (reads s) (writes s) (read_errors s) (write_errors s).
Definition incr_successful_operations (s : Stats) : Stats :=
  mkStats (total_operations s) (successful_operations s + 1) (failed_operations s)
          (reads s) (writes s) (read_errors s) (write_errors s).
Definition incr_failed_operations (s : Stats) : Stats :=
  mkStats (total_operations s) (successful_operations s) (failed_operations s + 1)
          (reads s) (writes s) (read_errors s) (write_errors s).
Definition incr_reads (s : Stats) : Stats :=
  mkStats (total_operations s) (successful_operations s) (failed_operations s)
          (reads s + 1) (writes s) (read_errors s) (write_errors s).
Definition incr_writes (s : Stats) : Stats :=
  mkStats (total_operations s) (successful_operations s) (failed_operations s)
          (reads s) (writes s + 1) (read_errors s) (write_errors s).
Definition incr_read_errors (s : Stats) : Stats :=
  mkStats (total_operations s) (successful_operations s) (failed_operations s)
          (reads s) (writes s) (read_errors s + 1) (write_errors s).
Definition incr_write_errors (s : Stats) : Stats :=
  mkStats (total_operations s) (successful_operations s) (failed_operations s)
          (reads s) (writes s) (read_errors s) (write_errors s + 1).

(** What the script prints, each line with the values it is formatted
    from. *)
Inductive line :=
| ConnectedAll
| Waiting (attempt max_retries : Z)
| FailedToConnect (e : exn)
| StartingLoad (ops_per_second read_write_ratio : Z)
| StatsBlock (s : Stats) (report_interval : Z) (ops_per_sec success_rate : Q)
| Stopping
| UnexpectedError (e : exn).

Abbreviation Run := (M globals line).

Section WithConfig.

(** [OPERATIONS_PER_SECOND], [READ_WRITE_RATIO] *)
Variables (OPERATIONS_PER_SECOND READ_WRITE_RATIO : Z).

Definition max_retries : Z := 30.

(** The body of the [try] in the wait loop. *)
Definition ping_all : Run unit :=
  call (Some Primary) PING;;;
  call (Some Replica1) PING;;;
  call (Some Replica2) PING;;;
  log ConnectedAll.

(** [for i in range(max_retries)], from [i] on, [todo] iterations left;
    the loop is left by [break] or by [raise]. *)
Fixpoint wait_from (todo : nat) (i : Z) : Run unit :=
  match todo with
  | O => ret tt
  | S todo' =>
      let* broke :=
        try_except (ping_all;;; ret true)
          (λ e, if is_RedisError e then Some (
             if i <? max_retries - 1 then
               log (Waiting (i + 1) max_retries);;;
               sleep 2;;;
               ret false
             else
               log (FailedToConnect e);;;
               raise e)
           else None) in
      if broke : bool then ret tt else wait_from todo' (i + 1)
  end.

Definition wait_for_connections : Run unit := wait_from (Z.to_nat max_retries) 0.

(** [get_random_int(min_val, max_val)] *)
Definition get_random_int (min_val max_val : Z) : Run Z := randint min_val max_val.

Definition report_interval : Z := 10.

Definition print_stats : Run unit :=
  let* now := time_time in
  let* g := get_self in
  let s := stats g in
  let elapsed := (now - last_report_time g)%Q in
  let ops_per_sec :=
    if Qlt_bool 0 elapsed then (inject_Z (total_operations s) / elapsed)%Q else 0%Q in
  let success_rate :=
    if 0 <? total_operations s
    then (inject_Z (successful_operations s) / inject_Z (total_operations s) * 100)%Q
    else 0%Q in
  log (StatsBlock s report_interval ops_per_sec success_rate);;;
  modify_self (set_stats (λ _, mkStats 0 0 0 0 0 0 0)).

(** [sleep_time = 1.0 / OPERATIONS_PER_SECOND] *)
Definition sleep_time : Run Q := float_div OPERATIONS_PER_SECOND.

(** The body of the inner [try] of a read. *)
Definition read_try (client : Redis.client) (op_type : string) : Run unit :=
     (if String.eqb op_type "get" then
        let* key := generate_random_key in
        call (Some client) (GET key)
      else if String.eqb op_type "exists" then
        let* key := generate_random_key in
        call (Some client) (EXISTS key)
      else if String.eqb op_type "lrange" then
        let* n := get_random_int 1 50 in
        call (Some client) (LRANGE (fmt_key "list" n) 0 10)
      else if String.eqb op_type "smembers" then
        let* n := get_random_int 1 50 in
        call (Some client) (SMEMBERS (fmt_key "set" n))
      else if String.eqb op_type "hgetall" then
        let* n := get_random_int 1 50 in
        call (Some client) (HGETALL (fmt_key "hash" n))
      else ret tt);;;
     modify_self (set_stats incr_successful_operations).

(** The inner [try] of a read, with its [except RedisError]. *)
Definition read_op (client : Redis.client) (op_type : string) : Run unit :=
  try_except (read_try client op_type)
    (λ e, if is_RedisError e then Some (
       modify_self (set_stats incr_failed_operations);;;
       modify_self (set_stats incr_read_errors))
     else None).

(** The body of the inner [try] of a write. *)
Definition write_try (client : Redis.client) (op_type : string) : Run unit :=
     (if String.eqb op_type "set" then
        let* key := generate_random_key in
        let* value := generate_random_string 20 in
        call (Some client) (SETEX key 300 value)
      else if String.eqb op_type "incr" then
        let* n := get_random_int 1 100 in
        call (Some client) (INCR (fmt_key "counter" n))
      else if String.eqb op_type "lpush" then
        let* n := get_random_int 1 50 in
        let list_key := fmt_key "list" n in
        (let* value := generate_random_string 20 in
         call (Some client) (LPUSH list_key value));;;
        call (Some client) (LTRIM list_key 0 99)
      else if String.eqb op_type "sadd" then
        let* n := get_random_int 1 50 in
        let* value := generate_random_string 20 in
        call (Some client) (SADD (fmt_key "set" n) value)
      else if String.eqb op_type "hset" then
        let* n := get_random_int 1 50 in
        let* field := generate_random_string 10 in
        let* value := generate_random_string 20 in
        call (Some client) (HSET (fmt_key "hash" n) field value)
      else ret tt);;;
     modify_self (set_stats incr_successful_operations).

(** The inner [try] of a write, with its [except RedisError]. *)
Definition write_op (client : Redis.client) (op_type : string) : Run unit :=
  try_except (write_try client op_type)
    (λ e, if is_RedisError e then Some (
       modify_self (set_stats incr_failed_operations);;;
       modify_self (set_stats incr_write_errors))
     else None).

(** [if time.time() - last_report_time >= report_interval: ...] *)
Definition report_check : Run unit :=
  let* now := time_time in
  let* g := get_self in
  if Qle_bool (inject_Z report_interval) (now - last_report_time g) then
    print_stats;;;
    let* now' := time_time in
    modify_self (set_last_report_time now')
  else ret tt.

(** The body of the outer [try] in the load loop. *)
Definition tick_body (sleep_time : Q) : Run unit :=
  let* draw := randint 1 100 in
  let is_read := draw <=? READ_WRITE_RATIO in
  (if is_read then
     let* client := choice [Replica1; Replica2] Replica1 in
     modify_self (set_stats incr_reads);;;
     let* op_type := choice ["get"; "exists"; "lrange"; "smembers"; "hgetall"] "" in
     read_op client op_type
   else
     let client := Primary in
     modify_self (set_stats incr_writes);;;
     let* op_type := choice ["set"; "incr"; "lpush"; "sadd"; "hset"] "" in
     write_op client op_type);;;
  modify_self (set_stats incr_total_operations);;;
  report_check;;;
  sleep sleep_time.

(** One iteration of [while True]. *)
Definition tick (sleep_time : Q) : Run flow :=
  try_except (tick_body sleep_time;;; ret Continue)
    (λ e, match e with
          | KeyboardInterrupt => Some (log Stopping;;; print_stats;;; ret Break)
          | _ => Some (log (UnexpectedError e);;; sleep 1;;; ret Continue)
          end).

(** [while True], observed for at most [fuel] iterations. *)
Fixpoint loop (sleep_time : Q) (fuel : nat) : Run flow :=
  match fuel with
  | O => ret Continue
  | S fuel' =>
      let* f := tick sleep_time in
      match f with
      | Break => ret Break
      | Continue => loop sleep_time fuel'
      end
  end.

(** The script from its first statement with an effect. *)
Definition main (fuel : nat) : Run flow :=
  emit (New Primary);;;
  emit (New Replica1);;;
  emit (New Replica2);;;
  wait_for_connections;;;
  modify_self (set_stats (λ _, mkStats 0 0 0 0 0 0 0));;;
  (let* now := time_time in modify_self (set_last_report_time now));;;
  log (StartingLoad OPERATIONS_PER_SECOND READ_WRITE_RATIO);;;
  let* st := sleep_time in
  loop st fuel.

End WithConfig.

(** The module's variables before the script assigns them. *)
Definition blank : globals := mkGlobals (mkStats 0 0 0 0 0 0 0) 0.

End Dragonfly.

(** A world with the given oracles and an empty data set. *)
Definition world {St} (rng : list Z) (net : list net_outcome) (naps : list bool)
    (clock : list Q) (s : St) : World St :=
  mkWorld rng net naps clock ∅ s.

(** ** Observing a run *)

Section Observing.
Context {St L A : Type}.

Definition result (m : M St L A) (w : World St) : res A := (m w).1.1.
Definition after (m : M St L A) (w : World St) : World St := (m w).1.2.
Definition events (m : M St L A) (w : World St) : list (event L) := (m w).2.

(** [m] changes the program's variables only along [R] and produces only
    events in [P], whatever the world answers and however it ends. *)
Definition keeps (R : relation St) (P : event L → Prop) (m : M St L A) : Prop :=
  ∀ w, R (self w) (self (after m w)) ∧ Forall P (events m w).

End Observing.

(** The outcome [x] with the events [ev] put in front of its own. *)
Definition prepend {St L A} (ev : list (event L))
    (x : res A * World St * list (event L)) : res A * World St * list (event L) :=
  (x.1.1, x.1.2, ev ++ x.2).

(** What a command does once the world has answered. *)
Definition answered {St L B} (c : client) (k : command) (f : unit → M St L B) (w : World St)
    : res B * World St * list (event L) :=
  let w' := mkWorld (rng w) (tl (net w)) (naps w) (clock w) (store w) (self w) in
  match hd NetOk (net w) with
  | NetOk =>
      if writes_to_primary c then
        match Redis.apply k (store w) with
        | Some st =>
            prepend [Cmd c k]
              (f tt (mkWorld (rng w) (tl (net w)) (naps w) (clock w) st (self w)))
        | None => (Raise RedisError, w', [Cmd c k])
        end
      else prepend [Cmd c k] (f tt w')
  | NetRedisError => (Raise RedisError, w', [Cmd c k])
  | NetOtherError => (Raise OtherException, w', [Cmd c k])
  | NetInterrupt => (Raise KeyboardInterrupt, w', [Cmd c k])
  end.

(** The characters [generate_random_string(n)] makes of the random source. *)
Fixpoint drawn_chars (n : nat) (rs : list Z) : list ascii :=
  match n with
  | O => []
  | S n' => choice_of ascii_letters_digits "0"%char (hd 0 rs) :: drawn_chars n' (tl rs)
  end.

(** The store commands among the events, in order. *)
Fixpoint commands {L} (evs : list (event L)) : list (client * command) :=
  match evs with
  | [] => []
  | Cmd c k :: evs' => (c, k) :: commands evs'
  | _ :: evs' => commands evs'
  end.

(** The sleeps among the events, in order. *)
Fixpoint sleeps {L} (evs : list (event L)) : list Q :=
  match evs with
  | [] => []
  | Sleep d :: evs' => d :: sleeps evs'
  | _ :: evs' => sleeps evs'
  end.

(** The log lines among the events, in order. *)
Fixpoint logged {L} (evs : list (event L)) : list L :=
  match evs with
  | [] => []
  | Log l :: evs' => l :: logged evs'
  | _ :: evs' => logged evs'
  end.

(** ** Statements about the commands on the wire *)

(** [key] is [f"{ns}:{n}"] for some [n] of the closed range [lo..hi]. *)
Definition in_pool (ns : string) (lo hi : Z) (key : string) : Prop :=
  ∃ n, key = fmt_key ns n ∧ lo ≤ n ≤ hi.

(** The key of every command lies in the pool of its namespace. *)
Definition key_in_pool (k : command) : Prop :=
  match k with
  | PING | CLUSTER_INFO => True
  | SET key _ _ | SETEX key _ _ | GET key | EXISTS key => in_pool "key" 1 1000 key
  | INCR key => in_pool "counter" 1 100 key
  | LPUSH key _ | LTRIM key _ _ | LRANGE key _ _ => in_pool "list" 1 50 key
  | SADD key _ | SMEMBERS key => in_pool "set" 1 50 key
  | HSET key _ _ | HGETALL key => in_pool "hash" 1 50 key
  end.

(** The key a set-with-ttl command writes. *)
Definition string_key (k : command) : option string :=
  match k with
  | SET key _ _ | SETEX key _ _ => Some key
  | _ => None
  end.

(** The expiry, in seconds, the data set holds for the string at [key]. *)
Definition stored_expiry (st : Store) (key : string) : option (option Z) :=
  match st !! key with
  | Some (RString _ ttl) => Some ttl
  | _ => None
  end.

(** A command with its key in its pool and, when it sets a string, an
    expiry of 300 seconds. *)
Definition well_formed (k : command) : Prop :=
  key_in_pool k ∧
  ∀ key st, string_key k = Some key →
    ∃ st', Redis.apply k st = Some st' ∧ stored_expiry st' key = Some (Some 300).

Definition on_wire {L} (P : command → Prop) (e : event L) : Prop :=
  match e with
  | Cmd _ k => P k
  | _ => True
  end.

(** No constraint on the program's variables. *)
Definition any {St} : relation St := λ _ _, True.

(** ** The three scripts side by side *)

Inductive variant := cluster | sentinel | dragonfly.

(** What the world holds before a script starts. *)
Abbreviation Outside := (World unit).

(** The world of a script whose variables are [s]. *)
Definition boot {St} (s : St) (o : Outside) : World St :=
  mkWorld (rng o) (net o) (naps o) (clock o) (store o) s.

(** The commands a script sends when it is started in the world [o] and
    watched for [fuel] iterations of its loop. *)
Definition wire_of (v : variant) (OPERATIONS_PER_SECOND READ_WRITE_RATIO : Z)
    (fuel : nat) (o : Outside) : list (client * command) :=
  match v with
  | cluster =>
      commands (events (LoadGenerator.main OPERATIONS_PER_SECOND READ_WRITE_RATIO
                          LoadGenerator.Cluster fuel) (boot LoadGenerator.blank o))
  | sentinel =>
      commands (events (LoadGenerator.main OPERATIONS_PER_SECOND READ_WRITE_RATIO
                          LoadGenerator.Sentinel fuel) (boot LoadGenerator.blank o))
  | dragonfly =>
      commands (events (Dragonfly.main OPERATIONS_PER_SECOND READ_WRITE_RATIO fuel)
                  (boot Dragonfly.blank o))
  end.

(** A world where a start-up connection succeeds at once and the first
    operation is a set-with-ttl write: the first draw, 100, exceeds the
    ratio; in the class scripts the key and the 20 characters of the value
    are drawn before the operation. *)
Definition set_first_class : Outside :=
  mkWorld ([99; 41] ++ replicate 20 7 ++ [0]) [] [] [] ∅ tt.

Definition set_first_dragonfly : Outside :=
  mkWorld ([99; 0; 41] ++ replicate 20 7) [] [] [] ∅ tt.

(** A window opened at second 100 and looked at 4 seconds later. *)
Definition young_window_class : World LoadGenerator.t :=
  mkWorld [] [] [] [104%Q] ∅
    (LoadGenerator.mkSelf (Some ClusterClient) None None None
       (LoadGenerator.mkStats 7 5 2 3 2 100)).

Definition young_window_dragonfly : World Dragonfly.globals :=
  mkWorld [] [] [] [104%Q] ∅
    (Dragonfly.mkGlobals (Dragonfly.mkStats 7 5 2 4 3 1 1) 100).

(** A world that answers every call with success and never interrupts. *)
Definition calm : Outside := mkWorld [] [] [] [] ∅ tt.

(** ** Scenarios for list-push-trim *)

(** A data set whose [list:1] already has 100 elements. *)
Definition full_list : Store := {[ "list:1" := RList (replicate 100 "x") ]}.

(** A connected sentinel script about to write: the operation drawn is
    [lpush], and the two draws for the list key give 1 and then 2. *)
Definition sentinel_lpush : World LoadGenerator.t :=
  mkWorld ([41] ++ replicate 20 7 ++ [2; 0; 1]) [] [] [] full_list
    (LoadGenerator.mkSelf None (Some SentinelClient) (Some Master) (Some Slave)
       (LoadGenerator.mkStats 0 0 0 0 0 0)).

(** ** Counting connection attempts *)

(** How many elements of [l] satisfy [p]. *)
Fixpoint tally {A} (p : A → bool) (l : list A) : nat :=
  match l with
  | [] => 0
  | x :: l' => (if p x then 1 else 0) + tally p l'
  end.

(** Class scripts: an attempt starts with the "Attempting to connect" line
    and a failed one logs "Connection attempt ... failed". *)
Definition attempting (e : event LoadGenerator.line) : bool :=
  match e with Log (LoadGenerator.Attempting _ _) => true | _ => false end.
Definition attempt_failed (e : event LoadGenerator.line) : bool :=
  match e with Log (LoadGenerator.AttemptFailed _ _) => true | _ => false end.

(** What else a connection attempt of the class scripts produces. *)
Definition inner (e : event LoadGenerator.line) : Prop :=
  match e with
  | Cmd _ PING | Cmd _ CLUSTER_INFO | New _
  | Log LoadGenerator.Connected | Log LoadGenerator.ClusterState
  | Log LoadGenerator.ClusterSlots => True
  | _ => False
  end.

(** Dragonfly script: an attempt starts with the ping of the primary and a
    failed one prints "Waiting ..." or "Failed to connect ...". *)
Definition primary_ping (e : event Dragonfly.line) : bool :=
  match e with Cmd Primary PING => true | _ => false end.
Definition wait_failed (e : event Dragonfly.line) : bool :=
  match e with
  | Log (Dragonfly.Waiting _ _) | Log (Dragonfly.FailedToConnect _) => true
  | _ => false
  end.

(** What else an attempt of the dragonfly script produces. *)
Definition inner_dragonfly (e : event Dragonfly.line) : Prop :=
  match e with
  | Cmd Replica1 PING | Cmd Replica2 PING | Log Dragonfly.ConnectedAll => True
  | _ => False
  end.

(** A world whose first [n] network calls raise a [RedisError]. *)
Definition failing (n : nat) : Outside := mkWorld [] (replicate n NetRedisError) [] [] ∅ tt.

(** ** The workload mix *)

Inductive kind := Read | Write.

Definition read_subtypes : list string := ["get"; "exists"; "lrange"; "smembers"; "hgetall"].
Definition write_subtypes : list string := ["set"; "incr"; "lpush"; "sadd"; "hset"].

(** The kind and subtype of operation a command belongs to. *)
Definition classify (k : command) : option (kind * string) :=
  match k with
  | PING | CLUSTER_INFO => None
  | GET _ => Some (Read, "get")
  | EXISTS _ => Some (Read, "exists")
  | LRANGE _ _ _ => Some (Read, "lrange")
  | SMEMBERS _ => Some (Read, "smembers")
  | HGETALL _ => Some (Read, "hgetall")
  | SET _ _ _ | SETEX _ _ _ => Some (Write, "set")
  | INCR _ => Some (Write, "incr")
  | LPUSH _ _ | LTRIM _ _ _ => Some (Write, "lpush")
  | SADD _ _ => Some (Write, "sadd")
  | HSET _ _ _ => Some (Write, "hset")
  end.

(** The first command among the events. *)
Definition first_command {L} (evs : list (event L)) : option (client * command) :=
  head (commands evs).

(** A connected class script, its counters at zero. *)
Definition connected (topo : LoadGenerator.topology) : LoadGenerator.t :=
  match topo with
  | LoadGenerator.Cluster =>
      LoadGenerator.mkSelf (Some ClusterClient) None None None
        (LoadGenerator.mkStats 0 0 0 0 0 0)
  | LoadGenerator.Sentinel =>
      LoadGenerator.mkSelf None (Some SentinelClient) (Some Master) (Some Slave)
        (LoadGenerator.mkStats 0 0 0 0 0 0)
  end.

(** Scripts about to write, whose draws give the key [key:42], a value of
    twenty [h] and the operation [set]; the class script is connected,
    and draws the operation last. *)
Definition set_write_class (topo : LoadGenerator.topology) : World LoadGenerator.t :=
  mkWorld ([41] ++ replicate 20 7 ++ [0]) [] [] [] ∅ (connected topo).

Definition set_write_dragonfly : World Dragonfly.globals :=
  mkWorld ([41] ++ replicate 20 7) [] [] [] ∅ Dragonfly.blank.

(** A connected cluster script whose next draws are 1 (a read, whatever
    the ratio from 1 up), key 42 and the first read subtype. *)
Definition read_first : World LoadGenerator.t :=
  mkWorld [0; 41; 0] [] [] [] ∅ (connected LoadGenerator.Cluster).

(** ** Statements about the counters *)

(** [Q] holds of the result, the next world and the events of [m] run in
    [w]. *)
Definition post {St L A} (m : M St L A) (w : World St)
    (Q : res A → World St → list (event L) → Prop) : Prop :=
  Q (result m w) (after m w) (events m w).

(** *** Class scripts *)

(** The counters of the class scripts between two ticks: [reads] and
    [writes] count the operations that succeeded, and every tick is either
    a success or a failure. *)
Definition balanced (s : LoadGenerator.Stats) : Prop :=
  LoadGenerator.reads s + LoadGenerator.writes s = LoadGenerator.successful_ops s ∧
  LoadGenerator.successful_ops s + LoadGenerator.failed_ops s = LoadGenerator.total_ops s.

(** The same between the operation of a tick and its [total_ops += 1]. *)
Definition one_ahead (s : LoadGenerator.Stats) : Prop :=
  LoadGenerator.reads s + LoadGenerator.writes s = LoadGenerator.successful_ops s ∧
  LoadGenerator.successful_ops s + LoadGenerator.failed_ops s
  = LoadGenerator.total_ops s + 1.

(** Two states of [self] with the same counters. *)
Definition same_stats : relation LoadGenerator.t :=
  λ s s', LoadGenerator.stats s' = LoadGenerator.stats s.

(** Neither a statistics report nor an "Unexpected error" line. *)
Definition silent (e : event LoadGenerator.line) : Prop :=
  match e with
  | Log (LoadGenerator.StatsLine _ _ _) | Log (LoadGenerator.UnexpectedError _) => False
  | _ => True
  end.

(** A statistics report, if it is one, shows balanced counters. *)
Definition report_ok (e : event LoadGenerator.line) : Prop :=
  match e with
  | Log (LoadGenerator.StatsLine s _ _) => balanced s
  | _ => True
  end.

(** Not an "Unexpected error" line. *)
Definition expected (e : event LoadGenerator.line) : Prop :=
  match e with
  | Log (LoadGenerator.UnexpectedError _) => False
  | _ => True
  end.

(** *** Dragonfly script *)

(** A network call that goes through or raises a [RedisError]. *)
Definition net_ok (o : net_outcome) : Prop :=
  match o with NetOk | NetRedisError => True | _ => False end.

(** [m] leaves the coming network answers among those it found. *)
Definition tails {St L A} (m : M St L A) : Prop :=
  ∀ w : World St, Forall net_ok (net w) → Forall net_ok (net (after m w)).

(** Moreover [m] raises nothing but [RedisError]. *)
Definition steady {St L A} (m : M St L A) : Prop :=
  ∀ w : World St, Forall net_ok (net w) →
    Forall net_ok (net (after m w)) ∧
    match result m w with Raise e => e = RedisError | Ret _ => True end.

(** The counters of the dragonfly script between two ticks. *)
Definition tallied (s : Dragonfly.Stats) : Prop :=
  Dragonfly.total_operations s = Dragonfly.reads s + Dragonfly.writes s ∧
  Dragonfly.successful_operations s + Dragonfly.failed_operations s
  = Dragonfly.total_operations s.

(** The same between the operation of a tick and its
    [total_operations += 1]. *)
Definition one_counted (s : Dragonfly.Stats) : Prop :=
  Dragonfly.total_operations s + 1 = Dragonfly.reads s + Dragonfly.writes s ∧
  Dragonfly.successful_operations s + Dragonfly.failed_operations s
  = Dragonfly.total_operations s + 1.

(** A statistics block, if it is one, shows tallied counters. *)
Definition block_ok (e : event Dragonfly.line) : Prop :=
  match e with
  | Log (Dragonfly.StatsBlock s _ _ _) => tallied s
  | _ => True
  end.

(** Not a statistics block. *)
Definition no_block (e : event Dragonfly.line) : Prop :=
  match e with
  | Log (Dragonfly.StatsBlock _ _ _ _) => False
  | _ => True
  end.

(** Two states of the module's variables with the same counters. *)
Definition same_counters : relation Dragonfly.globals :=
  λ g g', Dragonfly.stats g' = Dragonfly.stats g.

(** ** Scenarios for the reports *)

(** A start in a quiet world: every call goes through, the first draws
    select a read of [key:1], and the clock reads 0 when the counters are
    set up and 11 at the first report check. *)
Definition quiet_start : Outside := mkWorld [] [] [] [0; 11; 11; 11]%Q ∅ tt.

(** Not a log line. *)
Definition unlogged {L} (e : event L) : Prop :=
  match e with Log _ => False | _ => True end.

(** What a call returns or raises when the world answers [o]. *)
Definition reply (o : net_outcome) : res unit :=
  match o with
  | NetOk => Ret tt
  | NetRedisError => Raise RedisError
  | NetOtherError => Raise OtherException
  | NetInterrupt => Raise KeyboardInterrupt
  end.

(** ** How the load loop ends *)

(** A world in which no interrupt arrives: none while a call blocks, none
    during a sleep. *)
Definition undisturbed {St} (w : World St) : Prop :=
  Forall (λ o, o ≠ NetInterrupt) (net w) ∧ Forall (λ b, b = false) (naps w).

(** Without an interrupt, [m] does not raise [KeyboardInterrupt], and the
    world it leaves has none to come either. *)
Definition uninterrupted {St L A} (m : M St L A) : Prop :=
  ∀ w : World St, undisturbed w →
    undisturbed (after m w) ∧ result m w ≠ Raise KeyboardInterrupt.

(** How an iteration of the class scripts' loop, and so the loop, can end
    after the events [evs]: it goes on, it is left by [break] after the
    "Shutting down" line, or an interrupt leaves it. *)
Definition class_exit (r : res flow) (evs : list (event LoadGenerator.line)) : Prop :=
  match r with
  | Ret Continue => True
  | Ret Break => ∃ evs', evs = evs' ++ [Log LoadGenerator.ShuttingDown]
  | Raise e => e = KeyboardInterrupt
  end.

(** The same for the dragonfly script, which leaves the counters [s]. *)
Definition dragonfly_exit (r : res flow) (evs : list (event Dragonfly.line))
    (s : Dragonfly.Stats) : Prop :=
  match r with
  | Ret Continue => True
  | Ret Break =>
      (∃ evs' shown i a b,
         evs = evs' ++ [Log Dragonfly.Stopping; Log (Dragonfly.StatsBlock shown i a b)]) ∧
      s = Dragonfly.mkStats 0 0 0 0 0 0 0
  | Raise e => e = KeyboardInterrupt
  end.

(** ** Scenarios for a report that is due *)

(** A window opened at second 100 and looked at 11 seconds later; the
    dragonfly script reads the clock twice more while it reports. *)
Definition old_window_class : World LoadGenerator.t :=
  mkWorld [] [] [] [111%Q] ∅
    (LoadGenerator.mkSelf (Some ClusterClient) None None None
       (LoadGenerator.mkStats 7 5 2 3 2 100)).

Definition old_window_dragonfly : World Dragonfly.globals :=
  mkWorld [] [] [] [111; 112; 113]%Q ∅
    (Dragonfly.mkGlobals (Dragonfly.mkStats 7 5 2 4 3 1 1) 100).

(** ** Where commands go, and which exceptions occur *)

(** The exceptions that reach a script from outside: those the client
    library raises on a network call, and the interrupt. *)
Definition from_outside (e : exn) : bool :=
  match e with
  | RedisError | OtherException | KeyboardInterrupt => true
  | _ => false
  end.

(** The client a variant writes through. *)
Definition writer (v : variant) : client :=
  match v with
  | cluster => ClusterClient
  | sentinel => Master
  | dragonfly => Primary
  end.

(** The clients a variant reads through. *)
Definition reader (v : variant) (c : client) : bool :=
  match v, c with
  | cluster, ClusterClient | sentinel, Slave
  | dragonfly, Replica1 | dragonfly, Replica2 => true
  | _, _ => false
  end.

(** The clients a variant checks its connection with. *)
Definition pinged (v : variant) (c : client) : bool :=
  match v, c with
  | cluster, ClusterClient | sentinel, Master
  | dragonfly, Primary | dragonfly, Replica1 | dragonfly, Replica2 => true
  | _, _ => false
  end.

(** The command [k] is sent through a client meant for it. *)
Definition served (v : variant) (c : client) (k : command) : bool :=
  match classify k with
  | Some (Write, _) => bool_decide (c = writer v)
  | Some (Read, _) => reader v c
  | None => pinged v c
  end.

Definition variant_of (topo : LoadGenerator.topology) : variant :=
  match topo with
  | LoadGenerator.Cluster => cluster
  | LoadGenerator.Sentinel => sentinel
  end.

(** The exception a log line of the class scripts reports. *)
Definition reported (e : event LoadGenerator.line) : option exn :=
  match e with
  | Log (LoadGenerator.AttemptFailed _ x) | Log (LoadGenerator.WriteFailed x)
  | Log (LoadGenerator.ReadFailed x) | Log (LoadGenerator.UnexpectedError x) => Some x
  | _ => None
  end.

(** The same for the dragonfly script. *)
Definition dragonfly_reported (e : event Dragonfly.line) : option exn :=
  match e with
  | Log (Dragonfly.FailedToConnect x) | Log (Dragonfly.UnexpectedError x) => Some x
  | _ => None
  end.

(** An event of variant [v]: a command through a client meant for it, or
    anything else whose exception, if it reports one, came from outside. *)
Definition in_order {L} (v : variant) (reported : event L → option exn) (e : event L)
    : Prop :=
  match e with
  | Cmd c k => served v c k = true
  | _ => match reported e with
         | Some x => from_outside x = true
         | None => True
         end
  end.

(** The handles the operations of a class script use are set. *)
Definition ready (topo : LoadGenerator.topology) (s : LoadGenerator.t) : Prop :=
  match topo with
  | LoadGenerator.Cluster => LoadGenerator.cluster s = Some ClusterClient
  | LoadGenerator.Sentinel =>
      LoadGenerator.master s = Some Master ∧ LoadGenerator.slave s = Some Slave
  end.

(** From a state in [I], [m] ends in a state in [I], produces only events
    in [P] and raises only exceptions that come from outside. *)
Definition guards {St L A} (I : St → Prop) (P : event L → Prop) (m : M St L A) : Prop :=
  ∀ w : World St, I (self w) →
    I (self (after m w)) ∧ Forall P (events m w) ∧
    match result m w with
    | Raise e => from_outside e = true
    | Ret _ => True
    end.

(** A command through a client meant for it. *)
Definition routed {L} (v : variant) (e : event L) : Prop :=
  match e with
  | Cmd c k => served v c k = true
  | _ => True
  end.

(** What a connection attempt, and then [connect], does wherever it
    starts: it sets every handle before it uses it. *)
Definition sets_up (topo : LoadGenerator.topology) (m : LoadGenerator.Run unit)
    (w : World LoadGenerator.t) : Prop :=
  Forall (in_order (variant_of topo) reported) (events m w) ∧
  (ready topo (self w) → ready topo (self (after m w))) ∧
  match result m w with
  | Ret _ => ready topo (self (after m w))
  | Raise e => from_outside e = true
  end.

(** ** Configuration: the addresses in the environment

    The three scripts read the addresses of their nodes from environment
    variables before anything else.  Strings are sequences of bytes here;
    the separators [:] and [,] are ASCII, so cutting at them is the same on
    the bytes of a UTF-8 string as on its characters.  The two library
    functions whose result depends on more than that, [int] and
    [str.strip], are left open: the definitions take them as arguments. *)

Module Config.

(** [s.split(sep)] for a separator of one character: the pieces between
    the separators, always at least one. *)
Fixpoint split (sep : ascii) (s : string) : list string :=
  match s with
  | EmptyString => [EmptyString]
  | String c s' =>
      if Ascii.eqb c sep then EmptyString :: split sep s'
      else match split sep s' with
           | piece :: pieces => String c piece :: pieces
           | [] => [String c EmptyString]
           end
  end.

(** [parts[i]]: an [IndexError], which is an [Exception] outside the Redis
    family, when there is no such element. *)
Definition index (parts : list string) (i : nat) : res string :=
  match parts !! i with
  | Some p => Ret p
  | None => Raise OtherException
  end.

Section Parsing.

(** [int(s)]: the number the string denotes, or [None] for a
    [ValueError]. *)
Variable int : string → option Z.

(** [s.strip()] *)
Variable strip : string → string.

(** [int(s)] *)
Definition to_int (s : string) : res Z :=
  match int s with
  | Some n => Ret n
  | None => Raise ValueError
  end.

(** dragonfly: [parse_host(host_str)], that is
    [parts[0], (int(parts[1]) if len(parts) > 1 else 6379)]. *)
Definition parse_host (host_str : string) : res (string * Z) :=
  let parts := split ":" host_str in
  match index parts 0 with
  | Raise e => Raise e
  | Ret host =>
      if (1 <? length parts)%nat then
        match index parts 1 with
        | Raise e => Raise e
        | Ret p =>
            match to_int p with
            | Raise e => Raise e
            | Ret port => Ret (host, port)
            end
        end
      else Ret (host, 6379)
  end.

(** cluster and sentinel: the body of the loop over the addresses,
    [host, port = addr.strip().split(':')] and then [(host, int(port))];
    unpacking anything but two pieces is a [ValueError]. *)
Definition parse_addr (addr : string) : res (string * Z) :=
  match split ":" (strip addr) with
  | [host; port] =>
      match to_int port with
      | Raise e => Raise e
      | Ret n => Ret (host, n)
      end
  | _ => Raise ValueError
  end.

(** The loop [for addr in addrs: ... append(...)]: the first address that
    fails ends the script. *)
Fixpoint parse_addrs (addrs : list string) : res (list (string * Z)) :=
  match addrs with
  | [] => Ret []
  | addr :: addrs' =>
      match parse_addr addr with
      | Raise e => Raise e
      | Ret node =>
          match parse_addrs addrs' with
          | Raise e => Raise e
          | Ret nodes => Ret (node :: nodes)
          end
      end
  end.

(** The node list made of the value of [REDIS_CLUSTER_NODES] or of
    [REDIS_SENTINELS]. *)
Definition node_list (value : string) : res (list (string * Z)) :=
  parse_addrs (split "," value).

End Parsing.

(** No character of [s] is [sep]. *)
Fixpoint free (sep : ascii) (s : string) : bool :=
  match s with
  | EmptyString => true
  | String c s' => negb (Ascii.eqb c sep) && free sep s'
  end.

(** What [int] gives on a plain decimal numeral, to try the definitions
    on. *)
Fixpoint decimal_from (acc : Z) (s : string) : option Z :=
  match s with
  | EmptyString => Some acc
  | String c s' =>
      let d := Z.of_N (N_of_ascii c) - 48 in
      if (0 <=? d) && (d <=? 9) then decimal_from (10 * acc + d) s' else None
  end.

Definition decimal (s : string) : option Z :=
  match s with
  | EmptyString => None
  | _ => decimal_from 0 s
  end.

End Config.

(** ** What a failure costs *)

(** Not a sleep. *)
Definition awake {L} (e : event L) : Prop :=
  match e with Sleep _ => False | _ => True end.

(** Not the "Starting load generation" line. *)
Definition before_start (e : event LoadGenerator.line) : Prop :=
  match e with Log LoadGenerator.Starting => False | _ => True end.

(** A connected cluster script whose next read fails and whose ten
    attempts to connect again fail as well. *)
Definition outage : World LoadGenerator.t :=
  mkWorld [] (replicate 11 NetRedisError) [] [] ∅ (connected LoadGenerator.Cluster).

(** A start at which every attempt to connect fails. *)
Definition no_cluster : Outside := failing 10.

(** Not an "Unexpected error" line of the dragonfly script. *)
Definition dragonfly_expected (e : event Dragonfly.line) : Prop :=
  match e with
  | Log (Dragonfly.UnexpectedError _) => False
  | _ => True
  end.

(** A dragonfly script in its loop whose next read meets an exception
    that is not a [RedisError]. *)
Definition odd_failure : World Dragonfly.globals :=
  mkWorld [] [NetOtherError] [] [] ∅ Dragonfly.blank.

(** A start of the dragonfly script at which the three pings go through
    and the first operation, a read, meets an exception that is not a
    [RedisError]. *)
Definition odd_start : Outside :=
  mkWorld [] [NetOk; NetOk; NetOk; NetOtherError] [] [] ∅ tt.

(** ** A run in which nothing goes wrong *)

(** [s.startswith(p)] *)
Fixpoint starts_with (p s : string) : bool :=
  match p with
  | EmptyString => true
  | String a p' =>
      match s with
      | EmptyString => false
      | String b s' => Ascii.eqb a b && starts_with p' s'
      end
  end.

(** The type of value each namespace of keys holds. *)
Definition kind_ok (key : string) (v : rvalue) : bool :=
  match v with
  | RString _ _ => starts_with "key:" key
  | RInt _ => starts_with "counter:" key
  | RList _ => starts_with "list:" key
  | RSet _ => starts_with "set:" key
  | RHash _ => starts_with "hash:" key
  end.

(** Every key of the data set holds a value of the type of its
    namespace, and every counter, also one that is yet to be created, can
    be incremented [room] more times: none is above [int64_max - room].
    The empty data set is one, for every [room] up to [int64_max]. *)
Definition typed (room : nat) (st : Store) : Prop :=
  Z.of_nat room ≤ int64_max ∧
  ∀ key v, st !! key = Some v →
    kind_ok key v = true ∧
    match v with RInt n => n + Z.of_nat room ≤ int64_max | _ => True end.

(** The data set takes the command, whatever it holds, and stays typed,
    with [cost] less room for its counters. *)
Definition accepts (cost : nat) (k : command) : Prop :=
  ∀ room st, typed (cost + room) st →
    ∃ st', Redis.apply k st = Some st' ∧ typed room st'.

(** A world that answers every call, in which no interrupt arrives, and
    whose data set is typed, with [room] for its counters. *)
Definition healthy {St} (room : nat) (w : World St) : Prop :=
  Forall (λ o, o = NetOk) (net w) ∧ Forall (λ b, b = false) (naps w) ∧
  typed room (store w).

(** In a healthy world, from a state in [I], [m] returns, in a healthy
    world and a state in [I], and produces only events in [P]; it takes
    at most [cost] of the room of the counters. *)
Definition smooth {St L A} (cost : nat) (I : St → Prop) (P : event L → Prop)
    (m : M St L A) : Prop :=
  ∀ room (w : World St), healthy (cost + room) w → I (self w) →
    healthy room (after m w) ∧ I (self (after m w)) ∧ Forall P (events m w) ∧
    ∃ a, result m w = Ret a.

(** An event of a class script in which nothing went wrong: no line tells
    of a failure, and a statistics line counts none. *)
Definition fine (e : event LoadGenerator.line) : Prop :=
  match e with
  | Log (LoadGenerator.AttemptFailed _ _) | Log (LoadGenerator.Retrying _)
  | Log LoadGenerator.MaxRetriesReached | Log LoadGenerator.ConnectionLost
  | Log (LoadGenerator.WriteFailed _) | Log (LoadGenerator.ReadFailed _)
  | Log (LoadGenerator.UnexpectedError _) | Log LoadGenerator.ShuttingDown => False
  | Log (LoadGenerator.StatsLine s _ _) => LoadGenerator.failed_ops s = 0
  | _ => True
  end.

(** The same for the dragonfly script. *)
Definition dragonfly_fine (e : event Dragonfly.line) : Prop :=
  match e with
  | Log (Dragonfly.Waiting _ _) | Log (Dragonfly.FailedToConnect _)
  | Log (Dragonfly.UnexpectedError _) | Log Dragonfly.Stopping => False
  | Log (Dragonfly.StatsBlock s _ _ _) =>
      Dragonfly.failed_operations s = 0 ∧ Dragonfly.read_errors s = 0 ∧
      Dragonfly.write_errors s = 0
  | _ => True
  end.

(** A class script that is connected and has counted no failure. *)
Definition unfailed (topo : LoadGenerator.topology) (s : LoadGenerator.t) : Prop :=
  ready topo s ∧ LoadGenerator.failed_ops (LoadGenerator.stats s) = 0.

(** A dragonfly script that has counted no failure. *)
Definition dragonfly_unfailed (g : Dragonfly.globals) : Prop :=
  Dragonfly.failed_operations (Dragonfly.stats g) = 0 ∧
  Dragonfly.read_errors (Dragonfly.stats g) = 0 ∧
  Dragonfly.write_errors (Dragonfly.stats g) = 0.

(** * Properties *)

(** ** Equations of the combinators *)

Section RunLemmas.
Context {St L : Type}.
Implicit Types w : World St.

Lemma bind_unfold {A B} (m : M St L A) (f : A → M St L B) w :
  bind m f w =
  match result m w with
  | Ret a => (result (f a) (after m w), after (f a) (after m w),
              events m w ++ events (f a) (after m w))
  | Raise e => (Raise e, after m w, events m w)
  end.
Proof.
  unfold bind, result, after, events.
  destruct (m w) as [[[a|e] w1] ev1]; simpl; [|reflexivity].
  destruct (f a w1) as [[? ?] ?]; reflexivity.
Qed.

Lemma try_except_unfold {A} (body : M St L A) handler w :
  try_except body handler w =
  match result body w with
  | Ret a => (Ret a, after body w, events body w)
  | Raise e =>
      match handler e with
      | Some h => (result h (after body w), after h (after body w),
                   events body w ++ events h (after body w))
      | None => (Raise e, after body w, events body w)
      end
  end.
Proof.
  unfold try_except, result, after, events.
  destruct (body w) as [[[a|e] w1] ev1]; simpl; [reflexivity|].
  destruct (handler e) as [h|]; [|reflexivity].
  destruct (h w1) as [[? ?] ?]; reflexivity.
Qed.

Lemma run_eta {A} (m : M St L A) w : m w = (result m w, after m w, events m w).
Proof. unfold result, after, events. by destruct (m w) as [[? ?] ?]. Qed.

Lemma commands_app (ev1 ev2 : list (event L)) :
  commands (ev1 ++ ev2) = commands ev1 ++ commands ev2.
Proof.
  induction ev1 as [|[] ev1 IH]; simpl; [done|by rewrite IH|done|done|done].
Qed.

Lemma sleeps_app (ev1 ev2 : list (event L)) :
  sleeps (ev1 ++ ev2) = sleeps ev1 ++ sleeps ev2.
Proof.
  induction ev1 as [|[] ev1 IH]; simpl; [done|done|done|by rewrite IH|done].
Qed.

Lemma logged_app (ev1 ev2 : list (event L)) :
  logged (ev1 ++ ev2) = logged ev1 ++ logged ev2.
Proof.
  induction ev1 as [|[] ev1 IH]; simpl; [done|done|done|done|by rewrite IH].
Qed.

Lemma elem_of_commands (evs : list (event L)) c k :
  (c, k) ∈ commands evs ↔ Cmd c k ∈ evs.
Proof.
  induction evs as [|e evs IH]; simpl; [by rewrite !elem_of_nil|].
  destruct e; rewrite ?elem_of_cons, IH.
  - split; (intros [Heq|?]; [left; congruence|by right]).
  - split; [by right|intros [?|?]; [discriminate|done]].
  - split; [by right|intros [?|?]; [discriminate|done]].
  - split; [by right|intros [?|?]; [discriminate|done]].
Qed.

Lemma elem_of_logged (evs : list (event L)) l :
  l ∈ logged evs ↔ Log l ∈ evs.
Proof.
  induction evs as [|e evs IH]; simpl; [by rewrite !elem_of_nil|].
  destruct e; rewrite ?elem_of_cons, IH.
  - split; [by right|intros [?|?]; [discriminate|done]].
  - split; [by right|intros [?|?]; [discriminate|done]].
  - split; [by right|intros [?|?]; [discriminate|done]].
  - split; (intros [Heq|?]; [left; congruence|by right]).
Qed.

(** *** Closure of [keeps] under the combinators *)

Section Keeps.
Context (R : relation St) `{!PreOrder R} (P : event L → Prop).

Lemma keeps_ret {A} (a : A) : keeps R P (ret a).
Proof. intros w; split; [reflexivity|constructor]. Qed.

Lemma keeps_raise {A} e : keeps R P (raise (A := A) e).
Proof. intros w; split; [reflexivity|constructor]. Qed.

Lemma keeps_bind {A B} (m : M St L A) (f : A → M St L B) :
  keeps R P m → (∀ a, keeps R P (f a)) → keeps R P (bind m f).
Proof.
  intros Hm Hf w. destruct (Hm w) as [Hr Hp].
  unfold after at 1, events at 1. rewrite bind_unfold.
  destruct (result m w) as [a|e]; simpl; [|done].
  destruct (Hf a (after m w)) as [Hr' Hp']. split.
  - by etrans.
  - by apply Forall_app_2.
Qed.

Lemma keeps_try_except {A} (body : M St L A) handler :
  keeps R P body →
  (∀ e h, handler e = Some h → keeps R P h) →
  keeps R P (try_except body handler).
Proof.
  intros Hm Hh w. destruct (Hm w) as [Hr Hp].
  unfold after at 1, events at 1. rewrite try_except_unfold.
  destruct (result body w) as [a|e]; simpl; [done|].
  destruct (handler e) as [h|] eqn:Eh; simpl; [|done].
  destruct (Hh e h Eh (after body w)) as [Hr' Hp']. split.
  - by etrans.
  - by apply Forall_app_2.
Qed.

Lemma keeps_emit e : P e → keeps R P (emit e).
Proof. intros He w; split; [reflexivity|by repeat constructor]. Qed.

Lemma keeps_log l : P (Log l) → keeps R P (log l).
Proof. apply keeps_emit. Qed.

Lemma keeps_get_self : keeps R P get_self.
Proof. intros w; split; [reflexivity|constructor]. Qed.

Lemma keeps_modify_self f : (∀ s, R s (f s)) → keeps R P (modify_self f).
Proof. intros Hf w; split; [apply Hf|constructor]. Qed.

Lemma keeps_random : keeps R P random.
Proof. intros w; split; [reflexivity|constructor]. Qed.

Lemma keeps_time_time : keeps R P time_time.
Proof. intros w; split; [reflexivity|constructor]. Qed.

Lemma keeps_sleep d : P (Sleep d) → keeps R P (sleep d).
Proof.
  intros Hd w. unfold after, events, sleep.
  destruct (Qle_bool 0 d); [|split; [reflexivity|constructor]].
  destruct (hd false (naps w)); (split; [reflexivity|by repeat constructor]).
Qed.

Lemma keeps_float_div n : keeps R P (float_div n).
Proof.
  intros w. unfold after, events, float_div.
  destruct (float_limit <=? Z.abs n); [by split|].
  destruct (n =? 0); by split.
Qed.

Lemma keeps_round_trip e : P e → keeps R P (round_trip e).
Proof.
  intros He w. unfold after, events, round_trip.
  destruct (hd NetOk (net w)); (split; [reflexivity|by repeat constructor]).
Qed.

Lemma keeps_commit c k : keeps R P (commit c k).
Proof.
  intros w. unfold after, events, commit.
  destruct (writes_to_primary c); [|split; [reflexivity|constructor]].
  destruct (Redis.apply k (store w)); (split; [reflexivity|constructor]).
Qed.

Lemma keeps_call h k : (∀ c, h = Some c → P (Cmd c k)) → keeps R P (call h k).
Proof.
  intros Hk. destruct h as [c|]; simpl; [|apply keeps_raise].
  apply keeps_bind; [apply keeps_round_trip; auto|intros _; apply keeps_commit].
Qed.

Lemma keeps_randint a b : keeps R P (randint a b).
Proof. apply keeps_bind; [apply keeps_random|intros; apply keeps_ret]. Qed.

Lemma keeps_choice {A} (seq : list A) d : keeps R P (choice seq d).
Proof. apply keeps_bind; [apply keeps_random|intros; apply keeps_ret]. Qed.

Lemma keeps_choices {A} (population : list A) d k : keeps R P (choices population d k).
Proof.
  induction k as [|k IH]; simpl; [apply keeps_ret|].
  apply keeps_bind; [apply keeps_choice|intros x].
  apply keeps_bind; [apply IH|intros; apply keeps_ret].
Qed.

Lemma keeps_generate_random_string n : keeps R P (generate_random_string n).
Proof. apply keeps_bind; [apply keeps_choices|intros; apply keeps_ret]. Qed.

Lemma keeps_generate_random_key : keeps R P generate_random_key.
Proof. apply keeps_bind; [apply keeps_randint|intros; apply keeps_ret]. Qed.

End Keeps.

Lemma keeps_weaken {A} (R R' : relation St) (P P' : event L → Prop) (m : M St L A) :
  (∀ s s', R s s' → R' s s') → (∀ e, P e → P' e) →
  keeps R P m → keeps R' P' m.
Proof.
  intros HR HP Hm w. destruct (Hm w) as [? ?]. split; [auto|].
  eapply Forall_impl; eauto.
Qed.

End RunLemmas.

(** ** Running the primitives *)

Section Running.
Context {St L : Type}.
Implicit Types w : World St.

Lemma prepend_nil {A} (x : res A * World St * list (event L)) : prepend [] x = x.
Proof. by destruct x as [[? ?] ?]. Qed.

Lemma prepend_prepend {A} ev1 ev2 (x : res A * World St * list (event L)) :
  prepend ev1 (prepend ev2 x) = prepend (ev1 ++ ev2) x.
Proof. destruct x as [[? ?] ?]. unfold prepend; simpl. by rewrite app_assoc. Qed.

Lemma bind_run {A B} (m : M St L A) (f : A → M St L B) w a w1 ev1 :
  m w = (Ret a, w1, ev1) → bind m f w = prepend ev1 (f a w1).
Proof. intros Hm. unfold bind, prepend. rewrite Hm. by destruct (f a w1) as [[? ?] ?]. Qed.

Lemma bind_raise {A B} (m : M St L A) (f : A → M St L B) w e w1 ev1 :
  m w = (Raise e, w1, ev1) → bind m f w = (Raise e, w1, ev1).
Proof. intros Hm. unfold bind. by rewrite Hm. Qed.

Lemma bind_assoc {A B C} (m : M St L A) (f : A → M St L B) (g : B → M St L C) w :
  bind (bind m f) g w = bind m (λ a, bind (f a) g) w.
Proof.
  unfold bind. destruct (m w) as [[[a|e] w1] ev1]; [|reflexivity].
  destruct (f a w1) as [[[b|e] w2] ev2]; [|reflexivity].
  destruct (g b w2) as [[r w3] ev3]. by rewrite app_assoc.
Qed.

Lemma bind_ret {A B} (a : A) (f : A → M St L B) w : bind (ret a) f w = f a w.
Proof. rewrite (bind_run _ _ _ a w []); [apply prepend_nil|reflexivity]. Qed.

Lemma bind_ret_r {A} (m : M St L A) w : bind m ret w = m w.
Proof.
  unfold bind, ret. destruct (m w) as [[[a|e] w1] ev1]; [|reflexivity].
  by rewrite app_nil_r.
Qed.

Lemma bind_raise_now {A B} e (f : A → M St L B) w :
  bind (raise e) f w = (Raise e, w, []).
Proof. reflexivity. Qed.

Lemma bind_get_self {B} (f : St → M St L B) w : bind get_self f w = f (self w) w.
Proof. rewrite (bind_run _ _ _ (self w) w []); [apply prepend_nil|reflexivity]. Qed.

Lemma bind_modify_self {B} g (f : unit → M St L B) w :
  bind (modify_self g) f w
  = f tt (mkWorld (rng w) (net w) (naps w) (clock w) (store w) (g (self w))).
Proof. erewrite bind_run; [apply prepend_nil|reflexivity]. Qed.

Lemma bind_emit {B} e (f : unit → M St L B) w :
  bind (emit e) f w = prepend [e] (f tt w).
Proof. erewrite bind_run; reflexivity. Qed.

Lemma bind_log {B} l (f : unit → M St L B) w :
  bind (log l) f w = prepend [Log l] (f tt w).
Proof. apply bind_emit. Qed.

Lemma bind_random {B} (f : Z → M St L B) w :
  bind random f w
  = f (hd 0 (rng w)) (mkWorld (tl (rng w)) (net w) (naps w) (clock w) (store w) (self w)).
Proof. erewrite bind_run; [apply prepend_nil|reflexivity]. Qed.

Lemma bind_randint {B} a b (f : Z → M St L B) w :
  bind (randint a b) f w
  = f (randint_of a b (hd 0 (rng w)))
      (mkWorld (tl (rng w)) (net w) (naps w) (clock w) (store w) (self w)).
Proof. erewrite bind_run; [apply prepend_nil|reflexivity]. Qed.

Lemma bind_choice {A B} (seq : list A) d (f : A → M St L B) w :
  bind (choice seq d) f w
  = f (choice_of seq d (hd 0 (rng w)))
      (mkWorld (tl (rng w)) (net w) (naps w) (clock w) (store w) (self w)).
Proof. erewrite bind_run; [apply prepend_nil|reflexivity]. Qed.

Lemma bind_time_time {B} (f : Q → M St L B) w :
  bind time_time f w
  = f (hd 0%Q (clock w))
      (mkWorld (rng w) (net w) (naps w) (tl (clock w)) (store w) (self w)).
Proof. erewrite bind_run; [apply prepend_nil|reflexivity]. Qed.

Lemma choices_run w n :
  choices (L := L) ascii_letters_digits "0"%char n w
  = (Ret (drawn_chars n (rng w)),
     mkWorld (drop n (rng w)) (net w) (naps w) (clock w) (store w) (self w), []).
Proof.
  revert w; induction n as [|n IH]; intros w.
  - by destruct w.
  - cbn [choices drawn_chars]. rewrite bind_choice.
    erewrite bind_run; [|apply IH]. rewrite prepend_nil. cbn [rng net naps clock store self].
    unfold ret. do 3 f_equal.
    destruct (rng w); simpl; [by rewrite drop_nil|reflexivity].
Qed.

Lemma bind_generate_random_string {B} n (f : string → M St L B) w :
  bind (generate_random_string n) f w
  = f (String.string_of_list_ascii (drawn_chars n (rng w)))
      (mkWorld (drop n (rng w)) (net w) (naps w) (clock w) (store w) (self w)).
Proof.
  unfold generate_random_string. rewrite bind_assoc.
  erewrite bind_run; [|apply choices_run]. rewrite prepend_nil. apply bind_ret.
Qed.

Lemma bind_generate_random_key {B} (f : string → M St L B) w :
  bind generate_random_key f w
  = f (fmt_key "key" (randint_of 1 1000 (hd 0 (rng w))))
      (mkWorld (tl (rng w)) (net w) (naps w) (clock w) (store w) (self w)).
Proof.
  unfold generate_random_key. rewrite bind_assoc, bind_randint. apply bind_ret.
Qed.

(** A sleep of non-negative length. *)
Lemma bind_sleep {B} d (f : unit → M St L B) w :
  Qle_bool 0 d = true →
  bind (sleep d) f w
  = let w' := mkWorld (rng w) (net w) (tl (naps w)) (clock w) (store w) (self w) in
    if hd false (naps w) then (Raise KeyboardInterrupt, w', [Sleep d])
    else prepend [Sleep d] (f tt w').
Proof.
  intros Hd. unfold bind at 1, sleep. rewrite Hd.
  destruct (hd false (naps w)); [reflexivity|].
  cbn zeta. unfold prepend.
  by destruct (f tt _) as [[? ?] ?].
Qed.

Lemma sleep_run d w :
  Qle_bool 0 d = true →
  sleep (L := L) d w
  = let w' := mkWorld (rng w) (net w) (tl (naps w)) (clock w) (store w) (self w) in
    if hd false (naps w) then (Raise KeyboardInterrupt, w', [Sleep d])
    else (Ret tt, w', [Sleep d]).
Proof. intros Hd. unfold sleep. rewrite Hd. by destruct (hd false (naps w)). Qed.

Lemma bind_call {B} c k (f : unit → M St L B) w :
  bind (call (Some c) k) f w = answered c k f w.
Proof.
  unfold call, answered. rewrite bind_assoc.
  unfold bind at 1, round_trip.
  destruct (hd NetOk (net w)); try reflexivity.
  unfold bind, commit, prepend. cbn [store].
  destruct (writes_to_primary c).
  - destruct (Redis.apply k (store w)); [|reflexivity].
    by destruct (f tt _) as [[? ?] ?].
  - by destruct (f tt _) as [[? ?] ?].
Qed.

Lemma call_run c k w : call (L := L) (Some c) k w = answered c k ret w.
Proof. rewrite <- bind_call. symmetry. apply bind_ret_r. Qed.

Lemma try_except_ret {A} (body : M St L A) handler (w : World St) a w1 ev1 :
  body w = (Ret a, w1, ev1) → try_except body handler w = (Ret a, w1, ev1).
Proof. intros E. unfold try_except. by rewrite E. Qed.

Lemma try_except_caught {A} (body : M St L A) handler (w : World St) e h w1 ev1 :
  body w = (Raise e, w1, ev1) → handler e = Some h →
  try_except body handler w = prepend ev1 (h w1).
Proof.
  intros E Hh. unfold try_except, prepend. rewrite E, Hh.
  by destruct (h w1) as [[? ?] ?].
Qed.

Lemma try_except_missed {A} (body : M St L A) handler (w : World St) e w1 ev1 :
  body w = (Raise e, w1, ev1) → handler e = None →
  try_except body handler w = (Raise e, w1, ev1).
Proof. intros E Hh. unfold try_except. by rewrite E, Hh. Qed.
Lemma result_prepend {A} ev (x : res A * World St * list (event L)) :
  (prepend ev x).1.1 = x.1.1.
Proof. reflexivity. Qed.

End Running.

(** ** Values drawn *)

Lemma randint_of_range a b r : a ≤ b → a ≤ randint_of a b r ≤ b.
Proof.
  intros Hab. unfold randint_of.
  pose proof (Z.mod_pos_bound r (b - a + 1)). lia.
Qed.

Section Drawn.
Context {St L : Type} (R : relation St) `{!PreOrder R} (P : event L → Prop).

Lemma keeps_bind_randint {B} a b (f : Z → M St L B) :
  a ≤ b → (∀ n, a ≤ n ≤ b → keeps R P (f n)) → keeps R P (bind (randint a b) f).
Proof.
  intros Hab Hf w. unfold after, events. rewrite bind_unfold.
  change (result (randint a b) w) with (Ret (A := Z) (randint_of a b (hd 0 (rng w)))).
  destruct (Hf _ (randint_of_range a b (hd 0 (rng w)) Hab) (after (randint (L := L) a b) w))
    as [Hr Hp].
  split; simpl; [exact Hr|exact Hp].
Qed.

Lemma keeps_bind_generate_random_key {B} (f : string → M St L B) :
  (∀ key, in_pool "key" 1 1000 key → keeps R P (f key)) →
  keeps R P (bind generate_random_key f).
Proof.
  intros Hf w. unfold after, events. rewrite bind_unfold.
  change (result generate_random_key w)
    with (Ret (A := string) (fmt_key "key" (randint_of 1 1000 (hd 0 (rng w))))).
  assert (in_pool "key" 1 1000 (fmt_key "key" (randint_of 1 1000 (hd 0 (rng w))))) as Hk.
  { eexists; split; [reflexivity|apply randint_of_range; lia]. }
  destruct (Hf _ Hk (after (generate_random_key (L := L)) w)) as [Hr Hp].
  split; simpl; [exact Hr|exact Hp].
Qed.

End Drawn.

#[local] Instance any_preorder {St} : PreOrder (@any St).
Proof. split; [intros ?|intros ? ? ?]; done. Qed.

Ltac keeps_handler :=
  let e := fresh "e" in let h := fresh "h" in let Hh := fresh "Hh" in
  intros e h Hh; destruct e; simpl in Hh; simplify_eq.

Ltac rule lem :=
  apply lem; try lazymatch goal with |- PreOrder _ => exact _ end.

Ltac keeps_step :=
  lazymatch goal with
  | |- keeps _ _ (ret _) => rule keeps_ret
  | |- keeps _ _ (raise _) => rule keeps_raise
  | |- keeps _ _ get_self => rule keeps_get_self
  | |- keeps _ _ random => rule keeps_random
  | |- keeps _ _ time_time => rule keeps_time_time
  | |- keeps _ _ (randint _ _) => rule keeps_randint
  | |- keeps _ _ (choice _ _) => rule keeps_choice
  | |- keeps _ _ (choices _ _ _) => rule keeps_choices
  | |- keeps _ _ (generate_random_string _) => rule keeps_generate_random_string
  | |- keeps _ _ generate_random_key => rule keeps_generate_random_key
  | |- keeps _ _ (commit _ _) => rule keeps_commit
  | |- keeps _ _ (bind (randint _ _) _) => rule keeps_bind_randint; [lia|intros ? ?]
  | |- keeps _ _ (bind generate_random_key _) =>
      rule keeps_bind_generate_random_key; intros ? ?
  | |- keeps _ _ (bind _ _) => rule keeps_bind; [|intros ?]
  | |- keeps _ _ (try_except _ _) => rule keeps_try_except; [|keeps_handler]
  | |- keeps _ _ (log _) => rule keeps_log
  | |- keeps _ _ (emit _) => rule keeps_emit
  | |- keeps _ _ (sleep _) => rule keeps_sleep
  | |- keeps _ _ (float_div _) => rule keeps_float_div
  | |- keeps _ _ (LoadGenerator.assign_sleep_time _) =>
      unfold LoadGenerator.assign_sleep_time
  | |- keeps _ _ (round_trip _) => rule keeps_round_trip
  | |- keeps _ _ (call _ _) => rule keeps_call
  | |- keeps _ _ (modify_self _) => rule keeps_modify_self
  | |- keeps _ _ (if ?b then _ else _) => destruct b
  | |- keeps _ _ (match ?x with _ => _ end) => destruct x
  end.

Ltac head_of t := lazymatch t with ?f _ => head_of f | _ => t end.

(** Close a goal with a lemma proved for the same function. *)
Tactic Notation "known" open_constr(lem) :=
  lazymatch goal with
  | |- keeps _ _ ?m =>
      let hm := head_of m in
      lazymatch type of lem with
      | keeps _ _ ?m' => let hm' := head_of m' in constr_eq hm hm'; exact lem
      end
  end.

Lemma attr_keeps (R : relation LoadGenerator.t) `{!PreOrder R} P h :
  keeps R P (LoadGenerator.attr h).
Proof. unfold LoadGenerator.attr. repeat keeps_step. Qed.

(** ** Every command of a run is well formed *)

Lemma well_formed_plain k :
  key_in_pool k → string_key k = None → well_formed k.
Proof. intros Hk Hs; split; [done|]. intros key st; rewrite Hs; done. Qed.

Lemma well_formed_SET key v : in_pool "key" 1 1000 key → well_formed (SET key v (Some 300)).
Proof.
  intros Hk; split; [done|]. intros key' st [= <-]; simpl.
  eexists; split; [reflexivity|]. unfold stored_expiry. by rewrite lookup_insert_eq.
Qed.

Lemma well_formed_SETEX key v : in_pool "key" 1 1000 key → well_formed (SETEX key 300 v).
Proof.
  intros Hk; split; [done|]. intros key' st [= <-]; simpl.
  eexists; split; [reflexivity|]. unfold stored_expiry. by rewrite lookup_insert_eq.
Qed.

Ltac wire :=
  unfold any; simpl; intros;
  first
    [ exact I
    | done
    | apply well_formed_SET; assumption
    | apply well_formed_SETEX; assumption
    | apply well_formed_plain;
      [simpl; first [done | eexists; split; [reflexivity|lia]]|reflexivity] ].

Section ClassWire.
Variables (OPERATIONS_PER_SECOND READ_WRITE_RATIO : Z) (topo : LoadGenerator.topology).
#[local] Abbreviation W := (keeps (St := LoadGenerator.t) (L := LoadGenerator.line) any (on_wire well_formed)).


Lemma connect_attempt_wire attempt : W (LoadGenerator.connect_attempt topo attempt).
Proof.
  unfold LoadGenerator.connect_attempt. destruct topo.
  all: repeat first [known (attr_keeps _ _ _) | keeps_step]; wire.
Qed.

Lemma connect_from_wire todo attempt : W (LoadGenerator.connect_from topo todo attempt).
Proof.
  revert attempt; induction todo as [|todo IH]; intros attempt; simpl.
  - keeps_step.
  - repeat first [known (connect_attempt_wire _) | known (IH _) | keeps_step]; wire.
Qed.

Lemma reconnect_wire : W (LoadGenerator.reconnect topo).
Proof.
  unfold LoadGenerator.reconnect, LoadGenerator.connect.
  repeat first [known (connect_from_wire _ _) | keeps_step]; wire.
Qed.

Lemma write_body_wire : W (LoadGenerator.write_body topo).
Proof.
  unfold LoadGenerator.write_body.
  repeat first [known (attr_keeps _ _ _) | keeps_step]; wire.
Qed.

Lemma read_body_wire : W (LoadGenerator.read_body topo).
Proof.
  unfold LoadGenerator.read_body.
  repeat first [known (attr_keeps _ _ _) | keeps_step]; wire.
Qed.

Lemma tick_wire :
  W (LoadGenerator.tick OPERATIONS_PER_SECOND READ_WRITE_RATIO topo).
Proof.
  unfold LoadGenerator.tick, LoadGenerator.tick_body, LoadGenerator.perform_read,
    LoadGenerator.perform_write, LoadGenerator.report_stats.
  repeat first [known read_body_wire | known write_body_wire | known reconnect_wire
               | keeps_step]; wire.
Qed.

Lemma loop_wire fuel :
  W (LoadGenerator.loop OPERATIONS_PER_SECOND READ_WRITE_RATIO topo fuel).
Proof.
  induction fuel as [|fuel IH]; simpl.
  - keeps_step.
  - repeat first [known tick_wire | known IH | keeps_step].
Qed.

Lemma main_wire fuel :
  W (LoadGenerator.main OPERATIONS_PER_SECOND READ_WRITE_RATIO topo fuel).
Proof.
  unfold LoadGenerator.main, LoadGenerator.init, LoadGenerator.run,
    LoadGenerator.connect.
  repeat first [known (connect_from_wire _ _) | known (loop_wire _) | keeps_step]; wire.
Qed.

End ClassWire.

Section DragonflyWire.
Variables (OPERATIONS_PER_SECOND READ_WRITE_RATIO : Z).
#[local] Abbreviation D := (keeps (St := Dragonfly.globals) (L := Dragonfly.line) any
                              (on_wire well_formed)).

Lemma wait_from_wire todo i : D (Dragonfly.wait_from todo i).
Proof.
  revert i; induction todo as [|todo IH]; intros i; simpl.
  - keeps_step.
  - unfold Dragonfly.ping_all.
    repeat first [known (IH _) | keeps_step]; wire.
Qed.

Lemma print_stats_wire : D Dragonfly.print_stats.
Proof. unfold Dragonfly.print_stats. repeat keeps_step; wire. Qed.

Lemma dragonfly_tick_wire st :
  D (Dragonfly.tick READ_WRITE_RATIO st).
Proof.
  unfold Dragonfly.tick, Dragonfly.tick_body, Dragonfly.read_op, Dragonfly.write_op,
    Dragonfly.read_try, Dragonfly.write_try,
    Dragonfly.report_check, Dragonfly.get_random_int.
  repeat first [known print_stats_wire | keeps_step]; wire.
Qed.

Lemma dragonfly_loop_wire st fuel :
  D (Dragonfly.loop READ_WRITE_RATIO st fuel).
Proof.
  induction fuel as [|fuel IH]; simpl.
  - keeps_step.
  - repeat first [known (dragonfly_tick_wire _) | known IH | keeps_step].
Qed.

Lemma dragonfly_main_wire fuel :
  D (Dragonfly.main OPERATIONS_PER_SECOND READ_WRITE_RATIO fuel).
Proof.
  unfold Dragonfly.main, Dragonfly.wait_for_connections, Dragonfly.sleep_time.
  repeat first [known (wait_from_wire _ _) | known (dragonfly_loop_wire _ _)
               | keeps_step]; wire.
Qed.

End DragonflyWire.

Lemma wire_of_well_formed v ops ratio fuel o c k :
  (c, k) ∈ wire_of v ops ratio fuel o → well_formed k.
Proof.
  intros Hin.
  assert (∀ {St L} (m : M St L flow) w,
            keeps any (on_wire well_formed) m →
            (c, k) ∈ commands (events m w) → well_formed k) as Huse.
  { intros St L m w Hm Hk. destruct (Hm w) as [_ Hall].
    apply elem_of_commands in Hk.
    rewrite Forall_forall in Hall. exact (Hall _ Hk). }
  destruct v; simpl in Hin.
  - eapply Huse; [apply main_wire|exact Hin].
  - eapply Huse; [apply main_wire|exact Hin].
  - eapply Huse; [apply dragonfly_main_wire|exact Hin].
Qed.

(** ** C8: generated keys stay in their pools *)

(** C8. In every variant, every command the script ever sends carries a key
    of its namespace's pool: [key:1..1000] for set/get/exists,
    [counter:1..100] for incr, and [list:], [set:], [hash:] [1..50] for the
    collection reads and writes. *)
Theorem C8_keys_in_pool v ops ratio fuel o c k :
  (c, k) ∈ wire_of v ops ratio fuel o → key_in_pool k.
Proof. intros Hin. exact (proj1 (wire_of_well_formed _ _ _ _ _ _ _ Hin)). Qed.

Lemma C8_keys_in_pool_witness :
  key_in_pool (SET "key:42" "hhhhhhhhhhhhhhhhhhhh" (Some 300)).
Proof.
  apply (C8_keys_in_pool cluster 100 70 1 set_first_class ClusterClient).
  apply (list_elem_of_lookup_2 _ 2). vm_compute. reflexivity.
Defined.

(** ** C10: the report check before the interval has passed *)

Lemma Qle_bool_false x y : (y < x)%Q → Qle_bool x y = false.
Proof.
  intros Hlt. destruct (Qle_bool x y) eqn:E; [|reflexivity].
  apply Qle_bool_iff in E. exfalso. exact (Qlt_not_le _ _ Hlt E).
Qed.

(** C10. In every variant, when the clock reads less than 10 seconds past the
    start of the window, the report check changes none of the script's
    variables (no counter, not the window start) and produces no event: no
    report is emitted and nothing is reset. *)
Theorem C10_report_check_before_interval :
  (∀ w : World LoadGenerator.t,
     (hd 0 (clock w) - LoadGenerator.last_report (LoadGenerator.stats (self w)) < 10)%Q →
     self (after LoadGenerator.report_stats w) = self w ∧
     events LoadGenerator.report_stats w = []) ∧
  (∀ w : World Dragonfly.globals,
     (hd 0 (clock w) - Dragonfly.last_report_time (self w) < 10)%Q →
     self (after Dragonfly.report_check w) = self w ∧
     events Dragonfly.report_check w = []).
Proof.
  split; intros w Hlt.
  - unfold after, events, LoadGenerator.report_stats, bind, time_time, get_self.
    cbn [fst snd self clock].
    rewrite (Qle_bool_false _ _ Hlt). split; reflexivity.
  - unfold after, events, Dragonfly.report_check, bind, time_time, get_self.
    cbn [fst snd self clock].
    change (inject_Z Dragonfly.report_interval) with 10%Q.
    rewrite (Qle_bool_false _ _ Hlt). split; reflexivity.
Qed.

Lemma C10_report_check_before_interval_witness :
  (self (after LoadGenerator.report_stats young_window_class)
   = self young_window_class ∧
   events LoadGenerator.report_stats young_window_class = []) ∧
  (self (after Dragonfly.report_check young_window_dragonfly)
   = self young_window_dragonfly ∧
   events Dragonfly.report_check young_window_dragonfly = []).
Proof.
  split.
  - apply (proj1 C10_report_check_before_interval young_window_class).
    reflexivity.
  - apply (proj2 C10_report_check_before_interval young_window_dragonfly).
    reflexivity.
Defined.

(** ** C5: the sleep interval *)

(** The class scripts guard the division: the interval is
    [1 / OPERATIONS_PER_SECOND] for a positive rate and 0.01 otherwise. *)
Lemma class_sleep_time ops :
  (0 < ops → LoadGenerator.sleep_time ops = (1 / inject_Z ops)%Q) ∧
  (ops ≤ 0 → LoadGenerator.sleep_time ops = (1 # 100)%Q).
Proof.
  unfold LoadGenerator.sleep_time. split; intros Hops.
  - by rewrite (proj2 (Z.ltb_lt 0 ops) Hops).
  - by rewrite (proj2 (Z.ltb_ge 0 ops) Hops).
Qed.

(** [1.0 / n] has a value for every non-zero int within the float range,
    and raises for the others. *)
Lemma float_div_run {St L} n (w : World St) :
  n ≠ 0 → Z.abs n < float_limit →
  float_div (L := L) n w = (Ret (1 / inject_Z n)%Q, w, []).
Proof.
  intros Hn Hlim. unfold float_div.
  rewrite (proj2 (Z.leb_gt float_limit (Z.abs n)) Hlim).
  by rewrite (proj2 (Z.eqb_neq n 0) Hn).
Qed.

Lemma float_div_overflow {St L} n (w : World St) :
  float_limit ≤ Z.abs n → float_div (L := L) n w = (Raise OverflowError, w, []).
Proof.
  intros Hlim. unfold float_div.
  by rewrite (proj2 (Z.leb_le float_limit (Z.abs n)) Hlim).
Qed.

(** The assignment in [run] gives [sleep_time] for every rate below
    [float_limit] and raises for the others. *)
Lemma assign_sleep_time_run ops (w : World LoadGenerator.t) :
  ops < float_limit →
  LoadGenerator.assign_sleep_time ops w = (Ret (LoadGenerator.sleep_time ops), w, []).
Proof.
  intros Hlim. unfold LoadGenerator.assign_sleep_time, LoadGenerator.sleep_time.
  destruct (0 <? ops) eqn:Hpos; [|reflexivity].
  apply Z.ltb_lt in Hpos. apply float_div_run; lia.
Qed.

Lemma assign_sleep_time_overflow ops (w : World LoadGenerator.t) :
  float_limit ≤ ops →
  LoadGenerator.assign_sleep_time ops w = (Raise OverflowError, w, []).
Proof.
  intros Hlim. unfold LoadGenerator.assign_sleep_time.
  assert (0 < float_limit) as Hpos by reflexivity.
  rewrite (proj2 (Z.ltb_lt 0 ops)) by lia.
  apply float_div_overflow. lia.
Qed.

(** So [run] either goes on to its loop after the "Starting" line, or
    ends there with [OverflowError], which takes a rate of [float_limit]
    or more. *)
Lemma run_cases ops ratio topo fuel (w : World LoadGenerator.t) :
  (ops < float_limit ∧
   LoadGenerator.run ops ratio topo fuel w
   = prepend [Log LoadGenerator.Starting] (LoadGenerator.loop ops ratio topo fuel w)) ∨
  (float_limit ≤ ops ∧
   LoadGenerator.run ops ratio topo fuel w
   = (Raise OverflowError, w, [Log LoadGenerator.Starting])).
Proof.
  unfold LoadGenerator.run. rewrite bind_log.
  destruct (Z_lt_le_dec ops float_limit) as [Hlim|Hlim]; [left|right].
  - split; [done|].
    rewrite (bind_run _ _ _ _ _ _ (assign_sleep_time_run ops w Hlim)).
    by rewrite prepend_nil.
  - split; [done|].
    by rewrite (bind_raise _ _ _ _ _ _ (assign_sleep_time_overflow ops w Hlim)).
Qed.

(** The dragonfly script divides for a non-zero rate only because Python
    does: the interval is [1 / OPERATIONS_PER_SECOND] whatever its sign. *)
Lemma dragonfly_sleep_time ops (w : World Dragonfly.globals) :
  ops ≠ 0 → Z.abs ops < float_limit →
  result (Dragonfly.sleep_time ops) w = Ret (1 / inject_Z ops)%Q.
Proof.
  intros Hops Hlim. unfold Dragonfly.sleep_time, result.
  by rewrite float_div_run.
Qed.

(** C5 (fails in the dragonfly script). With a rate of 0 the class scripts
    fall back to 0.01 s, but the dragonfly script, which has no guard,
    raises [ZeroDivisionError] when it computes the interval: started in a
    calm world it sends its three start-up pings and ends with a non-zero
    status before the first tick.  With a negative rate its interval is
    negative, and [time.sleep] rejects it with [ValueError]. *)
Theorem C5_dragonfly_unguarded_interval :
  LoadGenerator.sleep_time 0 = (1 # 100)%Q ∧
  (∀ w : World Dragonfly.globals,
     result (Dragonfly.sleep_time 0) w = Raise ZeroDivisionError) ∧
  (∀ ratio fuel,
     exit_status (result (Dragonfly.main 0 ratio fuel) (boot Dragonfly.blank calm))
     = Exited 1 ∧
     wire_of dragonfly 0 ratio fuel calm
     = [(Primary, PING); (Replica1, PING); (Replica2, PING)]) ∧
  (∀ w : World Dragonfly.globals,
     result (Dragonfly.sleep_time (-5)) w = Ret (-1 # 5)%Q ∧
     result (sleep (L := Dragonfly.line) (-1 # 5)) w = Raise ValueError).
Proof.
  split; [reflexivity|]. split; [reflexivity|]. split.
  - intros ratio fuel. split; reflexivity.
  - intros w. split; reflexivity.
Qed.

(** ** Stepping through a script *)

Lemma bind_attr {B} h (f : client → LoadGenerator.Run B) w :
  bind (LoadGenerator.attr h) f w
  = match h (self w) with
    | Some c => f c w
    | None => (Raise AttributeError, w, [])
    end.
Proof.
  unfold LoadGenerator.attr. rewrite bind_assoc, bind_get_self.
  destruct (h (self w)); [apply bind_ret|reflexivity].
Qed.

Ltac run_step :=
  first
    [ rewrite bind_assoc | rewrite bind_ret | rewrite bind_get_self
    | rewrite bind_modify_self | rewrite bind_log | rewrite bind_emit
    | rewrite bind_randint | rewrite bind_choice | rewrite bind_random
    | rewrite bind_time_time | rewrite bind_generate_random_string
    | rewrite bind_generate_random_key | rewrite bind_call | rewrite bind_attr
    | rewrite bind_raise_now | rewrite prepend_prepend ];
  cbn [rng net naps clock store self].

Lemma ret_run {St L A} (a : A) (w : World St) : ret (L := L) a w = (Ret a, w, []).
Proof. reflexivity. Qed.

Lemma prepend_triple {St L A} ev (r : res A) (w : World St) (ev' : list (event L)) :
  prepend ev (r, w, ev') = (r, w, ev ++ ev').
Proof. reflexivity. Qed.

Lemma triple_inv {A B C} (a a' : A) (b b' : B) (c c' : C) :
  (a, b, c) = (a', b', c') → a' = a ∧ b' = b ∧ c' = c.
Proof. by intros [= -> -> ->]. Qed.

(** Name the outcome of [m] in [w] and keep its equation in the goal. *)
Ltac observe m w :=
  let E := fresh "E" in
  pose proof (run_eta m w) as E; revert E;
  generalize (result m w) (after m w) (events m w).

(** Case on what the world answers to the commands in the goal. *)
Ltac answer :=
  unfold answered; cbn [rng net naps clock store self writes_to_primary];
  repeat match goal with
         | |- context [match hd NetOk ?n with _ => _ end] => destruct (hd NetOk n)
         | |- context [if writes_to_primary ?c then _ else _] =>
             destruct (writes_to_primary c)
         | |- context [match Redis.apply ?k ?s with _ => _ end] =>
             let E := fresh "Happly" in destruct (Redis.apply k s) eqn:E
         end.

Ltac settle := rewrite ?ret_run, ?prepend_triple; cbn [app].

Ltac conclude :=
  let E := fresh "E" in
  intros E; apply triple_inv in E as (-> & -> & ->).

(** A command that is in a list of commands written out. *)
Ltac sift Hin :=
  repeat (apply elem_of_cons in Hin as [Hin|Hin]);
  try (apply elem_of_nil in Hin; destruct Hin); try discriminate Hin.

(** Decide the comparisons of string literals in the goal. *)
Ltac decide_literals :=
  repeat match goal with
         | |- context [String.eqb ?a ?b] =>
             let v := eval vm_compute in (String.eqb a b) in
             change (String.eqb a b) with v
         end;
  cbv iota.

Lemma choice_of_5 {A} (a b c d e dflt : A) r :
  let x := choice_of [a; b; c; d; e] dflt r in
  x = a ∨ x = b ∨ x = c ∨ x = d ∨ x = e.
Proof.
  unfold choice_of. cbn [length].
  pose proof (Z.mod_pos_bound r (Z.of_nat 5) ltac:(lia)) as Hb.
  destruct (Z.to_nat (r mod Z.of_nat 5)) as [|[|[|[|[|n]]]]] eqn:E; simpl; auto.
  lia.
Qed.

(** ** C3: list-push-trim *)

Lemma lpush_ltrim_bounded key v (st st1 st2 : Store) :
  Redis.apply (LPUSH key v) st = Some st1 →
  Redis.apply (LTRIM key 0 99) st1 = Some st2 →
  llen st2 key ≤ 100.
Proof.
  unfold Redis.apply, llen. intros Hpush Htrim.
  assert (∃ l, st1 !! key = Some (RList (v :: l))) as [l Hl].
  { destruct (st !! key) as [[]|]; simplify_eq; eexists; apply lookup_insert_eq. }
  rewrite Hl in Htrim.
  change (ltrim_list (v :: l) 0 99) with (v :: take 99 l) in Htrim.
  cbv iota in Htrim. injection Htrim as <-. rewrite lookup_insert_eq. cbn [length].
  rewrite length_take. lia.
Qed.

(** In the cluster script a write that went through and pushed onto a list
    leaves that list with at most 100 elements. *)
Lemma cluster_lpush_trimmed (w : World LoadGenerator.t) c key v :
  LoadGenerator.cluster (self w) = Some ClusterClient →
  result (LoadGenerator.write_body LoadGenerator.Cluster) w = Ret true →
  (c, LPUSH key v) ∈ commands (events (LoadGenerator.write_body LoadGenerator.Cluster) w) →
  llen (store (after (LoadGenerator.write_body LoadGenerator.Cluster) w)) key ≤ 100.
Proof.
  observe (LoadGenerator.write_body LoadGenerator.Cluster) w.
  intros r w' evs.
  destruct w as [rng net naps clock st me]. intros E Hc; revert E. cbn [self] in Hc.
  unfold LoadGenerator.write_body.
  repeat run_step.
  destruct (choice_of_5 "set" "incr" "lpush" "sadd" "hset" "" (hd 0 (drop 20 (tl rng))))
    as [H|[H|[H|[H|H]]]]; rewrite H; decide_literals; clear H.
  all: unfold LoadGenerator.write_handle.
  all: repeat first [run_step | progress (rewrite Hc; cbv iota) | progress answer].
  all: settle; conclude.
  all: try (intros [=]; fail).
  all: intros _; cbn [commands store].
  all: intros Hin; sift Hin.
  apply pair_equal_spec in Hin as [_ Hin]. injection Hin as -> ->.
  eapply lpush_ltrim_bounded; eassumption.
Qed.

(** The same in the dragonfly script. *)
Lemma dragonfly_lpush_trimmed (w : World Dragonfly.globals) op_type c key v :
  result (Dragonfly.write_try Primary op_type) w = Ret tt →
  (c, LPUSH key v) ∈ commands (events (Dragonfly.write_try Primary op_type) w) →
  llen (store (after (Dragonfly.write_try Primary op_type) w)) key ≤ 100.
Proof.
  observe (Dragonfly.write_try Primary op_type) w.
  intros r w' evs.
  destruct w as [rng net naps clock st me].
  unfold Dragonfly.write_try, Dragonfly.get_random_int.
  repeat match goal with
         | |- context [String.eqb op_type ?s] => destruct (String.eqb op_type s)
         end.
  all: repeat first [run_step | progress answer].
  all: settle; conclude.
  all: try (intros [=]; fail).
  all: intros _; cbn [commands store].
  all: intros Hin; sift Hin.
  apply pair_equal_spec in Hin as [_ Hin]. injection Hin as -> ->.
  eapply lpush_ltrim_bounded; eassumption.
Qed.

(** C3 (fails in the sentinel script). The sentinel script draws the list
    key twice, once for [lpush] and once more for [ltrim]: with draws 1 and
    2 it pushes onto [list:1] and trims [list:2].  Starting from a [list:1]
    of 100 elements the write is counted as successful and leaves [list:1]
    with 101 elements. *)
Theorem C3_sentinel_trims_another_list :
  let m := LoadGenerator.perform_write LoadGenerator.Sentinel in
  llen (store sentinel_lpush) "list:1" = 100 ∧
  result m sentinel_lpush = Ret true ∧
  commands (events m sentinel_lpush)
  = [(Master, LPUSH "list:1" "hhhhhhhhhhhhhhhhhhhh"); (Master, LTRIM "list:2" 0 99)] ∧
  llen (store (after m sentinel_lpush)) "list:1" = 101.
Proof. vm_compute. repeat split. Qed.

(** ** C9: the expiry of set-with-ttl *)

Lemma drop_tl {A} n (l : list A) : drop n (tl l) = drop (S n) l.
Proof. by destruct l; [destruct n|]. Qed.

(** The set-with-ttl write of a connected class script, when the store
    answers: one command is sent, [SET key value EX 300], and the data
    set then holds the value at the key, to expire after 300 seconds. *)
Lemma class_set_write topo (w : World LoadGenerator.t) :
  ready topo (self w) →
  choice_of write_subtypes "" (hd 0 (drop 21 (rng w))) = "set" →
  hd NetOk (net w) = NetOk →
  let key := fmt_key "key" (randint_of 1 1000 (hd 0 (rng w))) in
  let value := String.string_of_list_ascii (drawn_chars 20 (tl (rng w))) in
  let m := LoadGenerator.perform_write topo in
  result m w = Ret true ∧
  events m w = [Cmd (writer (variant_of topo)) (SET key value (Some 300))] ∧
  store (after m w) = <[key := RString value (Some 300)]> (store w).
Proof.
  intros Hready Hop Hnet. cbv zeta.
  observe (LoadGenerator.perform_write topo) w. intros r w' evs.
  destruct w as [rs ns zs cs st me]. cbn [rng net store self] in *.
  unfold LoadGenerator.perform_write, write_subtypes in *.
  destruct topo; cbn [ready variant_of writer] in *.
  all: erewrite try_except_ret; cycle 1.
  1, 3: unfold LoadGenerator.write_body; repeat run_step;
    rewrite drop_tl, Hop; decide_literals;
    cbv beta iota delta [LoadGenerator.write_handle]; repeat run_step;
    first [rewrite Hready | rewrite (proj1 Hready)]; cbv iota; repeat run_step;
    unfold answered;
    cbn [rng net naps clock store self writes_to_primary Redis.apply];
    rewrite Hnet; repeat run_step; settle; reflexivity.
  all: conclude; cbn [store]; done.
Qed.

(** The same in the dragonfly script, which sends [SETEX key 300 value]
    to the primary. *)
Lemma dragonfly_set_write (w : World Dragonfly.globals) :
  hd NetOk (net w) = NetOk →
  let key := fmt_key "key" (randint_of 1 1000 (hd 0 (rng w))) in
  let value := String.string_of_list_ascii (drawn_chars 20 (tl (rng w))) in
  let m := Dragonfly.write_op Primary "set" in
  result m w = Ret tt ∧
  events m w = [Cmd Primary (SETEX key 300 value)] ∧
  store (after m w) = <[key := RString value (Some 300)]> (store w).
Proof.
  intros Hnet. cbv zeta.
  observe (Dragonfly.write_op Primary "set") w. intros r w' evs.
  destruct w as [rs ns zs cs st me]. cbn [rng net store self] in *.
  unfold Dragonfly.write_op.
  erewrite try_except_ret; cycle 1.
  { unfold Dragonfly.write_try. decide_literals.
    repeat run_step.
    unfold answered. cbn [rng net naps clock store self writes_to_primary Redis.apply].
    rewrite Hnet. repeat run_step. settle.
    unfold modify_self. cbn [rng net naps clock store self prepend fst snd app].
    reflexivity. }
  conclude. cbn [store]. done.
Qed.

Lemma stored_expiry_insert st key v ttl :
  stored_expiry (<[key := RString v ttl]> st) key = Some ttl.
Proof. unfold stored_expiry. by rewrite lookup_insert_eq. Qed.

(** C9. In every variant a set-with-ttl write stores its value with an
    expiry of exactly 300 seconds.  When the store answers the write of a
    connected script, the one command sent is [SET key value EX 300]
    (cluster, sentinel: through the cluster client or the master) or
    [SETEX key 300 value] (dragonfly: to the primary), with the key and
    the value the script has drawn, and the data set of the run then
    holds that value at that key, to expire after 300 seconds.  And
    whenever in a run a [SET] or [SETEX] command is on the wire at all, it
    is one that stores its string with an expiry of 300 seconds, whatever
    the data set holds. *)
Theorem C9_set_expires_after_300 :
  (∀ topo (w : World LoadGenerator.t),
     ready topo (self w) →
     choice_of write_subtypes "" (hd 0 (drop 21 (rng w))) = "set" →
     hd NetOk (net w) = NetOk →
     let key := fmt_key "key" (randint_of 1 1000 (hd 0 (rng w))) in
     let value := String.string_of_list_ascii (drawn_chars 20 (tl (rng w))) in
     let m := LoadGenerator.perform_write topo in
     result m w = Ret true ∧
     events m w = [Cmd (writer (variant_of topo)) (SET key value (Some 300))] ∧
     store (after m w) = <[key := RString value (Some 300)]> (store w) ∧
     stored_expiry (store (after m w)) key = Some (Some 300)) ∧
  (∀ w : World Dragonfly.globals,
     hd NetOk (net w) = NetOk →
     let key := fmt_key "key" (randint_of 1 1000 (hd 0 (rng w))) in
     let value := String.string_of_list_ascii (drawn_chars 20 (tl (rng w))) in
     let m := Dragonfly.write_op Primary "set" in
     result m w = Ret tt ∧
     events m w = [Cmd Primary (SETEX key 300 value)] ∧
     store (after m w) = <[key := RString value (Some 300)]> (store w) ∧
     stored_expiry (store (after m w)) key = Some (Some 300)) ∧
  (∀ v ops ratio fuel o c k key st,
     (c, k) ∈ wire_of v ops ratio fuel o →
     string_key k = Some key →
     ∃ st', Redis.apply k st = Some st' ∧ stored_expiry st' key = Some (Some 300)).
Proof.
  split; [|split].
  - intros topo w Hready Hop Hnet.
    destruct (class_set_write topo w Hready Hop Hnet) as (Hr & He & Hs).
    cbv zeta in *. split; [exact Hr|]. split; [exact He|]. split; [exact Hs|].
    rewrite Hs. apply stored_expiry_insert.
  - intros w Hnet.
    destruct (dragonfly_set_write w Hnet) as (Hr & He & Hs).
    cbv zeta in *. split; [exact Hr|]. split; [exact He|]. split; [exact Hs|].
    rewrite Hs. apply stored_expiry_insert.
  - intros v ops ratio fuel o c k key st Hin Hkey.
    exact (proj2 (wire_of_well_formed _ _ _ _ _ _ _ Hin) key st Hkey).
Qed.

(** The write of a connected sentinel script and that of the dragonfly
    script, with the draws [key:42] and twenty [h]. *)
Lemma C9_set_expires_after_300_witness :
  (let m := LoadGenerator.perform_write LoadGenerator.Sentinel in
   let w := set_write_class LoadGenerator.Sentinel in
   events m w = [Cmd Master (SET "key:42" "hhhhhhhhhhhhhhhhhhhh" (Some 300))] ∧
   stored_expiry (store (after m w)) "key:42" = Some (Some 300)) ∧
  (let m := Dragonfly.write_op Primary "set" in
   let w := set_write_dragonfly in
   events m w = [Cmd Primary (SETEX "key:42" 300 "hhhhhhhhhhhhhhhhhhhh")] ∧
   stored_expiry (store (after m w)) "key:42" = Some (Some 300)).
Proof.
  split; cbv zeta.
  - assert (fmt_key "key"
              (randint_of 1 1000 (hd 0 (rng (set_write_class LoadGenerator.Sentinel))))
            = "key:42") as Hkey by (vm_compute; reflexivity).
    assert (String.string_of_list_ascii
              (drawn_chars 20 (tl (rng (set_write_class LoadGenerator.Sentinel))))
            = "hhhhhhhhhhhhhhhhhhhh") as Hvalue by (vm_compute; reflexivity).
    destruct (proj1 C9_set_expires_after_300 LoadGenerator.Sentinel
                (set_write_class LoadGenerator.Sentinel))
      as (_ & He & _ & Hs).
    + split; reflexivity.
    + vm_compute. reflexivity.
    + reflexivity.
    + cbv zeta in He, Hs. rewrite Hkey in He, Hs. rewrite Hvalue in He.
      split; [exact He|exact Hs].
  - assert (fmt_key "key" (randint_of 1 1000 (hd 0 (rng set_write_dragonfly)))
            = "key:42") as Hkey by (vm_compute; reflexivity).
    assert (String.string_of_list_ascii (drawn_chars 20 (tl (rng set_write_dragonfly)))
            = "hhhhhhhhhhhhhhhhhhhh") as Hvalue by (vm_compute; reflexivity).
    destruct (proj1 (proj2 C9_set_expires_after_300) set_write_dragonfly)
      as (_ & He & _ & Hs).
    + reflexivity.
    + cbv zeta in He, Hs. rewrite Hkey in He, Hs. rewrite Hvalue in He.
      split; [exact He|exact Hs].
Defined.

(** ** C4: connecting, with bounded retries *)

Lemma tally_app {A} (p : A → bool) l1 l2 : tally p (l1 ++ l2) = (tally p l1 + tally p l2)%nat.
Proof. induction l1 as [|x l1 IH]; simpl; [done|]. rewrite IH. lia. Qed.

Lemma tally_none {A} (p : A → bool) l : Forall (λ x, p x = false) l → tally p l = 0%nat.
Proof. induction 1 as [|x l Hx _ IH]; simpl; [done|]. by rewrite Hx, IH. Qed.

Section ClassConnect.
Variable topo : LoadGenerator.topology.

(** One more turn of the loop in [connect]. *)
Lemma connect_from_S todo attempt w :
  LoadGenerator.connect_from topo (S todo) attempt w =
  let w1 := after (LoadGenerator.connect_attempt topo attempt) w in
  let ev1 := events (LoadGenerator.connect_attempt topo attempt) w in
  match result (LoadGenerator.connect_attempt topo attempt) w with
  | Ret _ => (Ret tt, w1, ev1)
  | Raise e =>
      if is_Exception e then
        if attempt <? 9 then
          let w2 := mkWorld (rng w1) (net w1) (tl (naps w1)) (clock w1) (store w1) (self w1) in
          let ev2 := ev1 ++ [Log (LoadGenerator.AttemptFailed (attempt + 1) e);
                             Log (LoadGenerator.Retrying 5); Sleep 5] in
          if hd false (naps w1) then (Raise KeyboardInterrupt, w2, ev2)
          else prepend ev2 (LoadGenerator.connect_from topo todo (attempt + 1) w2)
        else (Raise e, w1, ev1 ++ [Log (LoadGenerator.AttemptFailed (attempt + 1) e);
                                   Log LoadGenerator.MaxRetriesReached])
      else (Raise e, w1, ev1)
  end.
Proof.
  cbn [LoadGenerator.connect_from].
  unfold result, after, events.
  destruct (LoadGenerator.connect_attempt topo attempt w) as [[[[]|e] w1] ev1] eqn:E;
    cbn [fst snd].
  - erewrite bind_run;
      [|eapply try_except_ret; erewrite bind_run; [|exact E]; reflexivity].
    unfold prepend, ret; cbn [fst snd]. by rewrite !app_nil_r.
  - change (LoadGenerator.max_retries - 1) with 9.
    change (inject_Z LoadGenerator.retry_delay) with 5%Q.
    change LoadGenerator.retry_delay with 5.
    destruct (is_Exception e) eqn:He.
    + destruct (attempt <? 9) eqn:Ha.
      * destruct (hd false (naps w1)) eqn:Hn.
        -- erewrite bind_raise; [reflexivity|].
           erewrite try_except_caught;
             [|erewrite bind_raise; [reflexivity|exact E]|rewrite He; reflexivity].
           rewrite bind_log, bind_log, bind_sleep by reflexivity.
           cbn zeta. rewrite Hn, !prepend_triple. reflexivity.
        -- erewrite bind_run; cycle 1.
           { erewrite try_except_caught;
               [|erewrite bind_raise; [reflexivity|exact E]|rewrite He; reflexivity].
             rewrite bind_log, bind_log, bind_sleep by reflexivity.
             cbn zeta. rewrite Hn, ret_run, !prepend_triple. reflexivity. }
           cbv beta iota. unfold prepend. cbn [app]. reflexivity.
      * erewrite bind_raise; [reflexivity|].
        erewrite try_except_caught;
          [|erewrite bind_raise; [reflexivity|exact E]|rewrite He; reflexivity].
        rewrite bind_log, bind_log. unfold raise. rewrite !prepend_triple.
        reflexivity.
    + erewrite bind_raise; [reflexivity|].
      eapply try_except_missed; [erewrite bind_raise; [reflexivity|exact E]|].
      by rewrite He.
Qed.

Lemma connect_attempt_events attempt w :
  ∃ evs, events (LoadGenerator.connect_attempt topo attempt) w
         = Log (LoadGenerator.Attempting (attempt + 1) 10) :: evs ∧
         Forall inner evs.
Proof.
  unfold LoadGenerator.connect_attempt, events.
  destruct topo; rewrite bind_log.
  all: match goal with
       | |- ∃ _, (prepend _ (?m ?w)).2 = _ ∧ _ =>
           assert (keeps any inner m) as Hk
       end.
  1,3: repeat first [known (attr_keeps any inner _) | keeps_step]; try done.
  all: eexists; split; [reflexivity|exact (proj2 (Hk _))].
Qed.

Lemma inner_tally evs :
  Forall inner evs →
  tally attempting evs = 0%nat ∧ tally attempt_failed evs = 0%nat ∧ sleeps evs = [].
Proof.
  induction 1 as [|e evs He _ (IH1 & IH2 & IH3)]; [done|].
  destruct e as [c []| | |[]]; try done.
Qed.

Lemma connect_from_count todo attempt w :
  attempt + Z.of_nat todo = 10 → 0 ≤ attempt → (0 < todo)%nat →
  let evs := events (LoadGenerator.connect_from topo todo attempt) w in
  let n := tally attempting evs in
  let f := tally attempt_failed evs in
  match result (LoadGenerator.connect_from topo todo attempt) w with
  | Ret _ => n = S f ∧ (f < todo)%nat ∧ sleeps evs = replicate f 5%Q
  | Raise KeyboardInterrupt => (n ≤ todo)%nat ∧ ∃ k, sleeps evs = replicate k 5%Q
  | Raise _ => n = todo ∧ f = todo ∧ sleeps evs = replicate (todo - 1) 5%Q
  end.
Proof.
  revert attempt w; induction todo as [|todo IH]; intros attempt w Hsum Hpos Htodo;
    [lia|].
  cbv zeta. unfold result, events. rewrite connect_from_S. cbv zeta.
  destruct (connect_attempt_events attempt w) as (evs1 & Hev & Hin).
  destruct (inner_tally _ Hin) as (Hn1 & Hf1 & Hs1).
  rewrite Hev.
  destruct (result (LoadGenerator.connect_attempt topo attempt) w) as [[]|e].
  - cbn [fst snd tally sleeps attempting attempt_failed].
    rewrite Hn1, Hf1, Hs1. repeat split; first [done | lia].
  - destruct (is_Exception e) eqn:He.
    + destruct (attempt <? 9) eqn:Ha.
      * apply Z.ltb_lt in Ha.
        destruct (hd false (naps _)).
        -- cbn [fst snd]. rewrite !tally_app, sleeps_app.
           cbn [tally sleeps attempting attempt_failed]. rewrite Hn1, Hs1.
           split; [lia|]. by exists 1%nat.
        -- match goal with
           | |- context [LoadGenerator.connect_from topo todo ?a ?w2] =>
               specialize (IH a w2 ltac:(lia) ltac:(lia) ltac:(lia));
               cbv zeta in IH; revert IH;
               unfold result, events, prepend;
               destruct (LoadGenerator.connect_from topo todo a w2) as [[r w3] ev3]
           end.
           cbn [fst snd]. rewrite !tally_app, !sleeps_app.
           cbn [tally sleeps attempting attempt_failed app].
           rewrite Hn1, Hf1, Hs1. cbn [app].
           destruct r as [[]|[]]; intros IH.
           all: try (destruct IH as (-> & Hlt & ->); repeat split; first [done | lia]).
           all: try (destruct IH as (-> & -> & ->); repeat split; try lia;
                     destruct todo; [lia|]; simpl; by rewrite Nat.sub_0_r).
           destruct IH as (Hle & k & ->). split; [lia|]. by exists (S k).
      * apply Z.ltb_ge in Ha. assert (todo = 0%nat) as -> by lia.
        cbn [fst snd]. rewrite !tally_app, sleeps_app.
        cbn [tally sleeps attempting attempt_failed]. rewrite Hn1, Hf1, Hs1.
        destruct e; try discriminate He; done.
    + destruct e; try discriminate He.
      cbn [fst snd tally sleeps attempting]. rewrite Hn1, Hs1.
      split; [lia|]. by exists 0%nat.
Qed.
End ClassConnect.

(** One more turn of the wait loop of the dragonfly script. *)
Lemma wait_from_S todo i w :
  Dragonfly.wait_from (S todo) i w =
  let w1 := after Dragonfly.ping_all w in
  let ev1 := events Dragonfly.ping_all w in
  match result Dragonfly.ping_all w with
  | Ret _ => (Ret tt, w1, ev1)
  | Raise e =>
      if is_RedisError e then
        if i <? 29 then
          let w2 := mkWorld (rng w1) (net w1) (tl (naps w1)) (clock w1) (store w1) (self w1) in
          let ev2 := ev1 ++ [Log (Dragonfly.Waiting (i + 1) 30); Sleep 2] in
          if hd false (naps w1) then (Raise KeyboardInterrupt, w2, ev2)
          else prepend ev2 (Dragonfly.wait_from todo (i + 1) w2)
        else (Raise e, w1, ev1 ++ [Log (Dragonfly.FailedToConnect e)])
      else (Raise e, w1, ev1)
  end.
Proof.
  cbn [Dragonfly.wait_from].
  unfold result, after, events.
  destruct (Dragonfly.ping_all w) as [[[[]|e] w1] ev1] eqn:E; cbn [fst snd].
  - erewrite bind_run;
      [|eapply try_except_ret; erewrite bind_run; [|exact E]; reflexivity].
    unfold prepend, ret; cbn [fst snd]. by rewrite !app_nil_r.
  - change (Dragonfly.max_retries - 1) with 29.
    destruct (is_RedisError e) eqn:He.
    + destruct (i <? 29) eqn:Ha.
      * destruct (hd false (naps w1)) eqn:Hn.
        -- erewrite bind_raise; [reflexivity|].
           erewrite try_except_caught;
             [|erewrite bind_raise; [reflexivity|exact E]|rewrite He; reflexivity].
           rewrite bind_log, bind_sleep by reflexivity.
           cbn zeta. rewrite Hn, !prepend_triple. reflexivity.
        -- erewrite bind_run; cycle 1.
           { erewrite try_except_caught;
               [|erewrite bind_raise; [reflexivity|exact E]|rewrite He; reflexivity].
             rewrite bind_log, bind_sleep by reflexivity.
             cbn zeta. rewrite Hn, ret_run, !prepend_triple. reflexivity. }
           cbv beta iota. unfold prepend. cbn [app]. reflexivity.
      * erewrite bind_raise; [reflexivity|].
        erewrite try_except_caught;
          [|erewrite bind_raise; [reflexivity|exact E]|rewrite He; reflexivity].
        rewrite bind_log. unfold raise. rewrite !prepend_triple.
        reflexivity.
    + erewrite bind_raise; [reflexivity|].
      eapply try_except_missed; [erewrite bind_raise; [reflexivity|exact E]|].
      by rewrite He.
Qed.

Lemma ping_all_events w :
  ∃ evs, events Dragonfly.ping_all w = Cmd Primary PING :: evs ∧
         Forall inner_dragonfly evs.
Proof.
  unfold Dragonfly.ping_all, events. rewrite bind_call.
  unfold answered. cbn [writes_to_primary Redis.apply].
  destruct (hd NetOk (net w)); try (eexists; split; [reflexivity|constructor]).
  match goal with
  | |- ∃ _, (prepend _ (?m ?w)).2 = _ ∧ _ =>
      assert (keeps any inner_dragonfly m) as Hk
  end.
  { repeat keeps_step; try done; intros ? [= <-]; exact I. }
  eexists; split; [reflexivity|exact (proj2 (Hk _))].
Qed.

Lemma inner_dragonfly_tally evs :
  Forall inner_dragonfly evs →
  tally primary_ping evs = 0%nat ∧ tally wait_failed evs = 0%nat ∧ sleeps evs = [].
Proof.
  induction 1 as [|e evs He _ (IH1 & IH2 & IH3)]; [done|].
  destruct e as [[] []| | |[]]; try done.
Qed.

Lemma wait_from_count todo i w :
  i + Z.of_nat todo = 30 → 0 ≤ i → (0 < todo)%nat →
  let evs := events (Dragonfly.wait_from todo i) w in
  let n := tally primary_ping evs in
  let f := tally wait_failed evs in
  match result (Dragonfly.wait_from todo i) w with
  | Ret _ => n = S f ∧ (f < todo)%nat ∧ sleeps evs = replicate f 2%Q
  | Raise RedisError => n = todo ∧ f = todo ∧ sleeps evs = replicate (todo - 1) 2%Q
  | Raise _ => (n ≤ todo)%nat ∧ ∃ k, sleeps evs = replicate k 2%Q
  end.
Proof.
  revert i w; induction todo as [|todo IH]; intros i w Hsum Hpos Htodo; [lia|].
  cbv zeta. unfold result, events. rewrite wait_from_S. cbv zeta.
  destruct (ping_all_events w) as (evs1 & Hev & Hin).
  destruct (inner_dragonfly_tally _ Hin) as (Hn1 & Hf1 & Hs1).
  rewrite Hev.
  destruct (result Dragonfly.ping_all w) as [[]|e].
  - cbn [fst snd tally sleeps primary_ping wait_failed].
    rewrite Hn1, Hf1, Hs1. repeat split; first [done | lia].
  - destruct (is_RedisError e) eqn:He.
    + destruct e; try discriminate He.
      destruct (i <? 29) eqn:Ha.
      * apply Z.ltb_lt in Ha.
        destruct (hd false (naps _)).
        -- cbn [fst snd]. rewrite !tally_app, sleeps_app.
           cbn [tally sleeps primary_ping wait_failed]. rewrite Hn1, Hs1.
           split; [lia|]. by exists 1%nat.
        -- match goal with
           | |- context [Dragonfly.wait_from todo ?a ?w2] =>
               specialize (IH a w2 ltac:(lia) ltac:(lia) ltac:(lia));
               cbv zeta in IH; revert IH;
               unfold result, events, prepend;
               destruct (Dragonfly.wait_from todo a w2) as [[r w3] ev3]
           end.
           cbn [fst snd]. rewrite !tally_app, !sleeps_app.
           cbn [tally sleeps primary_ping wait_failed app].
           rewrite Hn1, Hf1, Hs1. cbn [app].
           destruct r as [[]|[]]; intros IH.
           all: try (destruct IH as (-> & Hlt & ->); repeat split; first [done | lia]).
           all: try (destruct IH as (-> & -> & ->); repeat split; try lia;
                     destruct todo; [lia|]; simpl; by rewrite Nat.sub_0_r).
           all: destruct IH as (Hle & k & ->); split; [lia|]; by exists (S k).
      * apply Z.ltb_ge in Ha. assert (todo = 0%nat) as -> by lia.
        cbn [fst snd]. rewrite !tally_app, sleeps_app.
        cbn [tally sleeps primary_ping wait_failed]. rewrite Hn1, Hf1, Hs1.
        done.
    + cbn [fst snd tally sleeps primary_ping]. rewrite Hn1, Hs1.
      destruct e; try discriminate He; (split; [lia|]; by exists 0%nat).
Qed.

(** C4 (amended). Connecting is a bounded retry with a fixed delay, whose
    constants differ between the scripts.  In the cluster and sentinel
    scripts [connect] makes at most 10 attempts: when it returns, it has
    made one attempt more than it has seen fail, at most 9 have failed, and
    it has slept 5 seconds after each failure; when it raises (other than
    on an interrupt) all 10 attempts have failed, with 9 sleeps of 5
    seconds between them.  In the dragonfly script the start-up wait makes
    at most 30 attempts with sleeps of 2 seconds, and gives up only on the
    30th [RedisError].  In every script, 3 failures followed by a success
    are therefore exactly 4 attempts. *)
Theorem C4_connect_bounded_retries :
  (∀ topo (w : World LoadGenerator.t),
     let m := LoadGenerator.connect topo in
     let n := tally attempting (events m w) in
     let f := tally attempt_failed (events m w) in
     match result m w with
     | Ret _ => n = S f ∧ (f ≤ 9)%nat ∧ sleeps (events m w) = replicate f 5%Q
     | Raise KeyboardInterrupt =>
         (n ≤ 10)%nat ∧ ∃ k, sleeps (events m w) = replicate k 5%Q
     | Raise _ => n = 10%nat ∧ f = 10%nat ∧ sleeps (events m w) = replicate 9 5%Q
     end) ∧
  (∀ w : World Dragonfly.globals,
     let m := Dragonfly.wait_for_connections in
     let n := tally primary_ping (events m w) in
     let f := tally wait_failed (events m w) in
     match result m w with
     | Ret _ => n = S f ∧ (f ≤ 29)%nat ∧ sleeps (events m w) = replicate f 2%Q
     | Raise RedisError =>
         n = 30%nat ∧ f = 30%nat ∧ sleeps (events m w) = replicate 29 2%Q
     | Raise _ => (n ≤ 30)%nat ∧ ∃ k, sleeps (events m w) = replicate k 2%Q
     end).
Proof.
  split.
  - intros topo w.
    pose proof (connect_from_count topo 10 0 w ltac:(lia) ltac:(lia) ltac:(lia)) as H.
    cbv zeta in *. unfold LoadGenerator.connect.
    change (Z.to_nat LoadGenerator.max_retries) with 10%nat.
    destruct (result _ w) as [[]|[]]; try exact H.
    destruct H as (? & ? & ?). repeat split; first [done | lia].
  - intros w.
    pose proof (wait_from_count 30 0 w ltac:(lia) ltac:(lia) ltac:(lia)) as H.
    cbv zeta in *. unfold Dragonfly.wait_for_connections.
    change (Z.to_nat Dragonfly.max_retries) with 30%nat.
    destruct (result _ w) as [[]|[]]; try exact H.
    destruct H as (? & ? & ?). repeat split; first [done | lia].
Qed.

(** C4 as stated fails in the dragonfly script: after 10 failed attempts
    it does not raise but goes on, is ready at the 11th attempt, and has
    slept 2 seconds, not 5, after each failure. *)
Lemma C4_dragonfly_30_attempts_2_seconds :
  let m := Dragonfly.wait_for_connections in
  let w := boot Dragonfly.blank (failing 10) in
  result m w = Ret tt ∧
  tally primary_ping (events m w) = 11%nat ∧
  sleeps (events m w) = replicate 10 2%Q.
Proof. vm_compute. repeat split. Qed.

(** Three failed attempts and then a success, in each script. *)
Example three_failures_then_ready :
  (∀ topo,
     let m := LoadGenerator.connect topo in
     let w := boot LoadGenerator.blank (failing 3) in
     result m w = Ret tt ∧ tally attempting (events m w) = 4%nat ∧
     sleeps (events m w) = [5; 5; 5]%Q) ∧
  (let m := Dragonfly.wait_for_connections in
   let w := boot Dragonfly.blank (failing 3) in
   result m w = Ret tt ∧ tally primary_ping (events m w) = 4%nat ∧
   sleeps (events m w) = [2; 2; 2]%Q).
Proof. split; [intros []|]; vm_compute; repeat split. Qed.

(** ** C7: the workload mix *)

Section Prefixes.
Context {St L : Type}.
Lemma events_bind_prefix {A B} (m : M St L A) (f : A → M St L B) w :
  ∃ ev2, events (bind m f) w = events m w ++ ev2.
Proof.
  unfold events at 1. rewrite bind_unfold.
  destruct (result m w); [by eexists|]. exists []. by rewrite app_nil_r.
Qed.

Lemma events_try_except_prefix {A} (body : M St L A) handler w :
  ∃ ev2, events (try_except body handler) w = events body w ++ ev2.
Proof.
  unfold events at 1. rewrite try_except_unfold.
  destruct (result body w) as [a|e]; [exists []; by rewrite app_nil_r|].
  destruct (handler e); [by eexists|]. exists []. by rewrite app_nil_r.
Qed.

Lemma first_command_app (ev1 ev2 : list (event L)) x :
  first_command ev1 = Some x → first_command (ev1 ++ ev2) = Some x.
Proof.
  unfold first_command. rewrite commands_app.
  by destruct (commands ev1).
Qed.
End Prefixes.

Lemma read_body_first topo (w : World LoadGenerator.t) c :
  LoadGenerator.read_handle topo (self w) = Some c →
  ∃ k, first_command (events (LoadGenerator.read_body topo) w) = Some (c, k) ∧
       classify k = Some (Read, choice_of read_subtypes "" (hd 0 (tl (rng w)))).
Proof.
  observe (LoadGenerator.read_body topo) w.
  intros r w' evs.
  destruct w as [rs ns zs cs st me]. intros E Hc; revert E. cbn [self rng] in *.
  unfold LoadGenerator.read_body, read_subtypes.
  repeat run_step.
  destruct (choice_of_5 "get" "exists" "lrange" "smembers" "hgetall" "" (hd 0 (tl rs)))
    as [H|[H|[H|[H|H]]]]; rewrite !H; decide_literals; clear H.
  all: repeat first [run_step | progress (rewrite Hc; cbv iota) | progress answer].
  all: settle; conclude.
  all: eexists; split; reflexivity.
Qed.

Lemma write_body_first topo (w : World LoadGenerator.t) c :
  LoadGenerator.write_handle topo (self w) = Some c →
  ∃ k, first_command (events (LoadGenerator.write_body topo) w) = Some (c, k) ∧
       classify k = Some (Write, choice_of write_subtypes "" (hd 0 (drop 20 (tl (rng w))))).
Proof.
  observe (LoadGenerator.write_body topo) w.
  intros r w' evs.
  destruct w as [rs ns zs cs st me]. intros E Hc; revert E. cbn [self rng] in *.
  unfold LoadGenerator.write_body, write_subtypes.
  repeat run_step.
  destruct (choice_of_5 "set" "incr" "lpush" "sadd" "hset" "" (hd 0 (drop 20 (tl rs))))
    as [H|[H|[H|[H|H]]]]; rewrite !H; decide_literals; clear H.
  all: try destruct topo.
  all: repeat first [run_step | progress (rewrite Hc; cbv iota) | progress answer].
  all: settle; conclude.
  all: eexists; split; reflexivity.
Qed.

Lemma hd_drop {A} (d : A) n l : hd d (drop n l) = nth n l d.
Proof. revert l; induction n as [|n IH]; intros [|x l]; simpl; auto. Qed.

Lemma tl_drop {A} (l : list A) : tl l = drop 1 l.
Proof. by destruct l. Qed.

Lemma events_bind_randint {St L B} a b (f : Z → M St L B) (w : World St) :
  events (bind (randint a b) f) w
  = events (f (randint_of a b (hd 0 (rng w))))
      (mkWorld (tl (rng w)) (net w) (naps w) (clock w) (store w) (self w)).
Proof. unfold events. by rewrite bind_randint. Qed.

Lemma class_tick_first ops ratio topo (w : World LoadGenerator.t) cr cw :
  LoadGenerator.read_handle topo (self w) = Some cr →
  LoadGenerator.write_handle topo (self w) = Some cw →
  let draw := randint_of 1 100 (hd 0 (rng w)) in
  ∃ k, first_command (events (LoadGenerator.tick ops ratio topo) w)
       = Some (if draw <=? ratio then cr else cw, k) ∧
       classify k
       = Some (if draw <=? ratio
               then (Read, choice_of read_subtypes "" (nth 2 (rng w) 0))
               else (Write, choice_of write_subtypes "" (nth 22 (rng w) 0))).
Proof.
  intros Hr Hw draw. unfold LoadGenerator.tick.
  destruct (events_try_except_prefix
              (LoadGenerator.tick_body ops ratio topo;;; ret Continue)
              (λ e, match e with
                    | KeyboardInterrupt => Some (log LoadGenerator.ShuttingDown;;; ret Break)
                    | _ => Some (log (LoadGenerator.UnexpectedError e);;; sleep 1;;; ret Continue)
                    end) w) as [ev2 ->].
  destruct (events_bind_prefix (LoadGenerator.tick_body ops ratio topo)
              (λ _, ret Continue) w) as [ev3 ->].
  unfold LoadGenerator.tick_body. rewrite events_bind_randint. fold draw.
  set (w1 := mkWorld _ _ _ _ _ _).
  destruct (draw <=? ratio).
  - match goal with
    | |- context [events (bind ?m ?f) w1] =>
        destruct (events_bind_prefix m f w1) as [ev4 ->]
    end.
    unfold LoadGenerator.perform_read.
    match goal with
    | |- context [events (try_except ?m ?h) w1] =>
        destruct (events_try_except_prefix m h w1) as [ev5 ->]
    end.
    destruct (read_body_first topo w1 cr Hr) as (k & Hk & Hc).
    exists k. split; [by repeat apply first_command_app|].
    rewrite Hc. subst w1. cbn [rng]. by rewrite !tl_drop, !drop_drop, hd_drop.
  - match goal with
    | |- context [events (bind ?m ?f) w1] =>
        destruct (events_bind_prefix m f w1) as [ev4 ->]
    end.
    unfold LoadGenerator.perform_write.
    match goal with
    | |- context [events (try_except ?m ?h) w1] =>
        destruct (events_try_except_prefix m h w1) as [ev5 ->]
    end.
    destruct (write_body_first topo w1 cw Hw) as (k & Hk & Hc).
    exists k. split; [by repeat apply first_command_app|].
    rewrite Hc. subst w1. cbn [rng]. by rewrite !tl_drop, !drop_drop, hd_drop.
Qed.

Lemma read_try_first client op (w : World Dragonfly.globals) :
  op ∈ read_subtypes →
  ∃ k, first_command (events (Dragonfly.read_try client op) w) = Some (client, k) ∧
       classify k = Some (Read, op).
Proof.
  observe (Dragonfly.read_try client op) w.
  intros r w' evs.
  destruct w as [rs ns zs cs st me]. intros E Hop; revert E.
  unfold Dragonfly.read_try, Dragonfly.get_random_int.
  unfold read_subtypes in Hop. sift Hop; subst op; decide_literals.
  all: repeat first [run_step | progress answer].
  all: settle; conclude.
  all: eexists; split; reflexivity.
Qed.

Lemma write_try_first client op (w : World Dragonfly.globals) :
  op ∈ write_subtypes →
  ∃ k, first_command (events (Dragonfly.write_try client op) w) = Some (client, k) ∧
       classify k = Some (Write, op).
Proof.
  observe (Dragonfly.write_try client op) w.
  intros r w' evs.
  destruct w as [rs ns zs cs st me]. intros E Hop; revert E.
  unfold Dragonfly.write_try, Dragonfly.get_random_int.
  unfold write_subtypes in Hop. sift Hop; subst op; decide_literals.
  all: repeat first [run_step | progress answer].
  all: settle; conclude.
  all: eexists; split; reflexivity.
Qed.

Lemma choice_of_5_in {A} (a b c d e dflt : A) r :
  choice_of [a; b; c; d; e] dflt r ∈ [a; b; c; d; e].
Proof.
  destruct (choice_of_5 a b c d e dflt r) as [->|[->|[->|[->| ->]]]];
    repeat constructor.
Qed.

Lemma dragonfly_tick_first ratio st (w : World Dragonfly.globals) :
  let draw := randint_of 1 100 (hd 0 (rng w)) in
  ∃ k, first_command (events (Dragonfly.tick ratio st) w)
       = Some (if draw <=? ratio
               then choice_of [Replica1; Replica2] Replica1 (nth 1 (rng w) 0)
               else Primary, k) ∧
       classify k
       = Some (if draw <=? ratio
               then (Read, choice_of read_subtypes "" (nth 2 (rng w) 0))
               else (Write, choice_of write_subtypes "" (nth 1 (rng w) 0))).
Proof.
  intros draw. unfold Dragonfly.tick.
  match goal with
  | |- context [events (try_except ?m ?h) w] =>
      destruct (events_try_except_prefix m h w) as [ev2 ->]
  end.
  destruct (events_bind_prefix (Dragonfly.tick_body ratio st)
              (λ _, ret Continue) w) as [ev3 ->].
  unfold Dragonfly.tick_body. rewrite events_bind_randint. fold draw. cbv zeta.
  set (w1 := mkWorld _ _ _ _ _ _).
  match goal with
  | |- context [events (bind ?m ?f) w1] =>
      destruct (events_bind_prefix m f w1) as [ev4 ->]
  end.
  destruct (draw <=? ratio).
  - unfold events at 1. repeat run_step.
    match goal with |- context [(Dragonfly.read_op ?c ?o ?w2).2] =>
      change ((Dragonfly.read_op c o w2).2) with (events (Dragonfly.read_op c o) w2);
      unfold Dragonfly.read_op;
      destruct (read_try_first c o w2) as (k & Hk & Hc);
        [apply choice_of_5_in|]
    end.
    match goal with
    | |- context [events (try_except ?m ?h) ?w2] =>
        destruct (events_try_except_prefix m h w2) as [ev5 ->]
    end.
    exists k. split.
    + repeat apply first_command_app.
      rewrite Hk. subst w1. cbn [rng]. by rewrite ?tl_drop, ?drop_drop, ?hd_drop.
    + rewrite Hc. subst w1. cbn [rng]. unfold read_subtypes.
      by rewrite !tl_drop, ?drop_drop, !hd_drop.
  - unfold events at 1. repeat run_step.
    match goal with |- context [(Dragonfly.write_op ?c ?o ?w2).2] =>
      change ((Dragonfly.write_op c o w2).2) with (events (Dragonfly.write_op c o) w2);
      unfold Dragonfly.write_op;
      destruct (write_try_first c o w2) as (k & Hk & Hc);
        [apply choice_of_5_in|]
    end.
    match goal with
    | |- context [events (try_except ?m ?h) ?w2] =>
        destruct (events_try_except_prefix m h w2) as [ev5 ->]
    end.
    exists k. split.
    + repeat apply first_command_app. exact Hk.
    + rewrite Hc. subst w1. cbn [rng]. unfold write_subtypes.
      by rewrite !tl_drop, ?drop_drop, !hd_drop.
Qed.

(** C7. In every variant a tick first draws an integer of [1..100] and then
    the subtype of its operation from a table of five: its first command is
    a read, sent to the read client, exactly when the draw is at most
    [READ_WRITE_RATIO], and a write, sent to the write client, otherwise;
    the subtype is the entry of [read_subtypes] or [write_subtypes] picked
    by [random.choice] from the next value of the random source that the
    script uses for it (the third value for a read; for a write the 23rd in
    the class scripts, which draw a key and a 20-character value first, and
    the second in the dragonfly script).  Both tables have five distinct
    entries. *)
Theorem C7_mix_selection :
  (∀ ops ratio topo (w : World LoadGenerator.t) cr cw,
     LoadGenerator.read_handle topo (self w) = Some cr →
     LoadGenerator.write_handle topo (self w) = Some cw →
     let draw := randint_of 1 100 (hd 0 (rng w)) in
     1 ≤ draw ≤ 100 ∧
     ∃ k, first_command (events (LoadGenerator.tick ops ratio topo) w)
          = Some (if draw <=? ratio then cr else cw, k) ∧
          classify k
          = Some (if draw <=? ratio
                  then (Read, choice_of read_subtypes "" (nth 2 (rng w) 0))
                  else (Write, choice_of write_subtypes "" (nth 22 (rng w) 0)))) ∧
  (∀ ratio st (w : World Dragonfly.globals),
     let draw := randint_of 1 100 (hd 0 (rng w)) in
     1 ≤ draw ≤ 100 ∧
     ∃ k, first_command (events (Dragonfly.tick ratio st) w)
          = Some (if draw <=? ratio
                  then choice_of [Replica1; Replica2] Replica1 (nth 1 (rng w) 0)
                  else Primary, k) ∧
          classify k
          = Some (if draw <=? ratio
                  then (Read, choice_of read_subtypes "" (nth 2 (rng w) 0))
                  else (Write, choice_of write_subtypes "" (nth 1 (rng w) 0)))) ∧
  (length read_subtypes = 5%nat ∧ NoDup read_subtypes) ∧
  (length write_subtypes = 5%nat ∧ NoDup write_subtypes).
Proof.
  split; [|split; [|split]].
  - intros ops ratio topo w cr cw Hr Hw draw.
    split; [apply randint_of_range; lia|].
    exact (class_tick_first ops ratio topo w cr cw Hr Hw).
  - intros ratio st w draw.
    split; [apply randint_of_range; lia|].
    exact (dragonfly_tick_first ratio st w).
  - split; [reflexivity|]. apply NoDup_ListNoDup. repeat constructor; simpl; intuition discriminate.
  - split; [reflexivity|]. apply NoDup_ListNoDup. repeat constructor; simpl; intuition discriminate.
Qed.

Lemma C7_mix_selection_witness :
  1 ≤ 1 ≤ 100 ∧
  ∃ k, first_command (events (LoadGenerator.tick 100 70 LoadGenerator.Cluster) read_first)
       = Some (ClusterClient, k) ∧
       classify k = Some (Read, "get").
Proof.
  exact (proj1 C7_mix_selection 100 70 LoadGenerator.Cluster read_first
           ClusterClient ClusterClient eq_refl eq_refl).
Defined.

(** ** The counters at a report *)

#[local] Instance same_stats_preorder : PreOrder same_stats.
Proof.
  split; [intros ?; reflexivity|]. unfold same_stats. intros x y z -> ->. reflexivity.
Qed.

Section ClassCounters.
Variable topo : LoadGenerator.topology.
#[local] Abbreviation Quiet := (keeps same_stats silent).

Lemma connect_from_quiet todo attempt : Quiet (LoadGenerator.connect_from topo todo attempt).
Proof.
  revert attempt; induction todo as [|todo IH]; intros attempt;
    cbn [LoadGenerator.connect_from].
  - keeps_step.
  - unfold LoadGenerator.connect_attempt. destruct topo.
    all: repeat first [known (attr_keeps same_stats silent _) | known (IH _) | keeps_step];
      try done.
Qed.

Lemma reconnect_quiet : Quiet (LoadGenerator.reconnect topo).
Proof.
  unfold LoadGenerator.reconnect, LoadGenerator.connect.
  repeat first [known (connect_from_quiet _ _) | keeps_step]; done.
Qed.

(** A computation followed by two counter increments. *)
Lemma then_counted (m : LoadGenerator.Run unit) f g (w : World LoadGenerator.t) :
  Quiet m →
  let body := m;;; modify_self (LoadGenerator.set_stats f);;;
              modify_self (LoadGenerator.set_stats g);;; ret true in
  match result body w with
  | Ret _ => LoadGenerator.stats (self (after body w)) = g (f (LoadGenerator.stats (self w)))
  | Raise _ => LoadGenerator.stats (self (after body w)) = LoadGenerator.stats (self w)
  end ∧ Forall silent (events body w).
Proof.
  intros Hm body. destruct (Hm w) as [Hs He]. subst body.
  unfold result, after, events in *. rewrite bind_unfold.
  unfold result, after, events in *.
  destruct (m w) as [[[[]|e] w1] ev1]; cbn [fst snd] in *; [|done].
  rewrite bind_modify_self, bind_modify_self, ret_run. cbn [fst snd self LoadGenerator.set_stats LoadGenerator.stats].
  rewrite Hs. split; [done|]. by rewrite app_nil_r.
Qed.

Lemma read_body_stats (w : World LoadGenerator.t) :
  let body := LoadGenerator.read_body topo in
  match result body w with
  | Ret _ => LoadGenerator.stats (self (after body w))
             = LoadGenerator.incr_successful_ops
                 (LoadGenerator.incr_reads (LoadGenerator.stats (self w)))
  | Raise _ => LoadGenerator.stats (self (after body w)) = LoadGenerator.stats (self w)
  end ∧ Forall silent (events body w).
Proof.
  cbv zeta. unfold result, after, events, LoadGenerator.read_body.
  destruct w as [rs ns zs cs st me].
  repeat run_step.
  match goal with
  | |- context [bind ?m _ ?w1] =>
      apply (then_counted m LoadGenerator.incr_reads LoadGenerator.incr_successful_ops w1)
  end.
  repeat first [known (attr_keeps same_stats silent _) | keeps_step]; done.
Qed.

Lemma write_body_stats (w : World LoadGenerator.t) :
  let body := LoadGenerator.write_body topo in
  match result body w with
  | Ret _ => LoadGenerator.stats (self (after body w))
             = LoadGenerator.incr_successful_ops
                 (LoadGenerator.incr_writes (LoadGenerator.stats (self w)))
  | Raise _ => LoadGenerator.stats (self (after body w)) = LoadGenerator.stats (self w)
  end ∧ Forall silent (events body w).
Proof.
  cbv zeta. unfold result, after, events, LoadGenerator.write_body.
  destruct w as [rs ns zs cs st me].
  repeat run_step.
  match goal with
  | |- context [bind ?m _ ?w1] =>
      apply (then_counted m LoadGenerator.incr_writes LoadGenerator.incr_successful_ops w1)
  end.
  repeat first [known (attr_keeps same_stats silent _) | keeps_step]; done.
Qed.
End ClassCounters.
Section Post.
Context {St L : Type}.

Lemma post_bind {A B} (m : M St L A) (f : A → M St L B) w Q :
  post m w (λ r w1 ev1,
    match r with
    | Ret a => post (f a) w1 (λ r2 w2 ev2, Q r2 w2 (ev1 ++ ev2))
    | Raise e => Q (Raise e) w1 ev1
    end) →
  post (bind m f) w Q.
Proof.
  unfold post, result, after, events. rewrite bind_unfold.
  unfold result, after, events.
  destruct (m w) as [[[a|e] w1] ev1]; cbn [fst snd]; auto.
Qed.

Lemma post_try_except {A} (body : M St L A) handler w Q :
  post body w (λ r w1 ev1,
    match r with
    | Ret a => Q (Ret a) w1 ev1
    | Raise e =>
        match handler e with
        | Some h => post h w1 (λ r2 w2 ev2, Q r2 w2 (ev1 ++ ev2))
        | None => Q (Raise e) w1 ev1
        end
    end) →
  post (try_except body handler) w Q.
Proof.
  unfold post, result, after, events. rewrite try_except_unfold.
  unfold result, after, events.
  destruct (body w) as [[[a|e] w1] ev1]; cbn [fst snd]; auto.
  destruct (handler e); auto.
Qed.

Lemma post_mono {A} (m : M St L A) w (Q Q' : res A → World St → list (event L) → Prop) :
  post m w Q → (∀ r w' ev, Q r w' ev → Q' r w' ev) → post m w Q'.
Proof. unfold post. auto. Qed.

Lemma post_keeps {A} (m : M St L A) w R P :
  keeps R P m → post m w (λ _ w' ev, R (self w) (self w') ∧ Forall P ev).
Proof. intros Hm. exact (Hm w). Qed.
End Post.


Section Obs.
Context {St L : Type}.
Implicit Types w : World St.
Lemma result_ret {A} (a : A) w : result (ret (L := L) a) w = Ret a. Proof. done. Qed.
Lemma after_ret {A} (a : A) w : after (ret (L := L) a) w = w. Proof. done. Qed.
Lemma events_ret {A} (a : A) w : events (ret (L := L) a) w = []. Proof. done. Qed.
Lemma result_raise {A} e w : result (raise (L := L) (A := A) e) w = Raise e. Proof. done. Qed.
Lemma after_raise {A} e w : after (raise (L := L) (A := A) e) w = w. Proof. done. Qed.
Lemma events_raise {A} e w : events (raise (L := L) (A := A) e) w = []. Proof. done. Qed.
Lemma result_log (l : L) w : result (log l) w = Ret tt. Proof. done. Qed.
Lemma after_log (l : L) w : after (log l) w = w. Proof. done. Qed.
Lemma events_log (l : L) w : events (log l) w = [Log l]. Proof. done. Qed.
Lemma result_modify_self f w : result (modify_self (L := L) f) w = Ret tt. Proof. done. Qed.
Lemma self_after_modify_self f w : self (after (modify_self (L := L) f) w) = f (self w).
Proof. done. Qed.
Lemma events_modify_self f w : events (modify_self (L := L) f) w = []. Proof. done. Qed.
Lemma result_emit (e : event L) w : result (emit e) w = Ret tt. Proof. done. Qed.
Lemma after_emit (e : event L) w : after (emit e) w = w. Proof. done. Qed.
Lemma events_emit (e : event L) w : events (emit e) w = [e]. Proof. done. Qed.
End Obs.

Create Rewrite HintDb obs.
#[local] Hint Rewrite @result_ret @after_ret @events_ret @result_raise @after_raise
  @events_raise @result_log @after_log @events_log @result_modify_self
  @self_after_modify_self @events_modify_self @result_emit @after_emit @events_emit
  @app_nil_r : obs.

Lemma silent_report_ok evs : Forall silent evs → Forall report_ok evs.
Proof. intros H. eapply Forall_impl; [exact H|]. by intros [| | |[]]. Qed.

Section ClassTicks.
Variables (ops ratio : Z) (topo : LoadGenerator.topology).

Lemma perform_read_post (w : World LoadGenerator.t) :
  balanced (LoadGenerator.stats (self w)) →
  post (LoadGenerator.perform_read topo) w (λ r w' ev,
    Forall silent ev ∧
    ∀ b, r = Ret b → one_ahead (LoadGenerator.stats (self w'))).
Proof.
  intros [Hb1 Hb2]. unfold LoadGenerator.perform_read. apply post_try_except.
  unfold post. destruct (read_body_stats topo w) as [Hs He]. cbv zeta in Hs.
  destruct (result (LoadGenerator.read_body topo) w) as [b|e].
  - split; [done|]. intros _ _. rewrite Hs. unfold one_ahead, LoadGenerator.incr_successful_ops, LoadGenerator.incr_reads,
        LoadGenerator.incr_writes, LoadGenerator.incr_failed_ops;
        cbn [LoadGenerator.reads LoadGenerator.writes LoadGenerator.successful_ops
             LoadGenerator.failed_ops LoadGenerator.total_ops]. lia.
  - destruct e; cbv beta iota delta [is_RedisError];
      [|split; [exact He|intros ? [=]]..].
    apply post_bind. unfold post. autorewrite with obs.
    apply post_bind. unfold post. autorewrite with obs.
    apply post_bind.
    eapply post_mono; [apply post_keeps, reconnect_quiet|].
    intros r w' ev [Hr Hq]. unfold same_stats in Hr. autorewrite with obs in Hr.
    cbn [LoadGenerator.stats LoadGenerator.set_stats] in Hr.
    destruct r as [[]|]; unfold post; autorewrite with obs.
    + split.
      * apply Forall_app_2; [done|]. by constructor.
      * intros _ _. rewrite Hr, Hs. unfold one_ahead, LoadGenerator.incr_successful_ops, LoadGenerator.incr_reads,
        LoadGenerator.incr_writes, LoadGenerator.incr_failed_ops;
        cbn [LoadGenerator.reads LoadGenerator.writes LoadGenerator.successful_ops
             LoadGenerator.failed_ops LoadGenerator.total_ops]. lia.
    + split; [|intros ? [=]].
      apply Forall_app_2; [done|]. by constructor.
Qed.


Lemma perform_write_post (w : World LoadGenerator.t) :
  balanced (LoadGenerator.stats (self w)) →
  post (LoadGenerator.perform_write topo) w (λ r w' ev,
    Forall silent ev ∧
    ∀ b, r = Ret b → one_ahead (LoadGenerator.stats (self w'))).
Proof.
  intros [Hb1 Hb2]. unfold LoadGenerator.perform_write. apply post_try_except.
  unfold post. destruct (write_body_stats topo w) as [Hs He]. cbv zeta in Hs.
  destruct (result (LoadGenerator.write_body topo) w) as [b|e].
  - split; [done|]. intros _ _. rewrite Hs. unfold one_ahead, LoadGenerator.incr_successful_ops, LoadGenerator.incr_reads,
        LoadGenerator.incr_writes, LoadGenerator.incr_failed_ops;
        cbn [LoadGenerator.reads LoadGenerator.writes LoadGenerator.successful_ops
             LoadGenerator.failed_ops LoadGenerator.total_ops]. lia.
  - destruct e; cbv beta iota delta [is_RedisError];
      [|split; [exact He|intros ? [=]]..].
    apply post_bind. unfold post. autorewrite with obs.
    apply post_bind. unfold post. autorewrite with obs.
    apply post_bind.
    eapply post_mono; [apply post_keeps, reconnect_quiet|].
    intros r w' ev [Hr Hq]. unfold same_stats in Hr. autorewrite with obs in Hr.
    cbn [LoadGenerator.stats LoadGenerator.set_stats] in Hr.
    destruct r as [[]|]; unfold post; autorewrite with obs.
    + split.
      * apply Forall_app_2; [done|]. by constructor.
      * intros _ _. rewrite Hr, Hs. unfold one_ahead, LoadGenerator.incr_successful_ops, LoadGenerator.incr_reads,
        LoadGenerator.incr_writes, LoadGenerator.incr_failed_ops;
        cbn [LoadGenerator.reads LoadGenerator.writes LoadGenerator.successful_ops
             LoadGenerator.failed_ops LoadGenerator.total_ops]. lia.
    + split; [|intros ? [=]].
      apply Forall_app_2; [done|]. by constructor.
Qed.

Lemma report_stats_post (w : World LoadGenerator.t) :
  balanced (LoadGenerator.stats (self w)) →
  post LoadGenerator.report_stats w (λ r w' ev,
    r = Ret tt ∧ Forall report_ok ev ∧ Forall expected ev ∧
    balanced (LoadGenerator.stats (self w'))).
Proof.
  intros Hb. unfold post, result, after, events, LoadGenerator.report_stats.
  rewrite bind_time_time, bind_get_self. cbn [self clock].
  destruct (Qle_bool 10 _).
  - rewrite bind_log. unfold modify_self, prepend. cbn [fst snd app self].
    split; [reflexivity|]. split; [constructor; [exact Hb|constructor]|].
    split; [constructor; [exact I|constructor]|]. split; reflexivity.
  - rewrite ret_run. cbn [fst snd self].
    split; [reflexivity|]. split; [constructor|]. split; [constructor|exact Hb].
Qed.

Lemma sleep_post d (w : World LoadGenerator.t) :
  post (sleep (L := LoadGenerator.line) d) w (λ r w' ev,
    self w' = self w ∧ Forall report_ok ev ∧ Forall expected ev).
Proof.
  unfold post, result, after, events, sleep.
  destruct (Qle_bool 0 d); [|by repeat split].
  destruct (hd false (naps w)); cbn; repeat split; repeat constructor.
Qed.

Lemma silent_expected evs : Forall silent evs → Forall expected evs.
Proof. intros H. eapply Forall_impl; [exact H|]. by intros [| | |[]]. Qed.

Lemma tick_body_post (w : World LoadGenerator.t) :
  balanced (LoadGenerator.stats (self w)) →
  post (LoadGenerator.tick_body ops ratio topo) w (λ r w' ev,
    Forall report_ok ev ∧ Forall expected ev ∧
    (r = Ret tt → balanced (LoadGenerator.stats (self w')))).
Proof.
  intros Hb. unfold LoadGenerator.tick_body.
  unfold post, result, after, events. rewrite bind_randint.
  set (w1 := mkWorld _ _ _ _ _ _).
  change (post ((if randint_of 1 100 (hd 0 (rng w)) <=? ratio
                 then LoadGenerator.perform_read topo
                 else LoadGenerator.perform_write topo);;;
                modify_self (LoadGenerator.set_stats LoadGenerator.incr_total_ops);;;
                LoadGenerator.report_stats;;;
                sleep (LoadGenerator.sleep_time ops)) w1
            (λ r w' ev, Forall report_ok ev ∧ Forall expected ev ∧
               (r = Ret tt → balanced (LoadGenerator.stats (self w'))))).
  apply post_bind.
  assert (post (if randint_of 1 100 (hd 0 (rng w)) <=? ratio
                then LoadGenerator.perform_read topo
                else LoadGenerator.perform_write topo) w1
            (λ r w' ev, Forall silent ev ∧
               ∀ b, r = Ret b → one_ahead (LoadGenerator.stats (self w')))) as Hp.
  { destruct (_ <=? _); [by apply perform_read_post|by apply perform_write_post]. }
  eapply post_mono; [exact Hp|]. clear Hp.
  intros r w2 ev2 [Hq Hone].
  destruct r as [b|e];
    [|split; [by apply silent_report_ok|split; [by apply silent_expected|intros [=]]]].
  specialize (Hone b eq_refl).
  apply post_bind. unfold post. autorewrite with obs.
  apply post_bind.
  eapply post_mono; [apply report_stats_post|].
  { autorewrite with obs. destruct Hone as [H1 H2].
    split; simpl; lia. }
  intros r w3 ev3 (-> & Hr3 & He3 & Hb3).
  eapply post_mono; [apply sleep_post|].
  intros r w4 ev4 (Hself & Hr4 & He4). rewrite Hself.
  split; [|split; [|intros _; exact Hb3]].
  - apply Forall_app_2; [by apply silent_report_ok|]. cbn [app]. by apply Forall_app_2.
  - apply Forall_app_2; [by apply silent_expected|]. cbn [app]. by apply Forall_app_2.
Qed.

Lemma tick_post (w : World LoadGenerator.t) :
  balanced (LoadGenerator.stats (self w)) →
  post (LoadGenerator.tick ops ratio topo) w (λ r w' ev,
    Forall expected ev →
    Forall report_ok ev ∧ (r = Ret Continue → balanced (LoadGenerator.stats (self w')))).
Proof.
  intros Hb. unfold LoadGenerator.tick. apply post_try_except, post_bind.
  eapply post_mono; [by apply tick_body_post|].
  intros r w1 ev1 (Hr1 & He1 & Hb1).
  destruct r as [[]|e]; unfold post; autorewrite with obs.
  - auto.
  - destruct e.
    6: { apply post_bind. unfold post. autorewrite with obs.
         intros _. split; [|intros [=]].
         apply Forall_app_2; [done|]. by repeat constructor. }
    all: apply post_bind; unfold post; autorewrite with obs.
    all: intros Hex; apply Forall_app in Hex as [_ Hex].
    all: match type of Hex with Forall _ (?l ++ _) =>
           apply Forall_app in Hex as [Hex _]
         end.
    all: exfalso; exact (Forall_inv Hex).
Qed.

Lemma loop_post fuel (w : World LoadGenerator.t) :
  balanced (LoadGenerator.stats (self w)) →
  post (LoadGenerator.loop ops ratio topo fuel) w (λ r w' ev,
    Forall expected ev → Forall report_ok ev).
Proof.
  revert w; induction fuel as [|fuel IH]; intros w Hb; cbn [LoadGenerator.loop].
  - unfold post. autorewrite with obs. by constructor.
  - apply post_bind.
    eapply post_mono; [by apply tick_post|].
    intros r w1 ev1 Htick.
    destruct r as [[]|e].
    + unfold post. intros Hex. apply Forall_app in Hex as [H1 H2].
      destruct (Htick H1) as [Hr Hb']. apply Forall_app_2; [done|].
      by apply (IH w1 (Hb' eq_refl)).
    + unfold post. autorewrite with obs. intros Hex. by apply Htick.
    + intros Hex. by apply Htick.
Qed.

Lemma main_post fuel (w : World LoadGenerator.t) :
  post (LoadGenerator.main ops ratio topo fuel) w (λ r w' ev,
    Forall expected ev → Forall report_ok ev).
Proof.
  unfold LoadGenerator.main, LoadGenerator.init.
  unfold post, result, after, events.
  rewrite bind_assoc, bind_time_time, bind_assoc, bind_modify_self.
  cbn [rng net naps clock store self].
  set (w1 := mkWorld _ _ _ _ _ _).
  change (post (LoadGenerator.connect topo;;; LoadGenerator.run ops ratio topo fuel) w1
            (λ r w' ev, Forall expected ev → Forall report_ok ev)).
  apply post_bind.
  eapply post_mono; [apply post_keeps, (connect_from_quiet topo)|].
  intros r w2 ev2 [Hs Hq]. unfold same_stats in Hs. simpl in Hs.
  destruct r as [[]|e]; [|intros _; by apply silent_report_ok].
  unfold post, result, after, events.
  destruct (run_cases ops ratio topo fuel w2) as [[_ E]|[_ E]]; rewrite E;
    cbn [fst snd prepend].
  - assert (balanced (LoadGenerator.stats (self w2))) as Hb
      by (rewrite Hs; split; reflexivity).
    pose proof (loop_post fuel w2 Hb) as Hloop. unfold post, events in Hloop.
    intros Hex.
    apply Forall_app in Hex as [_ Hex]. apply Forall_app in Hex as [_ Hex].
    apply Forall_app_2; [by apply silent_report_ok|].
    apply Forall_app_2; [by repeat constructor|]. by apply Hloop.
  - intros _. apply Forall_app_2; [by apply silent_report_ok|].
    by repeat constructor.
Qed.
End ClassTicks.

(** *** The dragonfly script *)

Section Oracle.
Context {St L : Type}.
Implicit Types w : World St.

Lemma Forall_tl {A} (P : A → Prop) l : Forall P l → Forall P (tl l).
Proof. by destruct 1. Qed.

Lemma net_ok_hd ns : Forall net_ok ns → net_ok (hd NetOk ns).
Proof. by destruct 1. Qed.

Lemma steady_tails {A} (m : M St L A) : steady (St := St) (L := L) m → tails m.
Proof. intros H w Hw. by apply H. Qed.

Lemma tails_ret {A} (a : A) : tails (St := St) (L := L) (ret a). Proof. by intros w. Qed.
Lemma tails_raise {A} e : tails (St := St) (L := L) (raise (A := A) e). Proof. by intros w. Qed.
Lemma tails_emit e : tails (St := St) (L := L) (emit e). Proof. by intros w. Qed.
Lemma tails_log l : tails (St := St) (L := L) (log l). Proof. by intros w. Qed.
Lemma tails_get_self : tails (St := St) (L := L) get_self. Proof. by intros w. Qed.
Lemma tails_modify_self f : tails (St := St) (L := L) (modify_self f). Proof. by intros w. Qed.
Lemma tails_time_time : tails (St := St) (L := L) time_time. Proof. by intros w. Qed.
Lemma tails_sleep d : tails (St := St) (L := L) (sleep d).
Proof.
  intros w Hw. unfold after, sleep. destruct (Qle_bool 0 d); [|done].
  by destruct (hd false (naps w)).
Qed.

Lemma tails_bind {A B} (m : M St L A) (f : A → M St L B) :
  tails m → (∀ a, tails (f a)) → tails (bind m f).
Proof.
  intros Hm Hf w Hw. specialize (Hm w Hw).
  unfold after at 1. rewrite bind_unfold.
  destruct (result m w); [by apply Hf|done].
Qed.

Lemma tails_try_except {A} (body : M St L A) handler :
  tails body → (∀ e h, handler e = Some h → tails h) →
  tails (try_except body handler).
Proof.
  intros Hm Hh w Hw. specialize (Hm w Hw).
  unfold after at 1. rewrite try_except_unfold.
  destruct (result body w) as [a|e]; [done|].
  destruct (handler e) as [h|] eqn:Eh; [by apply (Hh e h Eh)|done].
Qed.

Lemma steady_ret {A} (a : A) : steady (St := St) (L := L) (ret a). Proof. by intros w. Qed.
Lemma steady_modify_self f : steady (St := St) (L := L) (modify_self f). Proof. by intros w. Qed.
Lemma steady_random : steady (St := St) (L := L) random. Proof. by intros w. Qed.

Lemma steady_bind {A B} (m : M St L A) (f : A → M St L B) :
  steady m → (∀ a, steady (f a)) → steady (bind m f).
Proof.
  intros Hm Hf w Hw. destruct (Hm w Hw) as [Hn Hr].
  unfold after at 1, result at 1. rewrite bind_unfold.
  destruct (result m w); [by apply Hf|done].
Qed.

Lemma steady_call c k : steady (St := St) (L := L) (call (Some c) k).
Proof.
  intros w Hw. unfold after, result. rewrite call_run. unfold answered.
  pose proof (net_ok_hd _ Hw) as Hhd. apply Forall_tl in Hw.
  destruct (hd NetOk (net w)); try done; cbn.
  destruct (writes_to_primary c); [|done].
  by destruct (Redis.apply k (store w)).
Qed.

Lemma steady_randint a b : steady (St := St) (L := L) (randint a b).
Proof. apply steady_bind; [apply steady_random|intros; apply steady_ret]. Qed.
Lemma steady_choice {A} (seq : list A) d : steady (St := St) (L := L) (choice seq d).
Proof. apply steady_bind; [apply steady_random|intros; apply steady_ret]. Qed.
Lemma steady_choices {A} (population : list A) d k : steady (St := St) (L := L) (choices population d k).
Proof.
  induction k as [|k IH]; simpl; [apply steady_ret|].
  apply steady_bind; [apply steady_choice|intros x].
  apply steady_bind; [apply IH|intros; apply steady_ret].
Qed.
Lemma steady_generate_random_string n : steady (St := St) (L := L) (generate_random_string n).
Proof. apply steady_bind; [apply steady_choices|intros; apply steady_ret]. Qed.
Lemma steady_generate_random_key : steady (St := St) (L := L) generate_random_key.
Proof. apply steady_bind; [apply steady_randint|intros; apply steady_ret]. Qed.
End Oracle.

Ltac steady_step :=
  lazymatch goal with
  | |- steady (ret _) => apply steady_ret
  | |- steady (modify_self _) => apply steady_modify_self
  | |- steady (randint _ _) => apply steady_randint
  | |- steady (choice _ _) => apply steady_choice
  | |- steady (generate_random_string _) => apply steady_generate_random_string
  | |- steady generate_random_key => apply steady_generate_random_key
  | |- steady (call (Some _) _) => apply steady_call
  | |- steady (bind _ _) => apply steady_bind; [|intros ?]
  | |- steady (if ?b then _ else _) => destruct b
  end.

Ltac tails_step :=
  lazymatch goal with
  | |- tails (ret _) => apply tails_ret
  | |- tails (raise _) => apply tails_raise
  | |- tails (emit _) => apply tails_emit
  | |- tails (log _) => apply tails_log
  | |- tails get_self => apply tails_get_self
  | |- tails (modify_self _) => apply tails_modify_self
  | |- tails time_time => apply tails_time_time
  | |- tails (sleep _) => apply tails_sleep
  | |- tails (call (Some _) _) => apply steady_tails, steady_call
  | |- tails (bind _ _) => apply tails_bind; [|intros ?]
  | |- tails (try_except _ _) => apply tails_try_except; [|keeps_handler]
  | |- tails (if ?b then _ else _) => destruct b
  end.

Lemma read_try_steady client op : steady (Dragonfly.read_try client op).
Proof. unfold Dragonfly.read_try, Dragonfly.get_random_int. repeat steady_step. Qed.

Lemma write_try_steady client op : steady (Dragonfly.write_try client op).
Proof. unfold Dragonfly.write_try, Dragonfly.get_random_int. repeat steady_step. Qed.

Lemma wait_from_tails todo i : tails (Dragonfly.wait_from todo i).
Proof.
  revert i; induction todo as [|todo IH]; intros i; cbn [Dragonfly.wait_from].
  - tails_step.
  - unfold Dragonfly.ping_all. repeat first [apply IH | tails_step].
Qed.

#[local] Instance same_counters_preorder : PreOrder same_counters.
Proof.
  split; [intros ?; reflexivity|]. unfold same_counters. intros x y z -> ->. reflexivity.
Qed.

Lemma no_block_ok evs : Forall no_block evs → Forall block_ok evs.
Proof. intros H. eapply Forall_impl; [exact H|]. by intros [| | |[]]. Qed.

Section DragonflyTicks.
Variables (ratio : Z) (st : Q).

Lemma then_success (m : Dragonfly.Run unit) (w : World Dragonfly.globals) :
  keeps same_counters no_block m →
  let body := m;;; modify_self (Dragonfly.set_stats Dragonfly.incr_successful_operations) in
  match result body w with
  | Ret _ => Dragonfly.stats (self (after body w))
             = Dragonfly.incr_successful_operations (Dragonfly.stats (self w))
  | Raise _ => Dragonfly.stats (self (after body w)) = Dragonfly.stats (self w)
  end ∧ Forall no_block (events body w).
Proof.
  intros Hm body. destruct (Hm w) as [Hs He]. subst body.
  unfold result, after, events in *. rewrite bind_unfold.
  unfold result, after, events in *.
  destruct (m w) as [[[[]|e] w1] ev1]; cbn [fst snd] in *; [|done].
  unfold modify_self. cbn [fst snd self Dragonfly.set_stats Dragonfly.stats].
  rewrite Hs. split; [done|]. by rewrite app_nil_r.
Qed.

Lemma read_op_post client op (w : World Dragonfly.globals) :
  Forall net_ok (net w) →
  post (Dragonfly.read_op client op) w (λ r w' ev,
    r = Ret tt ∧ Forall net_ok (net w') ∧ Forall no_block ev ∧
    (Dragonfly.stats (self w')
     = Dragonfly.incr_successful_operations (Dragonfly.stats (self w)) ∨
     Dragonfly.stats (self w')
     = Dragonfly.incr_read_errors
         (Dragonfly.incr_failed_operations (Dragonfly.stats (self w))))).
Proof.
  intros Hw. unfold Dragonfly.read_op. apply post_try_except. unfold post.
  destruct (read_try_steady client op w Hw) as [Hn Hr].
  assert (let body := Dragonfly.read_try client op in
          match result body w with
          | Ret _ => Dragonfly.stats (self (after body w))
                     = Dragonfly.incr_successful_operations (Dragonfly.stats (self w))
          | Raise _ => Dragonfly.stats (self (after body w)) = Dragonfly.stats (self w)
          end ∧ Forall no_block (events body w)) as [Hs He].
  { apply then_success. unfold Dragonfly.get_random_int.
    repeat keeps_step; done. }
  cbv zeta in Hs.
  destruct (result (Dragonfly.read_try client op) w) as [[]|e].
  - auto.
  - subst e. cbv beta iota delta [is_RedisError].
    apply post_bind. unfold post. autorewrite with obs.
    repeat split; try done.
    right. unfold modify_self, after in Hs |- *.
    unfold Dragonfly.set_stats. cbn [Dragonfly.stats fst snd self]. by rewrite Hs.
Qed.

Lemma write_op_post client op (w : World Dragonfly.globals) :
  Forall net_ok (net w) →
  post (Dragonfly.write_op client op) w (λ r w' ev,
    r = Ret tt ∧ Forall net_ok (net w') ∧ Forall no_block ev ∧
    (Dragonfly.stats (self w')
     = Dragonfly.incr_successful_operations (Dragonfly.stats (self w)) ∨
     Dragonfly.stats (self w')
     = Dragonfly.incr_write_errors
         (Dragonfly.incr_failed_operations (Dragonfly.stats (self w))))).
Proof.
  intros Hw. unfold Dragonfly.write_op. apply post_try_except. unfold post.
  destruct (write_try_steady client op w Hw) as [Hn Hr].
  assert (let body := Dragonfly.write_try client op in
          match result body w with
          | Ret _ => Dragonfly.stats (self (after body w))
                     = Dragonfly.incr_successful_operations (Dragonfly.stats (self w))
          | Raise _ => Dragonfly.stats (self (after body w)) = Dragonfly.stats (self w)
          end ∧ Forall no_block (events body w)) as [Hs He].
  { apply then_success. unfold Dragonfly.get_random_int.
    repeat keeps_step; done. }
  cbv zeta in Hs.
  destruct (result (Dragonfly.write_try client op) w) as [[]|e].
  - auto.
  - subst e. cbv beta iota delta [is_RedisError].
    apply post_bind. unfold post. autorewrite with obs.
    repeat split; try done.
    right. unfold modify_self, after in Hs |- *.
    unfold Dragonfly.set_stats. cbn [Dragonfly.stats fst snd self]. by rewrite Hs.
Qed.

Lemma print_stats_post (w : World Dragonfly.globals) :
  tallied (Dragonfly.stats (self w)) →
  post Dragonfly.print_stats w (λ r w' ev,
    r = Ret tt ∧ Forall block_ok ev ∧ net w' = net w ∧
    tallied (Dragonfly.stats (self w'))).
Proof.
  intros Hb. unfold post, result, after, events, Dragonfly.print_stats.
  rewrite bind_time_time, bind_get_self, bind_log.
  unfold modify_self, prepend. cbn.
  split; [reflexivity|]. split; [constructor; [exact Hb|constructor]|].
  split; [reflexivity|]. split; reflexivity.
Qed.

Lemma report_check_post (w : World Dragonfly.globals) :
  tallied (Dragonfly.stats (self w)) →
  post Dragonfly.report_check w (λ r w' ev,
    r = Ret tt ∧ Forall block_ok ev ∧ net w' = net w ∧
    tallied (Dragonfly.stats (self w'))).
Proof.
  intros Hb. unfold Dragonfly.report_check.
  unfold post, result, after, events. rewrite bind_time_time, bind_get_self.
  cbn [rng net naps clock store self].
  destruct (Qle_bool _ _).
  - set (w1 := mkWorld _ _ _ _ _ _).
    change (post (Dragonfly.print_stats;;;
                  let* now' := time_time in
                  modify_self (Dragonfly.set_last_report_time now')) w1
              (λ r w' ev, r = Ret tt ∧ Forall block_ok ev ∧ net w' = net w ∧
                 tallied (Dragonfly.stats (self w')))).
    apply post_bind. eapply post_mono; [by apply print_stats_post|].
    intros r w2 ev2 (-> & Hr & Hn & Ht).
    unfold post, result, after, events. rewrite bind_time_time.
    unfold modify_self. cbn. rewrite app_nil_r.
    split; [reflexivity|]. split; [exact Hr|]. split; [exact Hn|exact Ht].
  - rewrite ret_run. cbn [fst snd net self].
    split; [reflexivity|]. split; [constructor|]. split; [reflexivity|exact Hb].
Qed.

Lemma dragonfly_sleep_post d (w : World Dragonfly.globals) :
  post (sleep (L := Dragonfly.line) d) w (λ r w' ev,
    self w' = self w ∧ net w' = net w ∧ Forall block_ok ev).
Proof.
  unfold post, result, after, events, sleep.
  destruct (Qle_bool 0 d); [|by repeat split].
  destruct (hd false (naps w)); cbn; repeat split; repeat constructor.
Qed.

Lemma dragonfly_tick_body_post (w : World Dragonfly.globals) :
  tallied (Dragonfly.stats (self w)) → Forall net_ok (net w) →
  post (Dragonfly.tick_body ratio st) w (λ r w' ev,
    Forall block_ok ev ∧ Forall net_ok (net w') ∧
    tallied (Dragonfly.stats (self w'))).
Proof.
  intros Hb Hw. unfold Dragonfly.tick_body.
  unfold post, result, after, events. rewrite bind_randint. cbv zeta.
  set (w1 := mkWorld _ _ _ _ _ _).
  match goal with
  | |- context [bind ?m ?f w1] =>
      change (post (bind m f) w1
                (λ r w' ev, Forall block_ok ev ∧ Forall net_ok (net w') ∧
                   tallied (Dragonfly.stats (self w'))));
      assert (post m w1 (λ r w' ev,
                r = Ret tt ∧ Forall net_ok (net w') ∧ Forall no_block ev ∧
                one_counted (Dragonfly.stats (self w')))) as Hp
  end.
  { destruct Hb as [Hb1 Hb2].
    destruct (_ <=? _); unfold post, result, after, events.
    - rewrite bind_choice, bind_modify_self, bind_choice.
      cbn [rng net naps clock store self].
      match goal with
      | |- context [Dragonfly.read_op ?c ?o ?w2] =>
          pose proof (read_op_post c o w2 Hw) as Hop
      end.
      revert Hop. unfold post, result, after, events.
      intros (Hr & Hn & He & Hs). cbn [self] in Hs.
      repeat split; try done.
      all: destruct Hs as [-> | ->]; simpl; lia.
    - rewrite bind_modify_self, bind_choice.
      cbn [rng net naps clock store self].
      match goal with
      | |- context [Dragonfly.write_op ?c ?o ?w2] =>
          pose proof (write_op_post c o w2 Hw) as Hop
      end.
      revert Hop. unfold post, result, after, events.
      intros (Hr & Hn & He & Hs). cbn [self] in Hs.
      repeat split; try done.
      all: destruct Hs as [-> | ->]; simpl; lia. }
  apply post_bind. eapply post_mono; [exact Hp|]. clear Hp.
  intros r w2 ev2 (-> & Hn2 & He2 & [Ho1 Ho2]).
  apply post_bind. unfold post at 1. autorewrite with obs.
  apply post_bind. eapply post_mono; [apply report_check_post|].
  { autorewrite with obs. split; simpl; lia. }
  intros r w3 ev3 (-> & Hr3 & Hn3 & Ht3).
  eapply post_mono; [apply dragonfly_sleep_post|].
  intros r w4 ev4 (Hself & Hn4 & Hr4).
  rewrite Hself, Hn4, Hn3. autorewrite with obs.
  split; [|split; [exact Hn2|exact Ht3]].
  apply Forall_app_2; [by apply no_block_ok|]. cbn [app]. by apply Forall_app_2.
Qed.

Lemma dragonfly_tick_post (w : World Dragonfly.globals) :
  tallied (Dragonfly.stats (self w)) → Forall net_ok (net w) →
  post (Dragonfly.tick ratio st) w (λ r w' ev,
    Forall block_ok ev ∧ Forall net_ok (net w') ∧
    tallied (Dragonfly.stats (self w'))).
Proof.
  intros Hb Hw. unfold Dragonfly.tick. apply post_try_except, post_bind.
  eapply post_mono; [by apply dragonfly_tick_body_post|].
  intros r w1 ev1 (Hr1 & Hn1 & Hb1).
  destruct r as [[]|e]; unfold post at 1; autorewrite with obs; [done|].
  assert (post (log Dragonfly.Stopping;;; Dragonfly.print_stats;;; ret Break) w1
            (λ r2 w2 ev2, Forall block_ok (ev1 ++ ev2) ∧ Forall net_ok (net w2) ∧
               tallied (Dragonfly.stats (self w2)))) as Hstop.
  { apply post_bind. unfold post at 1. autorewrite with obs.
    apply post_bind. eapply post_mono; [by apply print_stats_post|].
    intros r w2 ev2 (-> & Hr2 & Hn2 & Ht2).
    unfold post. autorewrite with obs. rewrite Hn2. repeat split; try apply Ht2; try done.
    apply Forall_app_2; [done|]. by constructor. }
  assert (post (log (Dragonfly.UnexpectedError e);;; sleep 1;;; ret Continue) w1
            (λ r2 w2 ev2, Forall block_ok (ev1 ++ ev2) ∧ Forall net_ok (net w2) ∧
               tallied (Dragonfly.stats (self w2)))) as Hgo.
  { apply post_bind. unfold post at 1. autorewrite with obs.
    apply post_bind. eapply post_mono; [apply dragonfly_sleep_post|].
    intros r w2 ev2 (Hself & Hn2 & Hr2).
    destruct r as [[]|]; unfold post; autorewrite with obs;
      rewrite Hself, Hn2; repeat split; try apply Hb1; try done.
    all: apply Forall_app_2; [done|]; by constructor. }
  destruct e; first [exact Hgo | exact Hstop].
Qed.

Lemma dragonfly_loop_post fuel (w : World Dragonfly.globals) :
  tallied (Dragonfly.stats (self w)) → Forall net_ok (net w) →
  post (Dragonfly.loop ratio st fuel) w (λ r w' ev, Forall block_ok ev).
Proof.
  revert w; induction fuel as [|fuel IH]; intros w Hb Hw; cbn [Dragonfly.loop].
  - unfold post. autorewrite with obs. constructor.
  - apply post_bind. eapply post_mono; [by apply dragonfly_tick_post|].
    intros r w1 ev1 (Hr1 & Hn1 & Hb1).
    destruct r as [[]|e]; [| |done].
    + eapply post_mono; [by apply IH|]. intros. by apply Forall_app_2.
    + unfold post. by autorewrite with obs.
Qed.
End DragonflyTicks.

Lemma wait_from_no_block todo i : keeps any no_block (Dragonfly.wait_from todo i).
Proof.
  revert i; induction todo as [|todo IH]; intros i; cbn [Dragonfly.wait_from];
    [keeps_step|].
  unfold Dragonfly.ping_all.
  repeat first [known (IH _) | keeps_step]; done.
Qed.

Lemma dragonfly_main_post ops ratio fuel (w : World Dragonfly.globals) :
  Forall net_ok (net w) →
  post (Dragonfly.main ops ratio fuel) w (λ r w' ev, Forall block_ok ev).
Proof.
  intros Hw. unfold Dragonfly.main, Dragonfly.wait_for_connections.
  do 3 (apply post_bind; unfold post at 1; autorewrite with obs).
  apply post_bind.
  pose proof (wait_from_tails (Z.to_nat Dragonfly.max_retries) 0 w Hw) as Hn.
  destruct (wait_from_no_block (Z.to_nat Dragonfly.max_retries) 0 w) as [_ He].
  revert Hn He. unfold post at 1.
  generalize (result (Dragonfly.wait_from (Z.to_nat Dragonfly.max_retries) 0) w)
             (after (Dragonfly.wait_from (Z.to_nat Dragonfly.max_retries) 0) w)
             (events (Dragonfly.wait_from (Z.to_nat Dragonfly.max_retries) 0) w).
  intros r w1 ev1 Hn He. apply no_block_ok in He.
  destruct r as [[]|e]; [|by repeat constructor].
  apply post_bind. unfold post at 1. autorewrite with obs.
  unfold post, result, after, events.
  rewrite bind_assoc, bind_time_time, bind_modify_self, bind_log.
  cbn [rng net naps clock store self].
  unfold Dragonfly.sleep_time, float_div.
  destruct (float_limit <=? Z.abs ops); [|destruct (ops =? 0)].
  - cbn. repeat constructor. apply Forall_app_2; [done|]. by repeat constructor.
  - cbn. repeat constructor. apply Forall_app_2; [done|]. by repeat constructor.
  - rewrite bind_ret.
    match goal with
    | |- context [Dragonfly.loop ratio ?s fuel ?w2] =>
        pose proof (dragonfly_loop_post ratio s fuel w2) as Hl
    end.
    unfold post, events in Hl. cbn [fst snd prepend].
    repeat constructor. apply Forall_app_2; [done|]. constructor; [done|].
    apply Hl; [split; reflexivity|exact Hn].
Qed.


(** * Further properties of the code *)

(** ** Random strings *)

Lemma length_string_of_list_ascii l :
  String.length (String.string_of_list_ascii l) = length l.
Proof. induction l as [|c l IH]; [reflexivity|]. cbn. by rewrite IH. Qed.

Lemma choice_of_elem {A} (seq : list A) d r : seq ≠ [] → choice_of seq d r ∈ seq.
Proof.
  intros Hne. unfold choice_of. apply list_elem_of_In, nth_In.
  assert (0 < Z.of_nat (length seq)) as Hlen by (destruct seq; [done|cbn; lia]).
  pose proof (Z.mod_pos_bound r _ Hlen). lia.
Qed.

Lemma drawn_chars_spec n rs :
  length (drawn_chars n rs) = n ∧
  Forall (λ c, c ∈ ascii_letters_digits) (drawn_chars n rs).
Proof.
  revert rs; induction n as [|n IH]; intros rs; cbn [drawn_chars]; [by split|].
  destruct (IH (tl rs)) as [Hlen Hin]. split; [cbn; by rewrite Hlen|].
  constructor; [|done]. by apply choice_of_elem.
Qed.

(** X1. [generate_random_string(n)] always returns: a string of exactly [n]
    characters, each a letter or a digit, made of the next [n] values of the
    random source and of nothing else; it produces no event. *)
Theorem generate_random_string_alphanumeric {St L} (n : nat) (w : World St) :
  ∃ s, generate_random_string (L := L) n w
       = (Ret s, mkWorld (drop n (rng w)) (net w) (naps w) (clock w) (store w) (self w), [])
       ∧ String.length s = n
       ∧ Forall (λ c, c ∈ ascii_letters_digits) (String.list_ascii_of_string s).
Proof.
  exists (String.string_of_list_ascii (drawn_chars n (rng w))).
  destruct (drawn_chars_spec n (rng w)) as [Hlen Hin]. split; [|split].
  - rewrite <- (bind_ret_r (generate_random_string n) w).
    rewrite bind_generate_random_string. reflexivity.
  - by rewrite length_string_of_list_ascii.
  - by rewrite String.list_ascii_of_string_of_list_ascii.
Qed.

(** ** The counters shown in a report *)

(** X2. Class scripts: in a run in which no "Unexpected error" line is
    logged, every statistics line shows counters that add up: reads and
    writes are the successful operations, and successes and failures are
    the total. *)
Theorem class_report_counters_add_up ops ratio topo fuel (w : World LoadGenerator.t) s a b :
  let evs := events (LoadGenerator.main ops ratio topo fuel) w in
  (∀ e, Log (LoadGenerator.UnexpectedError e) ∉ evs) →
  Log (LoadGenerator.StatsLine s a b) ∈ evs →
  LoadGenerator.reads s + LoadGenerator.writes s = LoadGenerator.successful_ops s ∧
  LoadGenerator.successful_ops s + LoadGenerator.failed_ops s = LoadGenerator.total_ops s.
Proof.
  intros evs Hno Hin.
  pose proof (main_post ops ratio topo fuel w) as Hmain. unfold post in Hmain.
  fold evs in Hmain. clearbody evs.
  assert (Forall expected evs) as Hex.
  { apply Forall_forall. intros x Hx. destruct x as [| | |[]]; try exact I.
    exact (Hno _ Hx). }
  specialize (Hmain Hex). rewrite Forall_forall in Hmain.
  exact (Hmain _ Hin).
Qed.

Lemma class_report_counters_add_up_witness :
  let s := LoadGenerator.mkStats 1 1 0 1 0 0 in
  LoadGenerator.reads s + LoadGenerator.writes s = LoadGenerator.successful_ops s ∧
  LoadGenerator.successful_ops s + LoadGenerator.failed_ops s = LoadGenerator.total_ops s.
Proof.
  apply (class_report_counters_add_up 100 70 LoadGenerator.Cluster 1
           (boot LoadGenerator.blank quiet_start) _ (1 # 11) (100 # 1)).
  - intros e Hin. vm_compute in Hin. sift Hin.
  - apply (list_elem_of_lookup_2 _ 9). vm_compute. reflexivity.
Defined.

(** X3. Dragonfly script: in a run that no interrupt reaches (none while
    a call blocks, none during a sleep) and in which every network call
    goes through or raises a [RedisError], every statistics block shows
    counters that add up: the total is reads plus writes, and successes
    plus failures. *)
Theorem dragonfly_report_counters_add_up ops ratio fuel (w : World Dragonfly.globals)
    s i a b :
  Forall net_ok (net w) → Forall (λ nap, nap = false) (naps w) →
  Log (Dragonfly.StatsBlock s i a b) ∈ events (Dragonfly.main ops ratio fuel) w →
  Dragonfly.total_operations s = Dragonfly.reads s + Dragonfly.writes s ∧
  Dragonfly.successful_operations s + Dragonfly.failed_operations s
  = Dragonfly.total_operations s.
Proof.
  intros Hnet _ Hin.
  pose proof (dragonfly_main_post ops ratio fuel w Hnet) as Hmain. unfold post in Hmain.
  rewrite Forall_forall in Hmain. exact (Hmain _ Hin).
Qed.

Lemma dragonfly_report_counters_add_up_witness :
  let s := Dragonfly.mkStats 1 1 0 1 0 0 0 in
  Dragonfly.total_operations s = Dragonfly.reads s + Dragonfly.writes s ∧
  Dragonfly.successful_operations s + Dragonfly.failed_operations s
  = Dragonfly.total_operations s.
Proof.
  apply (dragonfly_report_counters_add_up 100 70 1
           (boot Dragonfly.blank quiet_start) _ 10 (1 # 11) (100 # 1)).
  - constructor.
  - constructor.
  - apply (list_elem_of_lookup_2 _ 9). vm_compute. reflexivity.
Defined.

(** ** What one operation does to the counters *)

Section Results.
Context {St L : Type}.

Lemma result_then_ret {A B} (m : M St L A) (b : B) (w : World St) :
  result (m;;; ret b) w = match result m w with Ret _ => Ret b | Raise e => Raise e end.
Proof.
  unfold result at 1. rewrite bind_unfold. by destruct (result m w).
Qed.

Lemma events_then_ret {A B} (m : M St L A) (b : B) (w : World St) :
  events (m;;; ret b) w = events m w.
Proof.
  unfold events at 1. rewrite bind_unfold.
  destruct (result m w) as [a|e]; cbn [snd]; [|reflexivity].
  change (events (ret b) (after m w)) with (@nil (event L)). apply app_nil_r.
Qed.

Lemma after_then_ret {A B} (m : M St L A) (b : B) (w : World St) :
  after (m;;; ret b) w = after m w.
Proof.
  unfold after at 1. rewrite bind_unfold. by destruct (result m w).
Qed.

Lemma unlogged_logged (evs : list (event L)) : Forall unlogged evs → logged evs = [].
Proof. induction 1 as [|[] evs He _ IH]; done. Qed.
End Results.

Section ClassOutcome.
Variable topo : LoadGenerator.topology.

Lemma connect_then_false_quiet :
  keeps same_stats silent (LoadGenerator.connect topo;;; ret false).
Proof.
  unfold LoadGenerator.connect.
  repeat first [known (connect_from_quiet topo _ _) | keeps_step]; done.
Qed.

(** The handler of a failed operation counts the failure, logs, pauses for
    two seconds and connects again. *)
Lemma failed_then_reconnect l (w : World LoadGenerator.t) :
  let h := log l;;;
           modify_self (LoadGenerator.set_stats LoadGenerator.incr_failed_ops);;;
           LoadGenerator.reconnect topo;;; ret false in
  LoadGenerator.stats (self (after h w))
  = LoadGenerator.incr_failed_ops (LoadGenerator.stats (self w)) ∧
  (∃ evs, events h w = [Log l; Log LoadGenerator.ConnectionLost; Sleep 2] ++ evs) ∧
  result h w ≠ Ret true.
Proof.
  cbv zeta. unfold result, after, events.
  rewrite bind_log, bind_modify_self. unfold LoadGenerator.reconnect.
  rewrite bind_assoc, bind_log, bind_assoc, (bind_sleep 2) by reflexivity.
  cbv zeta. cbn [rng net naps clock store self].
  destruct (hd false (naps w)).
  - unfold prepend. cbn [fst snd app self LoadGenerator.set_stats LoadGenerator.stats].
    split; [reflexivity|]. split; [by exists []|]. intros [=].
  - match goal with
    | |- context [bind (LoadGenerator.connect topo) ?f ?w2] =>
        destruct (connect_then_false_quiet w2) as [Hs _];
        pose proof (result_then_ret (LoadGenerator.connect topo) false w2) as Hr;
        unfold same_stats, result, after in Hs, Hr; cbn [self] in Hs;
        destruct (bind (LoadGenerator.connect topo) f w2) as [[r w3] ev3]
    end.
    unfold prepend. cbn [fst snd app] in *.
    split; [exact Hs|]. split; [by eexists|].
    rewrite Hr. by destruct (LoadGenerator.connect topo _).1.1.
Qed.

Lemma then_counted_result (m : LoadGenerator.Run unit) f g (w : World LoadGenerator.t) b :
  result (m;;; modify_self (LoadGenerator.set_stats f);;;
          modify_self (LoadGenerator.set_stats g);;; ret true) w = Ret b →
  b = true.
Proof.
  unfold result. rewrite bind_unfold. destruct (result m w); [|intros [=]].
  cbn [fst]. unfold result. rewrite !bind_modify_self, ret_run. cbn [fst].
  by intros [= <-].
Qed.

Lemma read_body_true (w : World LoadGenerator.t) b :
  result (LoadGenerator.read_body topo) w = Ret b → b = true.
Proof.
  unfold result, LoadGenerator.read_body.
  destruct w as [rs ns zs cs st me].
  repeat run_step. apply then_counted_result.
Qed.

Lemma write_body_true (w : World LoadGenerator.t) b :
  result (LoadGenerator.write_body topo) w = Ret b → b = true.
Proof.
  unfold result, LoadGenerator.write_body.
  destruct w as [rs ns zs cs st me].
  repeat run_step. apply then_counted_result.
Qed.

Lemma perform_outcome (body : LoadGenerator.Run bool) (l : exn → LoadGenerator.line)
    (counted : LoadGenerator.Stats) (w : World LoadGenerator.t) :
  (∀ b, result body w = Ret b → b = true) →
  match result body w with
  | Ret _ => LoadGenerator.stats (self (after body w)) = counted
  | Raise _ => LoadGenerator.stats (self (after body w)) = LoadGenerator.stats (self w)
  end →
  let m := try_except body
             (λ e, if is_RedisError e then Some (
                log (l e);;;
                modify_self (LoadGenerator.set_stats LoadGenerator.incr_failed_ops);;;
                LoadGenerator.reconnect topo;;;
                ret false)
              else None) in
  let s := LoadGenerator.stats (self w) in
  let s' := LoadGenerator.stats (self (after m w)) in
  match result m w with
  | Ret true => s' = counted
  | Ret false =>
      s' = LoadGenerator.incr_failed_ops s ∧
      ∃ evs evs', events m w
        = evs ++ [Log (l RedisError); Log LoadGenerator.ConnectionLost; Sleep 2] ++ evs'
  | Raise _ => s' = s ∨ s' = LoadGenerator.incr_failed_ops s
  end.
Proof.
  intros Htrue Hs. cbv zeta.
  unfold result, after, events in *. rewrite try_except_unfold.
  unfold result, after, events.
  destruct (body w) as [[[b|e] w1] ev1]; cbn [fst snd] in *.
  - by rewrite (Htrue b eq_refl).
  - destruct e; cbv beta iota delta [is_RedisError]; cbn [fst snd]; try (by left).
    destruct (failed_then_reconnect (l RedisError) w1) as (Hf & [evs Hev] & Hr).
    cbv zeta in Hf, Hev, Hr. unfold result, after, events in Hf, Hev, Hr.
    rewrite Hs in Hf.
    match goal with
    | |- context [bind (log (l RedisError)) ?f w1] =>
        destruct (bind (log (l RedisError)) f w1) as [[r w2] ev2]
    end.
    cbn [fst snd] in *.
    destruct r as [[]|e].
    + done.
    + split; [exact Hf|]. exists ev1, evs. by rewrite Hev.
    + by right.
Qed.
End ClassOutcome.

(** X4. Class scripts: [perform_read] and [perform_write] return [True]
    exactly when one more read (write) and one more success are counted;
    they return [False] after a [RedisError], with one more failure counted
    and nothing else, and then the failure line is followed by the
    reconnection: its warning and its pause of two seconds.  When they
    raise, the counters are as before or count one more failure. *)
Theorem perform_outcomes topo (w : World LoadGenerator.t) :
  let s := LoadGenerator.stats (self w) in
  (let m := LoadGenerator.perform_read topo in
   let s' := LoadGenerator.stats (self (after m w)) in
   match result m w with
   | Ret true => s' = LoadGenerator.incr_successful_ops (LoadGenerator.incr_reads s)
   | Ret false =>
       s' = LoadGenerator.incr_failed_ops s ∧
       ∃ evs evs', events m w
         = evs ++ [Log (LoadGenerator.ReadFailed RedisError);
                   Log LoadGenerator.ConnectionLost; Sleep 2] ++ evs'
   | Raise _ => s' = s ∨ s' = LoadGenerator.incr_failed_ops s
   end) ∧
  (let m := LoadGenerator.perform_write topo in
   let s' := LoadGenerator.stats (self (after m w)) in
   match result m w with
   | Ret true => s' = LoadGenerator.incr_successful_ops (LoadGenerator.incr_writes s)
   | Ret false =>
       s' = LoadGenerator.incr_failed_ops s ∧
       ∃ evs evs', events m w
         = evs ++ [Log (LoadGenerator.WriteFailed RedisError);
                   Log LoadGenerator.ConnectionLost; Sleep 2] ++ evs'
   | Raise _ => s' = s ∨ s' = LoadGenerator.incr_failed_ops s
   end).
Proof.
  cbv zeta. split.
  - apply (perform_outcome topo (LoadGenerator.read_body topo) LoadGenerator.ReadFailed).
    + apply read_body_true.
    + exact (proj1 (read_body_stats topo w)).
  - apply (perform_outcome topo (LoadGenerator.write_body topo) LoadGenerator.WriteFailed).
    + apply write_body_true.
    + exact (proj1 (write_body_stats topo w)).
Qed.

Section DragonflyOutcome.

(** An inner [try] body: a command and then [successful_operations += 1]. *)
Lemma then_success_unlogged (m : Dragonfly.Run unit) (w : World Dragonfly.globals) :
  keeps same_counters unlogged m →
  let body := m;;; modify_self (Dragonfly.set_stats Dragonfly.incr_successful_operations) in
  match result body w with
  | Ret _ => Dragonfly.stats (self (after body w))
             = Dragonfly.incr_successful_operations (Dragonfly.stats (self w))
  | Raise _ => Dragonfly.stats (self (after body w)) = Dragonfly.stats (self w)
  end ∧ Forall unlogged (events body w).
Proof.
  intros Hm body. destruct (Hm w) as [Hs He]. subst body.
  unfold result, after, events in *. rewrite bind_unfold.
  unfold result, after, events in *.
  destruct (m w) as [[[[]|e] w1] ev1]; cbn [fst snd] in *; [|done].
  unfold modify_self. cbn [fst snd self Dragonfly.set_stats Dragonfly.stats].
  rewrite Hs. split; [done|]. by rewrite app_nil_r.
Qed.

Lemma op_outcome (body : Dragonfly.Run unit) (errors : Dragonfly.Stats → Dragonfly.Stats)
    (w : World Dragonfly.globals) :
  match result body w with
  | Ret _ => Dragonfly.stats (self (after body w))
             = Dragonfly.incr_successful_operations (Dragonfly.stats (self w))
  | Raise _ => Dragonfly.stats (self (after body w)) = Dragonfly.stats (self w)
  end ∧ Forall unlogged (events body w) →
  let m := try_except body
             (λ e, if is_RedisError e then Some (
                modify_self (Dragonfly.set_stats Dragonfly.incr_failed_operations);;;
                modify_self (Dragonfly.set_stats errors))
              else None) in
  let s := Dragonfly.stats (self w) in
  let s' := Dragonfly.stats (self (after m w)) in
  logged (events m w) = [] ∧
  match result m w with
  | Ret _ => s' = Dragonfly.incr_successful_operations s ∨
             s' = errors (Dragonfly.incr_failed_operations s)
  | Raise e => e ≠ RedisError ∧ s' = s
  end.
Proof.
  intros [Hs He]. cbv zeta.
  unfold result, after, events in *. rewrite try_except_unfold.
  unfold result, after, events.
  destruct (body w) as [[[[]|e] w1] ev1]; cbn [fst snd] in *.
  - split; [by apply unlogged_logged|by left].
  - destruct e; cbv beta iota delta [is_RedisError]; cbn [fst snd];
      try (split; [by apply unlogged_logged|by split]).
    rewrite bind_modify_self. unfold modify_self.
    cbn [fst snd self Dragonfly.set_stats Dragonfly.stats]. rewrite app_nil_r, Hs.
    split; [by apply unlogged_logged|by right].
Qed.
(** The same, told by how the body of the [try] ended. *)
Lemma op_outcome_by_body (body : Dragonfly.Run unit)
    (errors : Dragonfly.Stats → Dragonfly.Stats) (w : World Dragonfly.globals) :
  match result body w with
  | Ret _ => Dragonfly.stats (self (after body w))
             = Dragonfly.incr_successful_operations (Dragonfly.stats (self w))
  | Raise _ => Dragonfly.stats (self (after body w)) = Dragonfly.stats (self w)
  end ∧ Forall unlogged (events body w) →
  let m := try_except body
             (λ e, if is_RedisError e then Some (
                modify_self (Dragonfly.set_stats Dragonfly.incr_failed_operations);;;
                modify_self (Dragonfly.set_stats errors))
              else None) in
  let s := Dragonfly.stats (self w) in
  let s' := Dragonfly.stats (self (after m w)) in
  logged (events m w) = [] ∧
  match result body w with
  | Ret _ => result m w = Ret tt ∧ s' = Dragonfly.incr_successful_operations s
  | Raise RedisError =>
      result m w = Ret tt ∧ s' = errors (Dragonfly.incr_failed_operations s)
  | Raise e => result m w = Raise e ∧ s' = s
  end.
Proof.
  intros [Hs He]. cbv zeta.
  unfold result, after, events in *. rewrite try_except_unfold.
  unfold result, after, events.
  destruct (body w) as [[[[]|e] w1] ev1]; cbn [fst snd] in *.
  - split; [by apply unlogged_logged|by split].
  - destruct e; cbv beta iota delta [is_RedisError]; cbn [fst snd];
      try (split; [by apply unlogged_logged|by split]).
    rewrite bind_modify_self. unfold modify_self.
    cbn [fst snd self Dragonfly.set_stats Dragonfly.stats]. rewrite app_nil_r, Hs.
    split; [by apply unlogged_logged|by split].
Qed.

(** A read asks the store once: how its [try] body ends is what the world
    answers to that call. *)
Lemma read_try_reply client op (w : World Dragonfly.globals) :
  op ∈ read_subtypes →
  result (Dragonfly.read_try client op) w = reply (hd NetOk (net w)).
Proof.
  observe (Dragonfly.read_try client op) w.
  intros r w' evs.
  destruct w as [rs ns zs cs st me]. intros E Hop; revert E.
  unfold Dragonfly.read_try, Dragonfly.get_random_int. cbn [net].
  unfold read_subtypes in Hop. sift Hop; subst op; decide_literals.
  all: repeat first [run_step | progress (unfold answered; cbn [Redis.apply])
                    | progress answer].
  all: settle; rewrite ?bind_modify_self, ?ret_run; unfold modify_self;
    cbn [prepend fst snd app]; conclude; reflexivity.
Qed.

(** A write that the world refuses at its first call ends the same way. *)
Lemma write_try_reply client op (w : World Dragonfly.globals) :
  op ∈ write_subtypes → hd NetOk (net w) ≠ NetOk →
  result (Dragonfly.write_try client op) w = reply (hd NetOk (net w)).
Proof.
  observe (Dragonfly.write_try client op) w.
  intros r w' evs.
  destruct w as [rs ns zs cs st me]. intros E Hop; revert E.
  unfold Dragonfly.write_try, Dragonfly.get_random_int. cbn [net].
  unfold write_subtypes in Hop. sift Hop; subst op; decide_literals.
  all: repeat first [run_step
                    | progress (unfold answered; cbn [rng net naps clock store self])].
  all: destruct (hd NetOk ns); [by intros _ []| | |]; conclude; reflexivity.
Qed.
End DragonflyOutcome.

(** X5. Dragonfly script: the inner [try] of a read or of a write prints
    nothing, and what it counts follows how its body (the command, then
    [successful_operations += 1]) ended.  When the body returned, the
    [try] returns with one more success counted and nothing else changed;
    when the body raised a [RedisError], it returns with one more failure
    and one more read (write) error counted; every other exception passes
    through with the counters as they were.  The body of a read returns
    exactly when the network call goes through and raises what the call
    raises; the body of a write whose first call is refused raises what
    that call raises. *)
Theorem dragonfly_op_outcomes client op (w : World Dragonfly.globals) :
  let s := Dragonfly.stats (self w) in
  (let m := Dragonfly.read_op client op in
   let s' := Dragonfly.stats (self (after m w)) in
   logged (events m w) = [] ∧
   match result (Dragonfly.read_try client op) w with
   | Ret _ => result m w = Ret tt ∧ s' = Dragonfly.incr_successful_operations s
   | Raise RedisError =>
       result m w = Ret tt ∧
       s' = Dragonfly.incr_read_errors (Dragonfly.incr_failed_operations s)
   | Raise e => result m w = Raise e ∧ s' = s
   end ∧
   (op ∈ read_subtypes →
    result (Dragonfly.read_try client op) w = reply (hd NetOk (net w)))) ∧
  (let m := Dragonfly.write_op client op in
   let s' := Dragonfly.stats (self (after m w)) in
   logged (events m w) = [] ∧
   match result (Dragonfly.write_try client op) w with
   | Ret _ => result m w = Ret tt ∧ s' = Dragonfly.incr_successful_operations s
   | Raise RedisError =>
       result m w = Ret tt ∧
       s' = Dragonfly.incr_write_errors (Dragonfly.incr_failed_operations s)
   | Raise e => result m w = Raise e ∧ s' = s
   end ∧
   (op ∈ write_subtypes → hd NetOk (net w) ≠ NetOk →
    result (Dragonfly.write_try client op) w = reply (hd NetOk (net w)))).
Proof.
  cbv zeta. split.
  - apply and_assoc. split; [|apply read_try_reply].
    apply (op_outcome_by_body (Dragonfly.read_try client op) Dragonfly.incr_read_errors).
    apply then_success_unlogged. unfold Dragonfly.get_random_int.
    repeat keeps_step; done.
  - apply and_assoc. split; [|apply write_try_reply].
    apply (op_outcome_by_body (Dragonfly.write_try client op) Dragonfly.incr_write_errors).
    apply then_success_unlogged. unfold Dragonfly.get_random_int.
    repeat keeps_step; done.
Qed.

(** A read through the second replica that the world answers with a
    [RedisError]: a failure and a read error are counted. *)
Lemma dragonfly_op_outcomes_witness :
  result (Dragonfly.read_try Replica2 "get")
         (mkWorld [] [NetRedisError] [] [] ∅ Dragonfly.blank)
  = Raise RedisError.
Proof.
  apply (proj2 (proj2 (proj1 (dragonfly_op_outcomes Replica2 "get"
                  (mkWorld [] [NetRedisError] [] [] ∅ Dragonfly.blank))))).
  unfold read_subtypes. set_solver.
Defined.

(** ** How the load loop ends *)

(** *** Without an interrupt *)

Section Uninterrupted.
Context {St L : Type}.
Implicit Types w : World St.
#[local] Abbreviation U := (uninterrupted (St := St) (L := L)).

Lemma undisturbed_nap w : undisturbed w → hd false (naps w) = false.
Proof. intros [_ Hn]. destruct Hn; [reflexivity|assumption]. Qed.

Lemma undisturbed_answer w : undisturbed w → hd NetOk (net w) ≠ NetInterrupt.
Proof. intros [Hn _]. destruct Hn; [discriminate|assumption]. Qed.

Lemma undisturbed_after_nap w :
  undisturbed w →
  undisturbed (mkWorld (rng w) (net w) (tl (naps w)) (clock w) (store w) (self w)).
Proof. intros [Hn Hz]. split; [exact Hn|]. by apply Forall_tl. Qed.

Lemma undisturbed_after_answer w st :
  undisturbed w →
  undisturbed (mkWorld (rng w) (tl (net w)) (naps w) (clock w) st (self w)).
Proof. intros [Hn Hz]. split; [|exact Hz]. by apply Forall_tl. Qed.

Lemma calm_ret {A} (a : A) : U (ret a).
Proof. intros w Hw. split; [exact Hw|discriminate]. Qed.

Lemma calm_raise {A} e : e ≠ KeyboardInterrupt → U (raise (A := A) e).
Proof. intros He w Hw. split; [exact Hw|]. intros [= E]. exact (He E). Qed.

Lemma calm_bind {A B} (m : M St L A) (f : A → M St L B) :
  U m → (∀ a, U (f a)) → U (bind m f).
Proof.
  intros Hm Hf w Hw. destruct (Hm w Hw) as [Hw1 Hr1].
  unfold result, after. rewrite bind_unfold.
  destruct (result m w) as [a|e]; cbn [fst snd]; [exact (Hf a _ Hw1)|].
  split; [exact Hw1|]. intros [= ->]. by apply Hr1.
Qed.

Lemma calm_try_except {A} (body : M St L A) handler :
  U body →
  (∀ e h, e ≠ KeyboardInterrupt → handler e = Some h → U h) →
  U (try_except body handler).
Proof.
  intros Hm Hh w Hw. destruct (Hm w Hw) as [Hw1 Hr1].
  unfold result, after. rewrite try_except_unfold.
  destruct (result body w) as [a|e]; cbn [fst snd]; [by split|].
  assert (e ≠ KeyboardInterrupt) as He by (intros ->; by apply Hr1).
  destruct (handler e) as [h|] eqn:Eh; cbn [fst snd]; [|by split].
  exact (Hh e h He Eh _ Hw1).
Qed.

Lemma calm_emit e : U (emit e).
Proof. intros w Hw. split; [exact Hw|discriminate]. Qed.

Lemma calm_log l : U (log l).
Proof. apply calm_emit. Qed.

Lemma calm_get_self : U get_self.
Proof. intros w Hw. split; [exact Hw|discriminate]. Qed.

Lemma calm_modify_self f : U (modify_self f).
Proof. intros w Hw. split; [exact Hw|discriminate]. Qed.

Lemma calm_random : U random.
Proof. intros w Hw. split; [exact Hw|discriminate]. Qed.

Lemma calm_time_time : U time_time.
Proof. intros w Hw. split; [exact Hw|discriminate]. Qed.

Lemma calm_float_div n : U (float_div n).
Proof.
  intros w Hw. unfold result, after, float_div.
  destruct (float_limit <=? Z.abs n); [by split|].
  destruct (n =? 0); by split.
Qed.

Lemma calm_sleep d : U (sleep d).
Proof.
  intros w Hw. unfold result, after, sleep.
  destruct (Qle_bool 0 d); [|by split].
  rewrite (undisturbed_nap w Hw). cbn [fst snd].
  split; [by apply undisturbed_after_nap|discriminate].
Qed.

Lemma calm_round_trip e : U (round_trip e).
Proof.
  intros w Hw. unfold result, after, round_trip.
  pose proof (undisturbed_answer w Hw) as Hne.
  destruct (hd NetOk (net w)); [| | |done]; cbn [fst snd].
  all: split; [by apply undisturbed_after_answer|discriminate].
Qed.

Lemma calm_commit c k : U (commit c k).
Proof.
  intros w Hw. unfold result, after, commit.
  destruct (writes_to_primary c); [|by split].
  destruct (Redis.apply k (store w)); by split.
Qed.

Lemma calm_call h k : U (call h k).
Proof.
  destruct h as [c|]; [|by apply calm_raise].
  apply calm_bind; [apply calm_round_trip|intros _; apply calm_commit].
Qed.

Lemma calm_randint a b : U (randint a b).
Proof. apply calm_bind; [apply calm_random|intros; apply calm_ret]. Qed.

Lemma calm_choice {A} (seq : list A) d : U (choice seq d).
Proof. apply calm_bind; [apply calm_random|intros; apply calm_ret]. Qed.

Lemma calm_choices {A} (population : list A) d k : U (choices population d k).
Proof.
  induction k as [|k IH]; cbn [choices]; [apply calm_ret|].
  apply calm_bind; [apply calm_choice|intros x].
  apply calm_bind; [exact IH|intros xs; apply calm_ret].
Qed.

Lemma calm_generate_random_string n : U (generate_random_string n).
Proof. apply calm_bind; [apply calm_choices|intros; apply calm_ret]. Qed.

Lemma calm_generate_random_key : U generate_random_key.
Proof. apply calm_bind; [apply calm_randint|intros; apply calm_ret]. Qed.

End Uninterrupted.

Ltac calm_handler :=
  let e := fresh "e" in let h := fresh "h" in
  let He := fresh "He" in let Hh := fresh "Hh" in
  intros e h He Hh; destruct e; try (by destruct He);
  cbv beta iota delta [is_Exception is_RedisError] in Hh; simplify_eq.

Ltac calm_step :=
  lazymatch goal with
  | |- uninterrupted (ret _) => apply calm_ret
  | |- uninterrupted (raise _) => apply calm_raise; discriminate
  | |- uninterrupted get_self => apply calm_get_self
  | |- uninterrupted random => apply calm_random
  | |- uninterrupted time_time => apply calm_time_time
  | |- uninterrupted (randint _ _) => apply calm_randint
  | |- uninterrupted (choice _ _) => apply calm_choice
  | |- uninterrupted (generate_random_string _) => apply calm_generate_random_string
  | |- uninterrupted generate_random_key => apply calm_generate_random_key
  | |- uninterrupted (float_div _) => apply calm_float_div
  | |- uninterrupted (bind _ _) => apply calm_bind; [|intros ?]
  | |- uninterrupted (try_except _ _) => apply calm_try_except; [|calm_handler]
  | |- uninterrupted (log _) => apply calm_log
  | |- uninterrupted (emit _) => apply calm_emit
  | |- uninterrupted (sleep _) => apply calm_sleep
  | |- uninterrupted (round_trip _) => apply calm_round_trip
  | |- uninterrupted (call _ _) => apply calm_call
  | |- uninterrupted (commit _ _) => apply calm_commit
  | |- uninterrupted (modify_self _) => apply calm_modify_self
  | |- uninterrupted (if ?b then _ else _) => destruct b
  | |- uninterrupted (match ?x with _ => _ end) => destruct x
  end.

(** Close a goal with a lemma proved for the same function. *)
Tactic Notation "calmed" open_constr(lem) :=
  lazymatch goal with
  | |- uninterrupted ?m =>
      let hm := head_of m in
      lazymatch type of lem with
      | uninterrupted ?m' => let hm' := head_of m' in constr_eq hm hm'; exact lem
      end
  end.

(** What an iteration does when its body ends without an interrupt: it
    goes on, after the one-second pause if the body raised. *)
Lemma handled_without_interrupt {St L} (body : M St L unit)
    (handler : exn → option (M St L flow)) (l : exn → L) (w : World St) :
  uninterrupted body →
  (∀ e, e ≠ KeyboardInterrupt →
        handler e = Some (log (l e);;; sleep 1;;; ret Continue)) →
  undisturbed w →
  let m := try_except (body;;; ret Continue) handler in
  result m w = Ret Continue ∧ undisturbed (after m w).
Proof.
  intros Hbody Hh Hw. cbv zeta. destruct (Hbody w Hw) as [Hw1 Hr1].
  unfold result at 1, after at 1. rewrite try_except_unfold.
  rewrite result_then_ret, after_then_ret.
  destruct (result body w) as [[]|e]; cbn [fst snd]; [by split|].
  assert (e ≠ KeyboardInterrupt) as He by (intros ->; by apply Hr1).
  rewrite (Hh e He). cbn [fst snd].
  set (w1 := after body w) in *. clearbody w1.
  unfold result, after. rewrite bind_log, (bind_sleep 1) by reflexivity. cbv zeta.
  rewrite (undisturbed_nap w1 Hw1), ret_run. cbn [fst snd prepend].
  split; [reflexivity|by apply undisturbed_after_nap].
Qed.

(** *** The class scripts *)

Section ClassExit.
Variables (ops ratio : Z) (topo : LoadGenerator.topology).

Lemma class_exit_app r evs evs0 : class_exit r evs → r ≠ Ret Continue →
  class_exit r (evs0 ++ evs).
Proof.
  destruct r as [[]|e]; [done| |done].
  intros [evs' ->] _. exists (evs0 ++ evs'). by rewrite app_assoc.
Qed.

Lemma class_tick_exit (w : World LoadGenerator.t) :
  class_exit (result (LoadGenerator.tick ops ratio topo) w)
             (events (LoadGenerator.tick ops ratio topo) w).
Proof.
  unfold LoadGenerator.tick, result, events. rewrite try_except_unfold.
  rewrite result_then_ret.
  destruct (result (LoadGenerator.tick_body ops ratio topo) w) as [[]|e];
    cbn [fst snd]; [exact I|].
  set (w1 := after _ w). set (ev1 := events _ w). clearbody w1 ev1.
  destruct e; cbv iota; unfold result, events.
  6: { rewrite bind_log, ret_run. cbn [fst snd prepend app]. by exists ev1. }
  all: rewrite bind_log, (bind_sleep 1) by reflexivity; cbv zeta.
  all: destruct (hd false (naps w1)); rewrite ?ret_run; cbn [fst snd prepend app];
    [reflexivity|exact I].
Qed.

Lemma class_loop_exit fuel (w : World LoadGenerator.t) :
  class_exit (result (LoadGenerator.loop ops ratio topo fuel) w)
             (events (LoadGenerator.loop ops ratio topo fuel) w).
Proof.
  revert w; induction fuel as [|fuel IH]; intros w; cbn [LoadGenerator.loop];
    [exact I|].
  unfold result, events. rewrite bind_unfold.
  pose proof (class_tick_exit w) as Htick.
  destruct (result (LoadGenerator.tick ops ratio topo) w) as [[]|e]; cbn [fst snd].
  - specialize (IH (after (LoadGenerator.tick ops ratio topo) w)).
    destruct (result (LoadGenerator.loop ops ratio topo fuel) _) as [[]|e] eqn:Er;
      [exact I| |]; apply class_exit_app; done.
  - rewrite app_nil_r. exact Htick.
  - exact Htick.
Qed.

Lemma connect_from_uninterrupted todo attempt :
  uninterrupted (LoadGenerator.connect_from topo todo attempt).
Proof.
  revert attempt; induction todo as [|todo IH]; intros attempt;
    cbn [LoadGenerator.connect_from]; [calm_step|].
  unfold LoadGenerator.connect_attempt, LoadGenerator.attr. destruct topo.
  all: repeat first [calmed (IH _) | calm_step].
Qed.

Lemma connect_uninterrupted : uninterrupted (LoadGenerator.connect topo).
Proof. apply connect_from_uninterrupted. Qed.

Lemma reconnect_uninterrupted : uninterrupted (LoadGenerator.reconnect topo).
Proof.
  unfold LoadGenerator.reconnect.
  repeat first [calmed connect_uninterrupted | calm_step].
Qed.

Lemma class_tick_body_uninterrupted :
  uninterrupted (LoadGenerator.tick_body ops ratio topo).
Proof.
  unfold LoadGenerator.tick_body, LoadGenerator.perform_read, LoadGenerator.perform_write,
    LoadGenerator.read_body, LoadGenerator.write_body, LoadGenerator.report_stats,
    LoadGenerator.attr.
  pose proof reconnect_uninterrupted as Hre.
  repeat first [calmed Hre | calm_step].
Qed.

Lemma class_tick_calm (w : World LoadGenerator.t) :
  undisturbed w →
  result (LoadGenerator.tick ops ratio topo) w = Ret Continue ∧
  undisturbed (after (LoadGenerator.tick ops ratio topo) w).
Proof.
  intros Hw. unfold LoadGenerator.tick.
  apply (handled_without_interrupt _ _ LoadGenerator.UnexpectedError); [| |exact Hw].
  - apply class_tick_body_uninterrupted.
  - by intros [].
Qed.

Lemma class_loop_calm fuel (w : World LoadGenerator.t) :
  undisturbed w →
  result (LoadGenerator.loop ops ratio topo fuel) w = Ret Continue.
Proof.
  revert w; induction fuel as [|fuel IH]; intros w Hw; cbn [LoadGenerator.loop];
    [reflexivity|].
  destruct (class_tick_calm w Hw) as [Hr Hw1].
  unfold result. rewrite bind_unfold, Hr. cbn [fst]. by apply IH.
Qed.
End ClassExit.

(** X6. Class scripts: how [run] ends.  It returns only by the [break] of
    its [KeyboardInterrupt] handler, and then "Shutting down" is the last
    thing it logs: no final statistics line follows.  No exception of an
    iteration that derives from [Exception] leaves it: what [run] raises
    is [KeyboardInterrupt], or the [OverflowError] of the division by a
    rate of [float_limit] or more, raised right after the "Starting" line
    and before the first iteration.  With a smaller rate and no interrupt
    [run] does not end: it is still in its loop however long it is
    watched. *)
Theorem class_run_ends_by_interrupt ops ratio topo fuel (w : World LoadGenerator.t) :
  let m := LoadGenerator.run ops ratio topo fuel in
  match result m w with
  | Ret Continue => True
  | Ret Break => ∃ evs, events m w = evs ++ [Log LoadGenerator.ShuttingDown]
  | Raise e =>
      e = KeyboardInterrupt ∨
      e = OverflowError ∧ float_limit ≤ ops ∧ events m w = [Log LoadGenerator.Starting]
  end ∧
  (ops < float_limit → undisturbed w → result m w = Ret Continue).
Proof.
  cbv zeta. unfold result, events.
  destruct (run_cases ops ratio topo fuel w) as [[Hlim E]|[Hlim E]]; rewrite E;
    cbn [fst snd prepend].
  - pose proof (class_loop_exit ops ratio topo fuel w) as Hloop.
    unfold result, events in Hloop. split.
    + destruct (LoadGenerator.loop ops ratio topo fuel w) as [[r w1] ev1].
      cbn [fst snd] in *.
      destruct r as [[]|e]; [exact I| |by left].
      apply (class_exit_app (Ret Break)); done.
    + intros _ Hw. exact (class_loop_calm ops ratio topo fuel w Hw).
  - split; [by right|]. intros Hlt. lia.
Qed.

Lemma class_run_ends_by_interrupt_witness :
  result (LoadGenerator.run 100 70 LoadGenerator.Cluster 3)
         (mkWorld [] [] [] [] ∅ (connected LoadGenerator.Cluster))
  = Ret Continue.
Proof.
  apply (proj2 (class_run_ends_by_interrupt 100 70 LoadGenerator.Cluster 3
                  (mkWorld [] [] [] [] ∅ (connected LoadGenerator.Cluster)))).
  - reflexivity.
  - split; constructor.
Defined.

(** *** The dragonfly script *)

Section DragonflyExit.
Variables (ratio : Z) (st : Q).

Lemma dragonfly_exit_app r evs evs0 s : dragonfly_exit r evs s → r ≠ Ret Continue →
  dragonfly_exit r (evs0 ++ evs) s.
Proof.
  destruct r as [[]|e]; [done| |done].
  intros [(evs' & shown & i & a & b & ->) ->] _. split; [|done].
  exists (evs0 ++ evs'), shown, i, a, b. by rewrite app_assoc.
Qed.

Lemma print_stats_run (w : World Dragonfly.globals) :
  ∃ a b, Dragonfly.print_stats w
         = (Ret tt,
            mkWorld (rng w) (net w) (naps w) (tl (clock w)) (store w)
              (Dragonfly.mkGlobals (Dragonfly.mkStats 0 0 0 0 0 0 0)
                 (Dragonfly.last_report_time (self w))),
            [Log (Dragonfly.StatsBlock (Dragonfly.stats (self w)) 10 a b)]).
Proof.
  unfold Dragonfly.print_stats. rewrite bind_time_time, bind_get_self, bind_log.
  cbn [rng net naps clock store self]. unfold modify_self, prepend.
  cbn [fst snd app rng net naps clock store self].
  by eexists _, _.
Qed.

Lemma dragonfly_tick_exit (w : World Dragonfly.globals) :
  dragonfly_exit (result (Dragonfly.tick ratio st) w) (events (Dragonfly.tick ratio st) w)
    (Dragonfly.stats (self (after (Dragonfly.tick ratio st) w))).
Proof.
  unfold Dragonfly.tick, result, after, events. rewrite try_except_unfold.
  rewrite result_then_ret.
  destruct (result (Dragonfly.tick_body ratio st) w) as [[]|e];
    cbn [fst snd]; [exact I|].
  set (w1 := after _ w). set (ev1 := events _ w). clearbody w1 ev1.
  destruct e; cbv iota; unfold result, after, events.
  6: { rewrite bind_log. destruct (print_stats_run w1) as (a & b & Hrun).
       erewrite bind_run; [|exact Hrun]. rewrite ret_run.
       cbn [fst snd prepend app self Dragonfly.stats].
       split; [|reflexivity]. by eexists ev1, _, _, _, _. }
  all: rewrite bind_log, (bind_sleep 1) by reflexivity; cbv zeta.
  all: destruct (hd false (naps w1)); rewrite ?ret_run; cbn [fst snd prepend app];
    [reflexivity|exact I].
Qed.

Lemma dragonfly_loop_exit fuel (w : World Dragonfly.globals) :
  dragonfly_exit (result (Dragonfly.loop ratio st fuel) w)
    (events (Dragonfly.loop ratio st fuel) w)
    (Dragonfly.stats (self (after (Dragonfly.loop ratio st fuel) w))).
Proof.
  revert w; induction fuel as [|fuel IH]; intros w; cbn [Dragonfly.loop];
    [exact I|].
  unfold result, after, events. rewrite bind_unfold.
  pose proof (dragonfly_tick_exit w) as Htick.
  destruct (result (Dragonfly.tick ratio st) w) as [[]|e]; cbn [fst snd].
  - specialize (IH (after (Dragonfly.tick ratio st) w)).
    destruct (result (Dragonfly.loop ratio st fuel) _) as [[]|e] eqn:Er;
      [exact I| |]; apply dragonfly_exit_app; done.
  - rewrite app_nil_r. exact Htick.
  - exact Htick.
Qed.

Lemma dragonfly_tick_body_uninterrupted :
  uninterrupted (Dragonfly.tick_body ratio st).
Proof.
  unfold Dragonfly.tick_body, Dragonfly.read_op, Dragonfly.write_op, Dragonfly.read_try,
    Dragonfly.write_try, Dragonfly.report_check, Dragonfly.print_stats,
    Dragonfly.get_random_int.
  repeat calm_step.
Qed.

Lemma dragonfly_tick_calm (w : World Dragonfly.globals) :
  undisturbed w →
  result (Dragonfly.tick ratio st) w = Ret Continue ∧
  undisturbed (after (Dragonfly.tick ratio st) w).
Proof.
  intros Hw. unfold Dragonfly.tick.
  apply (handled_without_interrupt _ _ Dragonfly.UnexpectedError); [| |exact Hw].
  - apply dragonfly_tick_body_uninterrupted.
  - by intros [].
Qed.

Lemma dragonfly_loop_calm fuel (w : World Dragonfly.globals) :
  undisturbed w → result (Dragonfly.loop ratio st fuel) w = Ret Continue.
Proof.
  revert w; induction fuel as [|fuel IH]; intros w Hw; cbn [Dragonfly.loop];
    [reflexivity|].
  destruct (dragonfly_tick_calm w Hw) as [Hr Hw1].
  unfold result. rewrite bind_unfold, Hr. cbn [fst]. by apply IH.
Qed.
End DragonflyExit.

(** X7. Dragonfly script: how the load loop ends.  It is left only by the
    [break] of its [KeyboardInterrupt] handler, and then the last things
    printed are the "Stopping" line and a final statistics block, after
    which the counters are zero.  No exception that derives from
    [Exception] leaves the loop, whatever the sleep interval: what it
    raises is [KeyboardInterrupt].  Without an interrupt the loop does not
    end: it is still running however long it is watched. *)
Theorem dragonfly_loop_ends_by_interrupt ratio st fuel (w : World Dragonfly.globals) :
  let m := Dragonfly.loop ratio st fuel in
  match result m w with
  | Ret Continue => True
  | Ret Break =>
      (∃ evs shown i a b,
         events m w
         = evs ++ [Log Dragonfly.Stopping; Log (Dragonfly.StatsBlock shown i a b)]) ∧
      Dragonfly.stats (self (after m w)) = Dragonfly.mkStats 0 0 0 0 0 0 0
  | Raise e => e = KeyboardInterrupt
  end ∧
  (undisturbed w → result m w = Ret Continue).
Proof.
  split; [exact (dragonfly_loop_exit ratio st fuel w)|].
  exact (dragonfly_loop_calm ratio st fuel w).
Qed.

Lemma dragonfly_loop_ends_by_interrupt_witness :
  result (Dragonfly.loop 70 (1 # 100) 3) (mkWorld [] [] [] [] ∅ Dragonfly.blank)
  = Ret Continue.
Proof.
  apply (proj2 (dragonfly_loop_ends_by_interrupt 70 (1 # 100) 3
                  (mkWorld [] [] [] [] ∅ Dragonfly.blank))).
  split; constructor.
Defined.

(** ** A report that is due *)

Lemma Qlt_bool_true x y : (x < y)%Q → Qlt_bool x y = true.
Proof. intros Hlt. unfold Qlt_bool. by rewrite (Qle_bool_false _ _ Hlt). Qed.

(** X8. When the clock reads 10 seconds or more past the start of the
    window, the report check reports and starts a new window.  The class
    scripts log one statistics line with the counters as they are and the
    rate over the time really elapsed, zero the counters and open the new
    window at the reading they compared.  The dragonfly script reads the
    clock twice more: the rate it prints is over the time up to the second
    reading, and the new window opens at the third. *)
Theorem report_after_interval :
  (∀ w : World LoadGenerator.t,
     let s := LoadGenerator.stats (self w) in
     let now := hd 0%Q (clock w) in
     (10 <= now - LoadGenerator.last_report s)%Q →
     LoadGenerator.report_stats w
     = (Ret tt,
        mkWorld (rng w) (net w) (naps w) (tl (clock w)) (store w)
          (LoadGenerator.set_stats (λ _, LoadGenerator.mkStats 0 0 0 0 0 now) (self w)),
        [Log (LoadGenerator.StatsLine s
                (inject_Z (LoadGenerator.total_ops s) / (now - LoadGenerator.last_report s))
                (if 0 <? LoadGenerator.total_ops s
                 then inject_Z (LoadGenerator.successful_ops s)
                      / inject_Z (LoadGenerator.total_ops s) * 100
                 else 0))])) ∧
  (∀ w : World Dragonfly.globals,
     let s := Dragonfly.stats (self w) in
     let start := Dragonfly.last_report_time (self w) in
     let second := hd 0%Q (tl (clock w)) in
     let third := hd 0%Q (tl (tl (clock w))) in
     (10 <= hd 0%Q (clock w) - start)%Q →
     Dragonfly.report_check w
     = (Ret tt,
        mkWorld (rng w) (net w) (naps w) (tl (tl (tl (clock w)))) (store w)
          (Dragonfly.mkGlobals (Dragonfly.mkStats 0 0 0 0 0 0 0) third),
        [Log (Dragonfly.StatsBlock s 10
                (if Qlt_bool 0 (second - start)
                 then inject_Z (Dragonfly.total_operations s) / (second - start)
                 else 0)
                (if 0 <? Dragonfly.total_operations s
                 then inject_Z (Dragonfly.successful_operations s)
                      / inject_Z (Dragonfly.total_operations s) * 100
                 else 0))])).
Proof.
  split; intros w; cbv zeta; intros Hdue.
  - unfold LoadGenerator.report_stats. rewrite bind_time_time, bind_get_self.
    cbn [rng net naps clock store self].
    rewrite (proj2 (Qle_bool_iff _ _) Hdue).
    rewrite Qlt_bool_true by (eapply Qlt_le_trans; [|exact Hdue]; reflexivity).
    rewrite bind_log. unfold modify_self, prepend. reflexivity.
  - unfold Dragonfly.report_check. rewrite bind_time_time, bind_get_self.
    cbn [rng net naps clock store self].
    change (inject_Z Dragonfly.report_interval) with 10%Q.
    rewrite (proj2 (Qle_bool_iff _ _) Hdue).
    unfold Dragonfly.print_stats.
    rewrite bind_assoc, bind_time_time, bind_assoc, bind_get_self, bind_assoc, bind_log,
      bind_modify_self, bind_time_time.
    unfold modify_self, prepend. reflexivity.
Qed.

Lemma report_after_interval_witness :
  events LoadGenerator.report_stats old_window_class
  = [Log (LoadGenerator.StatsLine (LoadGenerator.mkStats 7 5 2 3 2 100)
            (7 / (111 - 100)) (5 / 7 * 100))] ∧
  self (after Dragonfly.report_check old_window_dragonfly)
  = Dragonfly.mkGlobals (Dragonfly.mkStats 0 0 0 0 0 0 0) 113.
Proof.
  split.
  - unfold events.
    rewrite (proj1 report_after_interval old_window_class); [reflexivity|].
    vm_compute. intros [=].
  - unfold after.
    rewrite (proj2 report_after_interval old_window_dragonfly); [reflexivity|].
    vm_compute. intros [=].
Defined.

(** ** Where commands go, and which exceptions occur *)

Section Guards.
Context {St L : Type} (I : St → Prop) (P : event L → Prop).
#[local] Abbreviation G := (guards I P).

Lemma guards_ret {A} (a : A) : G (ret a).
Proof. intros w Hw. split; [exact Hw|]. split; [constructor|exact Logic.I]. Qed.

Lemma guards_raise {A} e : from_outside e = true → G (raise (A := A) e).
Proof. intros He w Hw. split; [exact Hw|]. split; [constructor|exact He]. Qed.

Lemma guards_bind {A B} (m : M St L A) (f : A → M St L B) :
  G m → (∀ a, G (f a)) → G (bind m f).
Proof.
  intros Hm Hf w Hw. destruct (Hm w Hw) as (Hi & Hp & Hr).
  unfold result, after, events. rewrite bind_unfold.
  destruct (result m w) as [a|e]; cbn [fst snd]; [|by split].
  destruct (Hf a _ Hi) as (Hi' & Hp' & Hr').
  split; [exact Hi'|]. split; [by apply Forall_app_2|exact Hr'].
Qed.

Lemma guards_try_except {A} (body : M St L A) handler :
  G body →
  (∀ e, from_outside e = true →
        match handler e with Some h => G h | None => True end) →
  G (try_except body handler).
Proof.
  intros Hm Hh w Hw. destruct (Hm w Hw) as (Hi & Hp & Hr).
  unfold result, after, events. rewrite try_except_unfold.
  destruct (result body w) as [a|e]; cbn [fst snd]; [by split|].
  specialize (Hh e Hr). destruct (handler e) as [h|]; cbn [fst snd]; [|by split].
  destruct (Hh _ Hi) as (Hi' & Hp' & Hr').
  split; [exact Hi'|]. split; [by apply Forall_app_2|exact Hr'].
Qed.

Lemma guards_emit e : P e → G (emit e).
Proof.
  intros He w Hw. split; [exact Hw|]. split; [by constructor|exact Logic.I].
Qed.

Lemma guards_log l : P (Log l) → G (log l).
Proof. apply guards_emit. Qed.

Lemma guards_get_self : G get_self.
Proof. intros w Hw. split; [exact Hw|]. split; [constructor|exact Logic.I]. Qed.

Lemma guards_modify_self f : (∀ s, I s → I (f s)) → G (modify_self f).
Proof.
  intros Hf w Hw. split; [exact (Hf _ Hw)|]. split; [constructor|exact Logic.I].
Qed.

Lemma guards_random : G random.
Proof. intros w Hw. split; [exact Hw|]. split; [constructor|exact Logic.I]. Qed.

Lemma guards_time_time : G time_time.
Proof. intros w Hw. split; [exact Hw|]. split; [constructor|exact Logic.I]. Qed.

Lemma guards_sleep d : Qle_bool 0 d = true → P (Sleep d) → G (sleep d).
Proof.
  intros Hd Hp w Hw. unfold result, after, events. rewrite (sleep_run d w Hd).
  cbv zeta. destruct (hd false (naps w)); cbn [fst snd self].
  all: split; [exact Hw|]; split; [by constructor|done].
Qed.

Lemma guards_call c k : P (Cmd c k) → G (call (Some c) k).
Proof.
  intros Hp w Hw. unfold result, after, events. rewrite call_run. unfold answered.
  destruct (hd NetOk (net w)); cbn [fst snd self];
    try (split; [exact Hw|]; split; [by constructor|done]).
  destruct (writes_to_primary c); [destruct (Redis.apply k (store w))|].
  all: rewrite ?ret_run, ?prepend_triple; cbn [fst snd self app].
  all: split; [exact Hw|]; split; [by constructor|done].
Qed.

Lemma guards_round_trip e : P e → G (round_trip e).
Proof.
  intros Hp w Hw. unfold result, after, events, round_trip.
  destruct (hd NetOk (net w)); cbn [fst snd self].
  all: split; [exact Hw|]; split; [by constructor|done].
Qed.

Lemma guards_randint a b : G (randint a b).
Proof. apply guards_bind; [apply guards_random|intros; apply guards_ret]. Qed.

Lemma guards_choice {A} (seq : list A) d : G (choice seq d).
Proof. apply guards_bind; [apply guards_random|intros; apply guards_ret]. Qed.

Lemma guards_bind_choice {A B} (seq : list A) d (f : A → M St L B) :
  seq ≠ [] → (∀ x, x ∈ seq → G (f x)) → G (bind (choice seq d) f).
Proof.
  intros Hne Hf w Hw. unfold result, after, events. rewrite bind_choice.
  apply (Hf _ (choice_of_elem seq d _ Hne)). exact Hw.
Qed.

Lemma guards_generate_random_string n : G (generate_random_string n).
Proof.
  intros w Hw. unfold result, after, events.
  rewrite <- (bind_ret_r (generate_random_string n) w), bind_generate_random_string.
  split; [exact Hw|]. split; [constructor|exact Logic.I].
Qed.

Lemma guards_bind_ret {A B} (a : A) (f : A → M St L B) : G (f a) → G (bind (ret a) f).
Proof.
  intros Hf w Hw. unfold result, after, events. rewrite bind_ret. exact (Hf w Hw).
Qed.

Lemma guards_generate_random_key : G generate_random_key.
Proof. apply guards_bind; [apply guards_randint|intros; apply guards_ret]. Qed.

(** After a guarded step, what follows may fail in a way [E] of its
    own. *)
Lemma guards_bind_tail {A B} (m : M St L A) (f : A → M St L B) (E : exn → Prop) :
  G m → (∀ e, from_outside e = true → E e) →
  (∀ a w, I (self w) →
     Forall P (events (f a) w) ∧
     match result (f a) w with Raise e => E e | Ret _ => True end) →
  ∀ w, I (self w) →
    Forall P (events (bind m f) w) ∧
    match result (bind m f) w with Raise e => E e | Ret _ => True end.
Proof.
  intros Hm HE Hf w Hw. destruct (Hm w Hw) as (Hi & Hp & Hr).
  unfold result, events. rewrite bind_unfold.
  destruct (result m w) as [a|e]; cbn [fst snd]; [|by split; [|apply HE]].
  destruct (Hf a _ Hi) as [Hp' Hr']. split; [by apply Forall_app_2|exact Hr'].
Qed.

End Guards.

Ltac guards_handler :=
  let e := fresh "e" in let He := fresh "He" in
  intros e He; destruct e; try discriminate He;
  cbv beta iota delta [is_Exception is_RedisError]; try exact I.

Ltac guards_step :=
  lazymatch goal with
  | |- guards _ _ (ret _) => apply guards_ret
  | |- guards _ _ (raise _) => apply guards_raise
  | |- guards _ _ get_self => apply guards_get_self
  | |- guards _ _ random => apply guards_random
  | |- guards _ _ time_time => apply guards_time_time
  | |- guards _ _ (randint _ _) => apply guards_randint
  | |- guards _ _ (choice _ _) => apply guards_choice
  | |- guards _ _ (generate_random_string _) => apply guards_generate_random_string
  | |- guards _ _ generate_random_key => apply guards_generate_random_key
  | |- guards _ _ (bind (ret _) _) => apply guards_bind_ret
  | |- guards _ _ (bind _ _) => apply guards_bind; [|intros ?]
  | |- guards _ _ (try_except _ _) => apply guards_try_except; [|guards_handler]
  | |- guards _ _ (log _) => apply guards_log
  | |- guards _ _ (emit _) => apply guards_emit
  | |- guards _ _ (sleep _) => apply guards_sleep
  | |- guards _ _ (round_trip _) => apply guards_round_trip
  | |- guards _ _ (call (Some _) _) => apply guards_call
  | |- guards _ _ (modify_self _) => apply guards_modify_self
  | |- guards _ _ (if ?b then _ else _) => destruct b
  | |- guards _ _ (match ?x with _ => _ end) => destruct x
  end.

(** Close a goal with a lemma proved for the same function. *)
Tactic Notation "granted" open_constr(lem) :=
  lazymatch goal with
  | |- guards _ _ ?m =>
      let hm := head_of m in
      lazymatch type of lem with
      | guards _ _ ?m' => let hm' := head_of m' in constr_eq hm hm'; exact lem
      end
  end.

Lemma bind_round_trip {St L B} ev (f : unit → M St L B) (w : World St) :
  bind (round_trip ev) f w
  = let w' := mkWorld (rng w) (tl (net w)) (naps w) (clock w) (store w) (self w) in
    match hd NetOk (net w) with
    | NetOk => prepend [ev] (f tt w')
    | NetRedisError => (Raise RedisError, w', [ev])
    | NetOtherError => (Raise OtherException, w', [ev])
    | NetInterrupt => (Raise KeyboardInterrupt, w', [ev])
    end.
Proof.
  unfold bind at 1, round_trip. destruct (hd NetOk (net w)); try reflexivity.
  unfold prepend. by destruct (f tt _) as [[? ?] ?].
Qed.

Section ClassOrder.
Variable topo : LoadGenerator.topology.
#[local] Abbreviation P := (in_order (variant_of topo) reported).

Lemma connect_attempt_sets_up attempt w :
  sets_up topo (LoadGenerator.connect_attempt topo attempt) w.
Proof.
  unfold sets_up, LoadGenerator.connect_attempt, result, after, events.
  destruct w as [rs ns zs cs st me]. destruct topo.
  - rewrite bind_log, bind_round_trip. cbv zeta. cbn [rng net naps clock store self].
    destruct (hd NetOk ns); cbn [fst snd prepend app self];
      try (split; [by repeat constructor|by split]).
    repeat run_step.
    cbv beta iota delta [LoadGenerator.set_cluster LoadGenerator.cluster].
    repeat run_step. answer; settle; cbn [fst snd prepend app self];
      try (split; [by repeat constructor|by split]).
    all: repeat run_step;
      cbv beta iota delta [LoadGenerator.set_cluster LoadGenerator.cluster];
      repeat run_step; answer; settle; cbn [fst snd prepend app self];
      try (split; [by repeat constructor|by split]).
  - repeat run_step.
    cbv beta iota delta [LoadGenerator.set_sentinel LoadGenerator.set_master
      LoadGenerator.set_slave LoadGenerator.sentinel LoadGenerator.master
      LoadGenerator.slave LoadGenerator.cluster].
    repeat run_step.
    cbv beta iota delta [LoadGenerator.set_sentinel LoadGenerator.set_master
      LoadGenerator.set_slave LoadGenerator.sentinel LoadGenerator.master
      LoadGenerator.slave LoadGenerator.cluster].
    repeat run_step.
    cbv beta iota delta [LoadGenerator.set_sentinel LoadGenerator.set_master
      LoadGenerator.set_slave LoadGenerator.sentinel LoadGenerator.master
      LoadGenerator.slave LoadGenerator.cluster].
    repeat run_step.
    answer; settle; cbn [fst snd prepend app self];
      try (split; [by repeat constructor|by split]).
Qed.

Lemma connect_from_sets_up todo attempt w :
  attempt + Z.of_nat todo = 10 → 0 ≤ attempt → (0 < todo)%nat →
  sets_up topo (LoadGenerator.connect_from topo todo attempt) w.
Proof.
  revert attempt w; induction todo as [|todo IH]; intros attempt w Hsum Hpos Htodo;
    [lia|].
  unfold sets_up, result, after, events. rewrite connect_from_S. cbv zeta.
  destruct (connect_attempt_sets_up attempt w) as (Hp1 & Hkeep1 & Hr1).
  destruct (result (LoadGenerator.connect_attempt topo attempt) w) as [[]|e];
    cbn [fst snd]; [by split|].
  assert (Forall P [Log (LoadGenerator.AttemptFailed (attempt + 1) e);
                    Log (LoadGenerator.Retrying 5); Sleep 5]) as Hp2
    by (repeat constructor; exact Hr1).
  assert (Forall P [Log (LoadGenerator.AttemptFailed (attempt + 1) e);
                    Log LoadGenerator.MaxRetriesReached]) as Hp3
    by (repeat constructor; exact Hr1).
  destruct (is_Exception e); [|by split].
  destruct (attempt <? 9) eqn:Ha; cbn [fst snd];
    [|by (split; [apply Forall_app_2|split])].
  apply Z.ltb_lt in Ha.
  destruct (hd false (naps _)); cbn [fst snd self];
    [by (split; [apply Forall_app_2|split])|].
  match goal with
  | |- context [LoadGenerator.connect_from topo todo ?a ?w2] =>
      destruct (IH a w2 ltac:(lia) ltac:(lia) ltac:(lia)) as (Hp4 & Hkeep4 & Hr4);
      revert Hp4 Hkeep4 Hr4; unfold result, after, events, prepend;
      destruct (LoadGenerator.connect_from topo todo a w2) as [[r w3] ev3]
  end.
  cbn [fst snd self]. intros Hp4 Hkeep4 Hr4.
  split; [by repeat apply Forall_app_2|]. split; [|exact Hr4].
  intros Hready. apply Hkeep4, Hkeep1, Hready.
Qed.

Lemma connect_guards : guards (ready topo) P (LoadGenerator.connect topo).
Proof.
  intros w Hw. unfold LoadGenerator.connect.
  change (Z.to_nat LoadGenerator.max_retries) with 10%nat.
  destruct (connect_from_sets_up 10 0 w ltac:(lia) ltac:(lia) ltac:(lia))
    as (Hp & Hkeep & Hr).
  split; [exact (Hkeep Hw)|]. split; [exact Hp|].
  by destruct (result _ w).
Qed.
End ClassOrder.

Lemma guards_bind_attr I (Q : event LoadGenerator.line → Prop) h c {B}
    (f : client → LoadGenerator.Run B) :
  (∀ s, I s → h s = Some c) → guards I Q (f c) →
  guards I Q (bind (LoadGenerator.attr h) f).
Proof.
  intros Hh Hf w Hw. unfold result, after, events. rewrite bind_attr, (Hh _ Hw).
  exact (Hf w Hw).
Qed.

Lemma class_sleep_time_nonneg ops : Qle_bool 0 (LoadGenerator.sleep_time ops) = true.
Proof.
  unfold LoadGenerator.sleep_time. destruct (0 <? ops) eqn:Hops; [|reflexivity].
  apply Z.ltb_lt in Hops. apply Qle_bool_iff.
  apply Qmult_le_0_compat; [done|]. apply Qinv_le_0_compat.
  unfold Qle. cbn. lia.
Qed.

Ltac class_step :=
  lazymatch goal with
  | |- guards _ _ (bind (LoadGenerator.attr _) _) =>
      eapply guards_bind_attr;
      [let s := fresh "s" in let Hs := fresh "Hs" in
       intros s Hs; first [exact Hs | exact (proj1 Hs) | exact (proj2 Hs)]|]
  | |- _ => guards_step
  end.

Ltac class_side :=
  first [ exact I | reflexivity | assumption | apply class_sleep_time_nonneg
        | let s := fresh "s" in let Hs := fresh "Hs" in intros s Hs; exact Hs ].

#[local] Abbreviation Ordered topo :=
  (guards (ready topo) (in_order (variant_of topo) reported)).

Lemma reconnect_guards topo : Ordered topo (LoadGenerator.reconnect topo).
Proof.
  unfold LoadGenerator.reconnect.
  repeat first [granted (connect_guards topo) | guards_step]; class_side.
Qed.

Lemma read_body_guards topo : Ordered topo (LoadGenerator.read_body topo).
Proof.
  unfold LoadGenerator.read_body. destruct topo.
  all: repeat class_step; class_side.
Qed.

Lemma write_body_guards topo : Ordered topo (LoadGenerator.write_body topo).
Proof.
  unfold LoadGenerator.write_body. destruct topo.
  all: repeat class_step; class_side.
Qed.

Lemma tick_guards ops ratio topo : Ordered topo (LoadGenerator.tick ops ratio topo).
Proof.
  unfold LoadGenerator.tick, LoadGenerator.tick_body, LoadGenerator.perform_read,
    LoadGenerator.perform_write, LoadGenerator.report_stats.
  repeat first [granted (read_body_guards topo) | granted (write_body_guards topo)
               | granted (reconnect_guards topo) | guards_step];
    try class_side.
  all: destruct topo; class_side.
Qed.

Lemma loop_guards ops ratio topo fuel :
  Ordered topo (LoadGenerator.loop ops ratio topo fuel).
Proof.
  induction fuel as [|fuel IH]; cbn [LoadGenerator.loop].
  - guards_step.
  - repeat first [granted (tick_guards ops ratio topo) | granted IH | guards_step].
Qed.

Lemma main_in_order ops ratio topo fuel (w : World LoadGenerator.t) :
  let m := LoadGenerator.main ops ratio topo fuel in
  Forall (in_order (variant_of topo) reported) (events m w) ∧
  match result m w with
  | Raise e => from_outside e = true ∨ e = OverflowError ∧ float_limit ≤ ops
  | Ret _ => True
  end.
Proof.
  cbv zeta. unfold LoadGenerator.main, LoadGenerator.init,
    LoadGenerator.connect, result, events.
  rewrite bind_assoc, bind_time_time, bind_assoc, bind_modify_self.
  cbn [rng net naps clock store self].
  change (Z.to_nat LoadGenerator.max_retries) with 10%nat.
  rewrite bind_unfold.
  match goal with
  | |- context [result (LoadGenerator.connect_from topo 10 0) ?w1] =>
      destruct (connect_from_sets_up topo 10 0 w1 ltac:(lia) ltac:(lia) ltac:(lia))
        as (Hp & _ & Hr);
      destruct (result (LoadGenerator.connect_from topo 10 0) w1) as [[]|e];
      cbn [fst snd]; [|by (split; [|left])];
      set (w2 := after (LoadGenerator.connect_from topo 10 0) w1) in *;
      set (ev2 := events (LoadGenerator.connect_from topo 10 0) w1) in *;
      clearbody w2 ev2
  end.
  unfold result, events.
  destruct (run_cases ops ratio topo fuel w2) as [[_ E]|[Hlim E]]; rewrite E;
    cbn [fst snd prepend].
  - destruct (loop_guards ops ratio topo fuel w2 Hr) as (_ & Hp' & Hr').
    unfold result, events in Hp', Hr'. split.
    + apply Forall_app_2; [exact Hp|]. by constructor.
    + destruct (LoadGenerator.loop ops ratio topo fuel w2).1.1; [exact I|by left].
  - split; [|by right]. apply Forall_app_2; [exact Hp|]. by repeat constructor.
Qed.

(** X9. Class scripts: in a run from [LoadGenerator()] on, every exception
    that is logged (a failed connection attempt, a failed read or write,
    an unexpected error) comes from outside the script: it was raised by a
    call of the client library or is the interrupt.  So does the exception
    that ends the run, with one exception of the script's own: the
    [OverflowError] of the division in [run], for a rate of [float_limit]
    or more.  Otherwise the script itself never fails: no handle is used
    before [connect] has set it, and no sleep is given a negative
    length. *)
Theorem class_exceptions_from_outside ops ratio topo fuel (w : World LoadGenerator.t) :
  let m := LoadGenerator.main ops ratio topo fuel in
  Forall (λ e, match reported e with
               | Some x => x ∈ [RedisError; OtherException; KeyboardInterrupt]
               | None => True
               end) (events m w) ∧
  match result m w with
  | Raise x => x ∈ [RedisError; OtherException; KeyboardInterrupt] ∨
               x = OverflowError ∧ float_limit ≤ ops
  | Ret _ => True
  end.
Proof.
  assert (∀ x, from_outside x = true →
               x ∈ [RedisError; OtherException; KeyboardInterrupt]) as Hin.
  { intros [] [=]; set_solver. }
  cbv zeta. destruct (main_in_order ops ratio topo fuel w) as [Hp Hr].
  cbv zeta in Hp, Hr. split.
  - eapply Forall_impl; [exact Hp|]. intros [c k| | |l] He; try exact I.
    destruct l; try exact I; apply Hin; exact He.
  - destruct (result _ w); [exact I|]. destruct Hr as [Hr|Hr]; [left|by right].
    by apply Hin.
Qed.

(** ** Commands reach the node they are meant for *)

Section Choice.
Context {St L : Type} (R : relation St) `{!PreOrder R} (P : event L → Prop).

Lemma keeps_bind_choice {A B} (seq : list A) d (f : A → M St L B) :
  seq ≠ [] → (∀ x, x ∈ seq → keeps R P (f x)) → keeps R P (bind (choice seq d) f).
Proof.
  intros Hne Hf w. unfold after, events. rewrite bind_choice.
  set (w' := mkWorld _ _ _ _ _ _).
  exact (Hf _ (choice_of_elem seq d (hd 0 (rng w)) Hne) w').
Qed.
End Choice.

Ltac dragonfly_step :=
  lazymatch goal with
  | |- keeps _ _ (bind (choice [Replica1; Replica2] _) _) =>
      rule keeps_bind_choice;
      [done|
       let x := fresh "client" in let Hx := fresh "Hclient" in
       intros x Hx;
       apply elem_of_cons in Hx as [->|Hx];
       [|apply elem_of_cons in Hx as [->|Hx]; [|by apply elem_of_nil in Hx]]]
  | |- _ => keeps_step
  end.

Ltac routes_side :=
  first [ exact I | reflexivity
        | let c := fresh "c" in intros c [= <-]; reflexivity ].

Section DragonflyRoutes.
Variables (ops ratio : Z).
#[local] Abbreviation Routes :=
  (keeps (St := Dragonfly.globals) (L := Dragonfly.line) any (routed dragonfly)).

Lemma wait_from_routes todo i : Routes (Dragonfly.wait_from todo i).
Proof.
  revert i; induction todo as [|todo IH]; intros i; cbn [Dragonfly.wait_from].
  - keeps_step.
  - unfold Dragonfly.ping_all.
    repeat first [known (IH _) | keeps_step]; routes_side.
Qed.

Lemma dragonfly_tick_routes st : Routes (Dragonfly.tick ratio st).
Proof.
  unfold Dragonfly.tick, Dragonfly.tick_body, Dragonfly.read_op, Dragonfly.write_op,
    Dragonfly.read_try, Dragonfly.write_try, Dragonfly.report_check,
    Dragonfly.print_stats, Dragonfly.get_random_int.
  repeat dragonfly_step; routes_side.
Qed.

Lemma dragonfly_loop_routes st fuel : Routes (Dragonfly.loop ratio st fuel).
Proof.
  induction fuel as [|fuel IH]; cbn [Dragonfly.loop].
  - keeps_step.
  - repeat first [known (dragonfly_tick_routes _) | known IH | keeps_step].
Qed.

Lemma dragonfly_main_routes fuel : Routes (Dragonfly.main ops ratio fuel).
Proof.
  unfold Dragonfly.main, Dragonfly.wait_for_connections, Dragonfly.sleep_time.
  repeat first [known (wait_from_routes _ _) | known (dragonfly_loop_routes _ _)
               | keeps_step]; routes_side.
Qed.
End DragonflyRoutes.

Lemma routed_commands {L} v (evs : list (event L)) :
  Forall (routed v) evs → Forall (λ ck, served v ck.1 ck.2 = true) (commands evs).
Proof.
  induction 1 as [|[c k| | |] evs He _ IH]; cbn [commands]; [constructor| |done..].
  by constructor.
Qed.

Lemma in_order_routed {L} v (rep : event L → option exn) evs :
  Forall (in_order v rep) evs → Forall (routed v) evs.
Proof. intros H. eapply Forall_impl; [exact H|]. by intros []. Qed.

(** X10. In every variant, every command of a run goes through a client
    meant for it.  A write goes through the writing client: the cluster
    client, the sentinel's master, the dragonfly primary; never through a
    replica.  A read goes through the cluster client, the sentinel's slave,
    or one of the two dragonfly replicas; in the sentinel and dragonfly
    scripts never through the node that takes the writes.  Connection
    checks go to the cluster client, to the master, or to all three
    dragonfly nodes. *)
Theorem commands_reach_their_node v ops ratio fuel o :
  Forall (λ ck, match classify ck.2 with
                | Some (Write, _) => ck.1 = writer v
                | Some (Read, _) => reader v ck.1 = true
                | None => pinged v ck.1 = true
                end) (wire_of v ops ratio fuel o).
Proof.
  assert (Forall (λ ck, served v ck.1 ck.2 = true) (wire_of v ops ratio fuel o)) as H.
  { destruct v; unfold wire_of; apply routed_commands.
    - apply (in_order_routed cluster reported).
      exact (proj1 (main_in_order ops ratio LoadGenerator.Cluster fuel _)).
    - apply (in_order_routed sentinel reported).
      exact (proj1 (main_in_order ops ratio LoadGenerator.Sentinel fuel _)).
    - exact (proj2 (dragonfly_main_routes ops ratio fuel _)). }
  eapply Forall_impl; [exact H|]. intros [c k]. unfold served. cbn [fst snd].
  destruct (classify k) as [[[] ?]|]; try done.
  intros Hc. by apply bool_decide_eq_true in Hc.
Qed.

(** ** Addresses *)

Section Split.
Import Config.
Variable sep : ascii.

Lemma split_nonempty s : split sep s ≠ [].
Proof.
  induction s as [|c s IH]; cbn [split]; [done|].
  destruct (Ascii.eqb c sep); [done|]. by destruct (split sep s).
Qed.

Lemma split_free s : free sep s = true → split sep s = [s].
Proof.
  induction s as [|c s IH]; cbn [split free]; [done|].
  destruct (Ascii.eqb c sep); cbn [negb andb]; [done|].
  intros Hs. by rewrite (IH Hs).
Qed.

Lemma split_cut h rest :
  free sep h = true → split sep (h +:+ String sep rest) = h :: split sep rest.
Proof.
  induction h as [|c h IH].
  - intros _. change ("" +:+ String sep rest) with (String sep rest).
    cbn [split]. by rewrite Ascii.eqb_refl.
  - change (String c h +:+ String sep rest) with (String c (h +:+ String sep rest)).
    cbn [split free].
    destruct (Ascii.eqb c sep); cbn [negb andb]; [done|].
    intros Hh. by rewrite (IH Hh).
Qed.
End Split.

(** X11. Dragonfly script, [parse_host]: an address without a colon is
    the host itself with the default port 6379, and [int] is not called;
    an address with a colon gives the text before the first colon as host
    and [int] of the text between the first and the second colon as port,
    whatever follows a second colon being ignored.  The only failure is
    the [ValueError] of [int]. *)
Theorem parse_host_cases (int : string → option Z) (h p rest : string) :
  Config.free ":" h = true → Config.free ":" p = true →
  let port := match int p with
              | Some n => Ret (h, n)
              | None => Raise ValueError
              end in
  Config.parse_host int h = Ret (h, 6379) ∧
  Config.parse_host int (h +:+ ":" +:+ p) = port ∧
  Config.parse_host int (h +:+ ":" +:+ p +:+ ":" +:+ rest) = port.
Proof.
  intros Hh Hp. cbv zeta. unfold Config.parse_host, Config.to_int.
  change (":" +:+ p) with (String ":" p).
  change (":" +:+ p +:+ ":" +:+ rest) with (String ":" (p +:+ String ":" rest)).
  rewrite (split_free _ h Hh), !(split_cut _ h _ Hh), (split_free _ p Hp),
    (split_cut _ p _ Hp).
  split; [reflexivity|]. split.
  - cbn. by destruct (int p).
  - pose proof (split_nonempty ":" rest) as Hne.
    destruct (Config.split ":" rest); [done|]. cbn. by destruct (int p).
Qed.

Lemma parse_host_cases_witness :
  Config.parse_host Config.decimal "dragonfly-primary" = Ret ("dragonfly-primary", 6379) ∧
  Config.parse_host Config.decimal "dragonfly-replica-1:6380"
  = Ret ("dragonfly-replica-1", 6380) ∧
  Config.parse_host Config.decimal "dragonfly-replica-1:6380:x"
  = Ret ("dragonfly-replica-1", 6380).
Proof.
  split; [|split].
  - exact (proj1 (parse_host_cases Config.decimal "dragonfly-primary" "" ""
                    eq_refl eq_refl)).
  - exact (proj1 (proj2 (parse_host_cases Config.decimal "dragonfly-replica-1" "6380" "x"
                           eq_refl eq_refl))).
  - exact (proj2 (proj2 (parse_host_cases Config.decimal "dragonfly-replica-1" "6380" "x"
                           eq_refl eq_refl))).
Defined.

(** X12. Cluster and sentinel scripts: an address of the node list is
    accepted only when, stripped, it has exactly one colon: then the host
    is the text before it and the port is [int] of the text after it.
    Without a colon (no default port here) and with two or more colons the
    unpacking raises [ValueError]. *)
Theorem parse_addr_cases (int : string → option Z) (strip : string → string)
    (addr h p rest : string) :
  Config.free ":" h = true → Config.free ":" p = true →
  (strip addr = h → Config.parse_addr int strip addr = Raise ValueError) ∧
  (strip addr = h +:+ ":" +:+ p →
   Config.parse_addr int strip addr
   = match int p with
     | Some n => Ret (h, n)
     | None => Raise ValueError
     end) ∧
  (strip addr = h +:+ ":" +:+ p +:+ ":" +:+ rest →
   Config.parse_addr int strip addr = Raise ValueError).
Proof.
  intros Hh Hp. unfold Config.parse_addr, Config.to_int.
  change (":" +:+ p) with (String ":" p).
  change (":" +:+ p +:+ ":" +:+ rest) with (String ":" (p +:+ String ":" rest)).
  split; [|split]; intros ->.
  - by rewrite (split_free _ h Hh).
  - rewrite (split_cut _ h _ Hh), (split_free _ p Hp). by destruct (int p).
  - rewrite (split_cut _ h _ Hh), (split_cut _ p _ Hp).
    pose proof (split_nonempty ":" rest) as Hne.
    by destruct (Config.split ":" rest).
Qed.

Lemma parse_addr_cases_witness :
  Config.parse_addr Config.decimal id "redis-node-1" = Raise ValueError ∧
  Config.parse_addr Config.decimal id "redis-sentinel-1:26379"
  = Ret ("redis-sentinel-1", 26379) ∧
  Config.parse_addr Config.decimal id "redis-sentinel-1:26379:x" = Raise ValueError.
Proof.
  split; [|split].
  - exact (proj1 (parse_addr_cases Config.decimal id "redis-node-1"
                    "redis-node-1" "" "" eq_refl eq_refl) eq_refl).
  - exact (proj1 (proj2 (parse_addr_cases Config.decimal id "redis-sentinel-1:26379"
                           "redis-sentinel-1" "26379" "" eq_refl eq_refl)) eq_refl).
  - exact (proj2 (proj2 (parse_addr_cases Config.decimal id "redis-sentinel-1:26379:x"
                           "redis-sentinel-1" "26379" "x" eq_refl eq_refl)) eq_refl).
Defined.

Lemma parse_addrs_spec (int : string → option Z) (strip : string → string) addrs :
  match Config.parse_addrs int strip addrs with
  | Ret nodes => Forall2 (λ a n, Config.parse_addr int strip a = Ret n) addrs nodes
  | Raise e => ∃ a, a ∈ addrs ∧ Config.parse_addr int strip a = Raise e
  end.
Proof.
  induction addrs as [|a addrs IH]; cbn [Config.parse_addrs]; [constructor|].
  destruct (Config.parse_addr int strip a) as [n|e] eqn:Ha.
  - destruct (Config.parse_addrs int strip addrs) as [nodes|e].
    + by constructor.
    + destruct IH as (a' & Hin & Ha'). exists a'. split; [by right|done].
  - exists a. split; [by left|done].
Qed.

Lemma parse_addr_raises (int : string → option Z) (strip : string → string) a e :
  Config.parse_addr int strip a = Raise e → e = ValueError.
Proof.
  unfold Config.parse_addr, Config.to_int.
  destruct (Config.split ":" (strip a)) as [|h [|p [|]]]; try by intros [= <-].
  destruct (int p); by intros [=].
Qed.

(** X13. Cluster and sentinel scripts: the node list holds one node for
    each comma-separated piece of the variable, in order, so it is never
    empty; a single piece that is not accepted fails the whole start-up
    with a [ValueError]. *)
Theorem node_list_all_or_nothing (int : string → option Z) (strip : string → string)
    (value : string) :
  match Config.node_list int strip value with
  | Ret nodes =>
      Forall2 (λ a n, Config.parse_addr int strip a = Ret n)
        (Config.split "," value) nodes ∧
      nodes ≠ []
  | Raise e =>
      e = ValueError ∧
      ∃ a, a ∈ Config.split "," value ∧ Config.parse_addr int strip a = Raise ValueError
  end.
Proof.
  unfold Config.node_list.
  pose proof (parse_addrs_spec int strip (Config.split "," value)) as H.
  pose proof (split_nonempty "," value) as Hne.
  destruct (Config.parse_addrs int strip _) as [nodes|e].
  - split; [exact H|]. intros ->. apply Forall2_nil_inv_r in H. done.
  - destruct H as (a & Hin & Ha).
    pose proof (parse_addr_raises _ _ _ _ Ha) as ->. split; [done|by exists a].
Qed.

Section DragonflyOrder.
Variables (ops ratio : Z).
Hypothesis Hops : 0 < ops.
#[local] Abbreviation Tidy :=
  (guards (St := Dragonfly.globals) (λ _, True) (in_order dragonfly dragonfly_reported)).

Lemma dragonfly_interval_nonneg : Qle_bool 0 (1 / inject_Z ops) = true.
Proof.
  apply Qle_bool_iff. apply Qmult_le_0_compat; [done|]. apply Qinv_le_0_compat.
  unfold Qle. cbn. lia.
Qed.

Ltac tidy_step :=
  lazymatch goal with
  | |- guards _ _ (bind (choice [Replica1; Replica2] _) _) =>
      apply guards_bind_choice;
      [done|
       let x := fresh "client" in let Hx := fresh "Hclient" in
       intros x Hx;
       apply elem_of_cons in Hx as [->|Hx];
       [|apply elem_of_cons in Hx as [->|Hx]; [|by apply elem_of_nil in Hx]]]
  | |- _ => guards_step
  end.

Ltac tidy_side :=
  first [ exact I | reflexivity | assumption | apply dragonfly_interval_nonneg
        | intros; exact I ].

Lemma wait_from_tidy todo i : Tidy (Dragonfly.wait_from todo i).
Proof.
  revert i; induction todo as [|todo IH]; intros i; cbn [Dragonfly.wait_from].
  - guards_step.
  - unfold Dragonfly.ping_all.
    repeat first [granted (IH _) | guards_step]; tidy_side.
Qed.

Lemma dragonfly_tick_tidy : Tidy (Dragonfly.tick ratio (1 / inject_Z ops)).
Proof.
  unfold Dragonfly.tick, Dragonfly.tick_body, Dragonfly.read_op, Dragonfly.write_op,
    Dragonfly.read_try, Dragonfly.write_try, Dragonfly.report_check,
    Dragonfly.print_stats, Dragonfly.get_random_int.
  repeat tidy_step; tidy_side.
Qed.

Lemma dragonfly_loop_tidy fuel : Tidy (Dragonfly.loop ratio (1 / inject_Z ops) fuel).
Proof.
  induction fuel as [|fuel IH]; cbn [Dragonfly.loop].
  - guards_step.
  - repeat first [granted dragonfly_tick_tidy | granted IH | guards_step].
Qed.

Lemma dragonfly_main_tidy fuel (w : World Dragonfly.globals) :
  let m := Dragonfly.main ops ratio fuel in
  Forall (in_order dragonfly dragonfly_reported) (events m w) ∧
  match result m w with
  | Raise e => from_outside e = true ∨ e = OverflowError ∧ float_limit ≤ ops
  | Ret _ => True
  end.
Proof.
  cbv zeta. revert w.
  assert (∀ w : World Dragonfly.globals, True →
            Forall (in_order dragonfly dragonfly_reported)
              (events (Dragonfly.main ops ratio fuel) w) ∧
            match result (Dragonfly.main ops ratio fuel) w with
            | Raise e => from_outside e = true ∨ e = OverflowError ∧ float_limit ≤ ops
            | Ret _ => True
            end) as H; [|intros w; exact (H w I)].
  unfold Dragonfly.main, Dragonfly.wait_for_connections.
  do 7 (apply (guards_bind_tail (λ _ : Dragonfly.globals, True)
                 (in_order dragonfly dragonfly_reported));
        [repeat first [granted (wait_from_tidy _ _) | guards_step]; tidy_side
        |intros e He; by left
        |intros _]).
  intros w _. unfold Dragonfly.sleep_time, result, events.
  destruct (Z_lt_le_dec ops float_limit) as [Hlim|Hlim].
  - rewrite (bind_run _ _ _ _ _ _ (float_div_run ops w ltac:(lia) ltac:(lia))).
    rewrite prepend_nil.
    destruct (dragonfly_loop_tidy fuel w I) as (_ & Hp & Hr).
    split; [exact Hp|]. unfold result in Hr.
    destruct (Dragonfly.loop ratio (1 / inject_Z ops) fuel w).1.1; [exact I|by left].
  - rewrite (bind_raise _ _ _ _ _ _ (float_div_overflow ops w ltac:(lia))).
    cbn [fst snd]. split; [constructor|by right].
Qed.
End DragonflyOrder.



(** ** What a failure costs *)

Lemma awake_sleeps {L} (evs : list (event L)) : Forall awake evs → sleeps evs = [].
Proof. induction 1 as [|[] evs He _ IH]; done. Qed.

Lemma connect_from_sleeps topo todo attempt (w : World LoadGenerator.t) :
  attempt + Z.of_nat todo = 10 → 0 ≤ attempt →
  ∃ k, (k ≤ todo - 1)%nat ∧
       sleeps (events (LoadGenerator.connect_from topo todo attempt) w) = replicate k 5%Q.
Proof.
  revert attempt w; induction todo as [|todo IH]; intros attempt w Hsum Hpos;
    [by exists 0%nat|].
  unfold events. rewrite connect_from_S. cbv zeta.
  destruct (connect_attempt_events topo attempt w) as (evs1 & Hev & Hin).
  destruct (inner_tally _ Hin) as (_ & _ & Hs1).
  rewrite Hev.
  destruct (result (LoadGenerator.connect_attempt topo attempt) w) as [[]|e];
    cbn [fst snd sleeps]; [exists 0%nat; split; [lia|done]|].
  destruct (is_Exception e); [|exists 0%nat; split; [lia|done]].
  destruct (attempt <? 9) eqn:Ha; cbn [fst snd].
  - apply Z.ltb_lt in Ha.
    destruct (hd false (naps _)); cbn [fst snd].
    + exists 1%nat. split; [lia|]. rewrite sleeps_app. cbn [sleeps]. by rewrite Hs1.
    + match goal with
      | |- context [LoadGenerator.connect_from topo todo ?a ?w2] =>
          destruct (IH a w2 ltac:(lia) ltac:(lia)) as (k & Hk & Hsl);
          revert Hsl; unfold events, prepend;
          destruct (LoadGenerator.connect_from topo todo a w2) as [[r w3] ev3]
      end.
      cbn [fst snd]. intros Hsl. exists (S k). split; [lia|].
      rewrite !sleeps_app. cbn [sleeps]. by rewrite Hs1, Hsl.
  - exists 0%nat. split; [lia|]. rewrite sleeps_app. cbn [sleeps]. by rewrite Hs1.
Qed.

Lemma read_body_awake topo : keeps any awake (LoadGenerator.read_body topo).
Proof.
  unfold LoadGenerator.read_body.
  repeat first [known (attr_keeps any awake _) | keeps_step]; done.
Qed.

Lemma write_body_awake topo : keeps any awake (LoadGenerator.write_body topo).
Proof.
  unfold LoadGenerator.write_body.
  repeat first [known (attr_keeps any awake _) | keeps_step]; done.
Qed.

Lemma perform_pause topo (body : LoadGenerator.Run bool) (l : exn → LoadGenerator.line)
    (w : World LoadGenerator.t) :
  (∀ b, result body w = Ret b → b = true) →
  sleeps (events body w) = [] →
  let m := try_except body
             (λ e, if is_RedisError e then Some (
                log (l e);;;
                modify_self (LoadGenerator.set_stats LoadGenerator.incr_failed_ops);;;
                LoadGenerator.reconnect topo;;;
                ret false)
              else None) in
  let paused := ∃ k, (k ≤ 9)%nat ∧ sleeps (events m w) = 2%Q :: replicate k 5%Q in
  match result m w with
  | Ret true => sleeps (events m w) = []
  | Ret false => paused
  | Raise _ => sleeps (events m w) = [] ∨ paused
  end.
Proof.
  intros Htrue Hs. cbv zeta.
  unfold result, events in *. rewrite try_except_unfold.
  unfold result, after, events.
  destruct (body w) as [[[b|e] w1] ev1]; cbn [fst snd] in *.
  - by rewrite (Htrue b eq_refl).
  - destruct e; cbv beta iota delta [is_RedisError]; cbn [fst snd]; try (by left).
    rewrite bind_log, bind_modify_self. unfold LoadGenerator.reconnect.
    rewrite bind_assoc, bind_log, bind_assoc, (bind_sleep 2) by reflexivity.
    cbv zeta. cbn [rng net naps clock store self].
    destruct (hd false (naps w1)).
    + unfold prepend. cbn [fst snd app]. right. exists 0%nat. split; [lia|].
      rewrite sleeps_app, Hs. reflexivity.
    + unfold LoadGenerator.connect. change (Z.to_nat LoadGenerator.max_retries) with 10%nat.
      match goal with
      | |- context [bind (LoadGenerator.connect_from topo 10 0) ?f ?w2] =>
          destruct (connect_from_sleeps topo 10 0 w2 ltac:(lia) ltac:(lia))
            as (k & Hk & Hsl);
          pose proof (result_then_ret (LoadGenerator.connect_from topo 10 0) false w2)
            as Hr;
          assert (sleeps (events (bind (LoadGenerator.connect_from topo 10 0) f) w2)
                  = replicate k 5%Q) as Hsl'
            by (rewrite (events_then_ret (LoadGenerator.connect_from topo 10 0) false w2);
                exact Hsl);
          clear Hsl; unfold result, events in Hr, Hsl';
          destruct (bind (LoadGenerator.connect_from topo 10 0) f w2) as [[r w3] ev3]
      end.
      unfold prepend. cbn [fst snd app] in *.
      assert (∃ k, (k ≤ 9)%nat ∧
                sleeps (ev1 ++ Log (l RedisError) :: Log LoadGenerator.ConnectionLost
                        :: Sleep 2 :: ev3) = 2%Q :: replicate k 5%Q) as Hpaused.
      { exists k. split; [lia|]. rewrite sleeps_app, Hs. cbn [sleeps app].
        by rewrite Hsl'. }
      rewrite Hr. destruct (LoadGenerator.connect_from topo 10 0 _).1.1; [done|by right].
Qed.

(** X15. Class scripts: an operation that succeeds does not sleep; one
    that fails with a [RedisError] sleeps 2 seconds and then connects
    again, sleeping 5 seconds after each attempt that fails, at most 9
    times: a failure holds the loop for at most 47 seconds of sleep before
    the next operation or before the exception of the last attempt. *)
Theorem failure_pause topo (w : World LoadGenerator.t) :
  (let m := LoadGenerator.perform_read topo in
   let paused := ∃ k, (k ≤ 9)%nat ∧ sleeps (events m w) = 2%Q :: replicate k 5%Q in
   match result m w with
   | Ret true => sleeps (events m w) = []
   | Ret false => paused
   | Raise _ => sleeps (events m w) = [] ∨ paused
   end) ∧
  (let m := LoadGenerator.perform_write topo in
   let paused := ∃ k, (k ≤ 9)%nat ∧ sleeps (events m w) = 2%Q :: replicate k 5%Q in
   match result m w with
   | Ret true => sleeps (events m w) = []
   | Ret false => paused
   | Raise _ => sleeps (events m w) = [] ∨ paused
   end).
Proof.
  cbv zeta. split.
  - apply (perform_pause topo (LoadGenerator.read_body topo) LoadGenerator.ReadFailed).
    + apply read_body_true.
    + apply awake_sleeps. exact (proj2 (read_body_awake topo w)).
  - apply (perform_pause topo (LoadGenerator.write_body topo) LoadGenerator.WriteFailed).
    + apply write_body_true.
    + apply awake_sleeps. exact (proj2 (write_body_awake topo w)).
Qed.

(** ** A start-up that fails *)

Lemma connect_from_before_start topo todo attempt :
  keeps any before_start (LoadGenerator.connect_from topo todo attempt).
Proof.
  revert attempt; induction todo as [|todo IH]; intros attempt;
    cbn [LoadGenerator.connect_from].
  - keeps_step.
  - unfold LoadGenerator.connect_attempt. destruct topo.
    all: repeat first [known (attr_keeps any before_start _) | known (IH _) | keeps_step];
      done.
Qed.

(** X16. Class scripts, from [LoadGenerator()] on: a run that ends with an
    exception other than the interrupt has not performed an operation.
    Either all 10 attempts of the constructor to connect have failed, with
    9 sleeps of 5 seconds between them, and the "Starting load generation"
    line was never logged; or the constructor has connected and [run] has
    raised [OverflowError] right after logging that line, at the division
    by a rate of [float_limit] or more. *)
Theorem startup_failure ops ratio topo fuel (w : World LoadGenerator.t) e :
  let m := LoadGenerator.main ops ratio topo fuel in
  result m w = Raise e → e ≠ KeyboardInterrupt →
  (tally attempting (events m w) = 10%nat ∧
   tally attempt_failed (events m w) = 10%nat ∧
   sleeps (events m w) = replicate 9 5%Q ∧
   Log LoadGenerator.Starting ∉ events m w) ∨
  (e = OverflowError ∧ float_limit ≤ ops ∧
   ∃ evs, events m w = evs ++ [Log LoadGenerator.Starting] ∧
          Log LoadGenerator.Starting ∉ evs).
Proof.
  cbv zeta. unfold LoadGenerator.main, LoadGenerator.init,
    LoadGenerator.connect, result, events.
  rewrite bind_assoc, bind_time_time, bind_assoc, bind_modify_self.
  cbn [rng net naps clock store self].
  change (Z.to_nat LoadGenerator.max_retries) with 10%nat.
  rewrite bind_unfold.
  match goal with
  | |- context [result (LoadGenerator.connect_from topo 10 0) ?w1] =>
      pose proof (connect_from_count topo 10 0 w1 ltac:(lia) ltac:(lia) ltac:(lia))
        as Hcount;
      destruct (connect_from_before_start topo 10 0 w1) as [_ Hbefore];
      cbv zeta in Hcount;
      destruct (result (LoadGenerator.connect_from topo 10 0) w1) as [[]|e'];
      cbn [fst snd];
      set (w2 := after (LoadGenerator.connect_from topo 10 0) w1) in *;
      set (ev2 := events (LoadGenerator.connect_from topo 10 0) w1) in *;
      clearbody w2 ev2
  end.
  - unfold result, events.
    destruct (run_cases ops ratio topo fuel w2) as [[_ E]|[Hlim E]]; rewrite E;
      cbn [fst snd prepend].
    + intros Hr Hne. exfalso.
      pose proof (class_loop_exit ops ratio topo fuel w2) as Hloop.
      unfold result in Hloop. rewrite Hr in Hloop. exact (Hne Hloop).
    + intros [= <-] _. right. split; [done|]. split; [done|].
      exists ev2. split; [done|].
      intros Hin. rewrite Forall_forall in Hbefore. exact (Hbefore _ Hin).
  - intros [= ->] Hne. left. destruct e; try done.
    all: destruct Hcount as (Hn & Hf & Hs); repeat split; try done.
    all: intros Hin; rewrite Forall_forall in Hbefore; exact (Hbefore _ Hin).
Qed.

Lemma startup_failure_witness :
  let m := LoadGenerator.main 100 70 LoadGenerator.Cluster 1 in
  let w := boot LoadGenerator.blank no_cluster in
  (tally attempting (events m w) = 10%nat ∧
   tally attempt_failed (events m w) = 10%nat ∧
   sleeps (events m w) = replicate 9 5%Q ∧
   Log LoadGenerator.Starting ∉ events m w) ∨
  (RedisError = OverflowError ∧ float_limit ≤ 100 ∧
   ∃ evs, events m w = evs ++ [Log LoadGenerator.Starting] ∧
          Log LoadGenerator.Starting ∉ evs).
Proof.
  apply (startup_failure 100 70 LoadGenerator.Cluster 1
           (boot LoadGenerator.blank no_cluster) RedisError).
  - vm_compute. reflexivity.
  - intros [=].
Defined.

(** ** An iteration that ends in "Unexpected error" *)

Lemma reconnect_expected topo : keeps any expected (LoadGenerator.reconnect topo).
Proof.
  eapply keeps_weaken; [| |apply (reconnect_quiet topo)]; [done|].
  by intros [| | |[]].
Qed.

Lemma tick_body_expected ops ratio topo :
  keeps any expected (LoadGenerator.tick_body ops ratio topo).
Proof.
  unfold LoadGenerator.tick_body, LoadGenerator.perform_read, LoadGenerator.perform_write,
    LoadGenerator.read_body, LoadGenerator.write_body, LoadGenerator.report_stats.
  repeat first [known (reconnect_expected topo)
               | known (attr_keeps any expected _) | keeps_step]; done.
Qed.

Lemma report_stats_returns (w : World LoadGenerator.t) :
  result LoadGenerator.report_stats w = Ret tt ∧
  (LoadGenerator.stats (self (after LoadGenerator.report_stats w))
   = LoadGenerator.stats (self w) ∨
   ∃ now, LoadGenerator.stats (self (after LoadGenerator.report_stats w))
          = LoadGenerator.mkStats 0 0 0 0 0 now).
Proof.
  unfold result, after, LoadGenerator.report_stats.
  rewrite bind_time_time, bind_get_self. cbn [rng net naps clock store self].
  destruct (Qle_bool 10 _).
  - rewrite bind_log. unfold modify_self, prepend. cbn [fst snd self].
    split; [reflexivity|]. right. by eexists.
  - split; [reflexivity|by left].
Qed.

(** When the body of an iteration raises anything but the interrupt, its
    operation raised: at most a failure has been counted. *)
Lemma tick_body_raises ops ratio topo (w : World LoadGenerator.t) :
  let m := LoadGenerator.tick_body ops ratio topo in
  let s := LoadGenerator.stats (self w) in
  let s' := LoadGenerator.stats (self (after m w)) in
  match result m w with
  | Ret _ => True
  | Raise e => e = KeyboardInterrupt ∨ s' = s ∨ s' = LoadGenerator.incr_failed_ops s
  end.
Proof.
  cbv zeta. unfold LoadGenerator.tick_body, result, after.
  rewrite bind_randint. set (w1 := mkWorld _ _ _ _ _ _).
  change (self w) with (self w1). clearbody w1.
  rewrite bind_unfold.
  assert (let m := if randint_of 1 100 (hd 0 (rng w)) <=? ratio
                   then LoadGenerator.perform_read topo
                   else LoadGenerator.perform_write topo in
          match result m w1 with
          | Ret _ => True
          | Raise _ =>
              LoadGenerator.stats (self (after m w1)) = LoadGenerator.stats (self w1) ∨
              LoadGenerator.stats (self (after m w1))
              = LoadGenerator.incr_failed_ops (LoadGenerator.stats (self w1))
          end) as Hop.
  { cbv zeta. destruct (_ <=? _).
    - pose proof (perform_outcome topo (LoadGenerator.read_body topo)
                    LoadGenerator.ReadFailed _ w1 (read_body_true topo w1)
                    (proj1 (read_body_stats topo w1))) as H.
      cbv zeta in H. revert H. unfold LoadGenerator.perform_read.
      by destruct (result _ w1).
    - pose proof (perform_outcome topo (LoadGenerator.write_body topo)
                    LoadGenerator.WriteFailed _ w1 (write_body_true topo w1)
                    (proj1 (write_body_stats topo w1))) as H.
      cbv zeta in H. revert H. unfold LoadGenerator.perform_write.
      by destruct (result _ w1). }
  cbv zeta in Hop. revert Hop.
  generalize (if randint_of 1 100 (hd 0 (rng w)) <=? ratio
              then LoadGenerator.perform_read topo
              else LoadGenerator.perform_write topo).
  intros m Hop.
  destruct (result m w1) as [b|e]; cbn [fst snd]; [|by right].
  set (w2 := after m w1). clearbody w2. clear Hop.
  unfold result. rewrite bind_modify_self. set (w3 := mkWorld _ _ _ _ _ _). clearbody w3.
  rewrite bind_unfold. destruct (report_stats_returns w3) as [-> _].
  cbn [fst]. unfold result. rewrite (sleep_run _ _ (class_sleep_time_nonneg ops)).
  cbv zeta. destruct (hd false (naps _)); cbn [fst]; [by left|exact I].
Qed.

(** X17. Class scripts: an iteration that logs "Unexpected error" has
    counted no operation.  Its read or write raised before
    [total_ops += 1]; the counters are as before the iteration, or count
    one more failure when the operation had failed and the reconnection
    failed too.  After such an iteration the counters need not add up. *)
Theorem unexpected_error_skips_count ops ratio topo (w : World LoadGenerator.t) e :
  let m := LoadGenerator.tick ops ratio topo in
  let s := LoadGenerator.stats (self w) in
  let s' := LoadGenerator.stats (self (after m w)) in
  Log (LoadGenerator.UnexpectedError e) ∈ events m w →
  e ≠ KeyboardInterrupt ∧ (s' = s ∨ s' = LoadGenerator.incr_failed_ops s).
Proof.
  cbv zeta. unfold LoadGenerator.tick, after, events. rewrite try_except_unfold.
  rewrite result_then_ret, after_then_ret, events_then_ret.
  pose proof (tick_body_raises ops ratio topo w) as Hraise. cbv zeta in Hraise.
  destruct (tick_body_expected ops ratio topo w) as [_ Hex].
  rewrite Forall_forall in Hex.
  destruct (result (LoadGenerator.tick_body ops ratio topo) w) as [[]|e0]; cbn [fst snd].
  - intros Hin. destruct (Hex _ Hin).
  - set (w1 := after _ w) in *. set (ev1 := events _ w) in *. clearbody w1 ev1.
    assert (e0 = KeyboardInterrupt ∨ e0 ≠ KeyboardInterrupt) as [->|Hne]
      by (destruct e0; auto).
    + cbv iota. unfold after, events. rewrite bind_log, ret_run.
      cbn [fst snd prepend app]. intros Hin.
      apply elem_of_app in Hin as [Hin|Hin]; [destruct (Hex _ Hin)|].
      apply list_elem_of_singleton in Hin. discriminate Hin.
    + assert (∀ w2 : World LoadGenerator.t,
                let h := log (LoadGenerator.UnexpectedError e0);;; sleep 1;;;
                         ret Continue in
                self (after h w2) = self w2 ∧
                events h w2 = [Log (LoadGenerator.UnexpectedError e0); Sleep 1]) as Hh.
      { intros w2. cbv zeta. unfold after, events.
        rewrite bind_log, (bind_sleep 1) by reflexivity. cbv zeta.
        destruct (hd false (naps w2)); rewrite ?ret_run; cbn [fst snd prepend app self];
          by split. }
      destruct (Hh w1) as (Hself & Hev). cbv zeta in Hself, Hev.
      destruct e0; try (exfalso; by apply Hne); cbv iota; cbn [fst snd].
      all: rewrite Hself, Hev; intros Hin.
      all: apply elem_of_app in Hin as [Hin|Hin]; [destruct (Hex _ Hin)|].
      all: apply elem_of_cons in Hin as [[= ->]|Hin];
        [|apply list_elem_of_singleton in Hin; discriminate Hin].
      all: split; [done|]; destruct Hraise as [[=]|Hs]; exact Hs.
Qed.

Lemma unexpected_error_skips_count_witness :
  let m := LoadGenerator.tick 100 70 LoadGenerator.Cluster in
  RedisError ≠ KeyboardInterrupt ∧
  (LoadGenerator.stats (self (after m outage)) = LoadGenerator.stats (self outage) ∨
   LoadGenerator.stats (self (after m outage))
   = LoadGenerator.incr_failed_ops (LoadGenerator.stats (self outage))).
Proof.
  apply (unexpected_error_skips_count 100 70 LoadGenerator.Cluster outage RedisError).
  apply (list_elem_of_lookup_2 _ 53). vm_compute. reflexivity.
Defined.

Section DragonflyUnexpected.
Variables (ratio : Z) (st : Q).
Hypothesis Hst : Qle_bool 0 st = true.

Lemma dragonfly_tick_body_expected :
  keeps any dragonfly_expected (Dragonfly.tick_body ratio st).
Proof.
  unfold Dragonfly.tick_body, Dragonfly.read_op, Dragonfly.write_op,
    Dragonfly.read_try, Dragonfly.write_try, Dragonfly.report_check,
    Dragonfly.print_stats, Dragonfly.get_random_int.
  repeat keeps_step; done.
Qed.

Lemma report_check_returns (w : World Dragonfly.globals) :
  result Dragonfly.report_check w = Ret tt.
Proof.
  unfold result, Dragonfly.report_check.
  rewrite bind_time_time, bind_get_self. cbn [rng net naps clock store self].
  destruct (Qle_bool (inject_Z _) _); [|reflexivity].
  set (w1 := mkWorld _ _ _ _ _ _). clearbody w1.
  destruct (print_stats_run w1) as (a & b & Hrun).
  erewrite bind_run; [|exact Hrun]. by rewrite bind_time_time.
Qed.

(** When the body of an iteration raises anything but the interrupt, its
    operation raised: the read or the write is counted and nothing else. *)
Lemma dragonfly_tick_body_raises (w : World Dragonfly.globals) :
  let m := Dragonfly.tick_body ratio st in
  let s := Dragonfly.stats (self w) in
  let s' := Dragonfly.stats (self (after m w)) in
  match result m w with
  | Ret _ => True
  | Raise e =>
      e = KeyboardInterrupt ∨ s' = Dragonfly.incr_reads s ∨ s' = Dragonfly.incr_writes s
  end.
Proof.
  cbv zeta. unfold Dragonfly.tick_body, result, after.
  rewrite bind_randint. cbv zeta. set (w1 := mkWorld _ _ _ _ _ _).
  change (self w) with (self w1). clearbody w1.
  rewrite bind_unfold.
  match goal with
  | |- context [result ?op w1] =>
      assert (match result op w1 with
              | Ret _ => True
              | Raise _ =>
                  Dragonfly.stats (self (after op w1))
                  = Dragonfly.incr_reads (Dragonfly.stats (self w1)) ∨
                  Dragonfly.stats (self (after op w1))
                  = Dragonfly.incr_writes (Dragonfly.stats (self w1))
              end) as Hop;
      [|revert Hop; generalize op; intros m Hop]
  end.
  { destruct (_ <=? _); unfold result, after.
    - rewrite bind_choice, bind_modify_self, bind_choice.
      cbn [rng net naps clock store self].
      match goal with
      | |- context [Dragonfly.read_op ?c ?o ?w2] =>
          destruct (op_outcome (Dragonfly.read_try c o) Dragonfly.incr_read_errors w2)
            as [_ H];
          [apply then_success_unlogged; unfold Dragonfly.get_random_int;
           repeat keeps_step; done|];
          revert H; unfold Dragonfly.read_op, result, after;
          destruct (try_except (Dragonfly.read_try c o) _ w2) as [[[[]|e] w3] ev3]
      end; cbn [fst snd self]; [done|]. intros [_ ->]. by left.
    - rewrite bind_modify_self, bind_choice.
      cbn [rng net naps clock store self].
      match goal with
      | |- context [Dragonfly.write_op ?c ?o ?w2] =>
          destruct (op_outcome (Dragonfly.write_try c o) Dragonfly.incr_write_errors w2)
            as [_ H];
          [apply then_success_unlogged; unfold Dragonfly.get_random_int;
           repeat keeps_step; done|];
          revert H; unfold Dragonfly.write_op, result, after;
          destruct (try_except (Dragonfly.write_try c o) _ w2) as [[[[]|e] w3] ev3]
      end; cbn [fst snd self]; [done|]. intros [_ ->]. by right. }
  destruct (result m w1) as [b|e]; cbn [fst snd]; [|by right].
  set (w2 := after m w1). clearbody w2. clear Hop.
  unfold result. rewrite bind_modify_self. set (w3 := mkWorld _ _ _ _ _ _). clearbody w3.
  rewrite bind_unfold, report_check_returns.
  cbn [fst]. unfold result. rewrite (sleep_run _ _ Hst).
  cbv zeta. destruct (hd false (naps _)); cbn [fst]; [by left|exact I].
Qed.
End DragonflyUnexpected.

(** X18. Dragonfly script, with a sleep interval that is not negative: an
    iteration that prints "Unexpected error" counted its read or its write
    before the operation raised, and nothing else: not the total, no
    success, no failure.  After such an iteration the counters do not add
    up. *)
Theorem dragonfly_unexpected_error_half_counted ratio st (w : World Dragonfly.globals) e :
  let m := Dragonfly.tick ratio st in
  let s := Dragonfly.stats (self w) in
  let s' := Dragonfly.stats (self (after m w)) in
  Qle_bool 0 st = true →
  Log (Dragonfly.UnexpectedError e) ∈ events m w →
  e ≠ KeyboardInterrupt ∧ (s' = Dragonfly.incr_reads s ∨ s' = Dragonfly.incr_writes s).
Proof.
  cbv zeta. intros Hst. unfold Dragonfly.tick, after, events. rewrite try_except_unfold.
  rewrite result_then_ret, after_then_ret, events_then_ret.
  pose proof (dragonfly_tick_body_raises ratio st Hst w) as Hraise. cbv zeta in Hraise.
  destruct (dragonfly_tick_body_expected ratio st w) as [_ Hex].
  rewrite Forall_forall in Hex.
  destruct (result (Dragonfly.tick_body ratio st) w) as [[]|e0]; cbn [fst snd].
  - intros Hin. destruct (Hex _ Hin).
  - set (w1 := after _ w) in *. set (ev1 := events _ w) in *. clearbody w1 ev1.
    assert (e0 = KeyboardInterrupt ∨ e0 ≠ KeyboardInterrupt) as [->|Hne]
      by (destruct e0; auto).
    + cbv iota. unfold after, events. rewrite bind_log.
      destruct (print_stats_run w1) as (a & b & Hrun).
      erewrite bind_run; [|exact Hrun]. rewrite ret_run.
      cbn [fst snd prepend app]. intros Hin.
      apply elem_of_app in Hin as [Hin|Hin]; [destruct (Hex _ Hin)|].
      apply elem_of_cons in Hin as [[=]|Hin].
      apply list_elem_of_singleton in Hin. discriminate Hin.
    + assert (∀ w2 : World Dragonfly.globals,
                let h := log (Dragonfly.UnexpectedError e0);;; sleep 1;;;
                         ret Continue in
                self (after h w2) = self w2 ∧
                events h w2 = [Log (Dragonfly.UnexpectedError e0); Sleep 1]) as Hh.
      { intros w2. cbv zeta. unfold after, events.
        rewrite bind_log, (bind_sleep 1) by reflexivity. cbv zeta.
        destruct (hd false (naps w2)); rewrite ?ret_run; cbn [fst snd prepend app self];
          by split. }
      destruct (Hh w1) as (Hself & Hev). cbv zeta in Hself, Hev.
      destruct e0; try (exfalso; by apply Hne); cbv iota; cbn [fst snd].
      all: rewrite Hself, Hev; intros Hin.
      all: apply elem_of_app in Hin as [Hin|Hin]; [destruct (Hex _ Hin)|].
      all: apply elem_of_cons in Hin as [[= ->]|Hin];
        [|apply list_elem_of_singleton in Hin; discriminate Hin].
      all: split; [done|]; destruct Hraise as [[=]|Hs]; exact Hs.
Qed.

Lemma dragonfly_unexpected_error_half_counted_witness :
  let m := Dragonfly.tick 70 (1 # 100) in
  OtherException ≠ KeyboardInterrupt ∧
  (Dragonfly.stats (self (after m odd_failure))
   = Dragonfly.incr_reads (Dragonfly.stats (self odd_failure)) ∨
   Dragonfly.stats (self (after m odd_failure))
   = Dragonfly.incr_writes (Dragonfly.stats (self odd_failure))).
Proof.
  apply (dragonfly_unexpected_error_half_counted 70 (1 # 100) odd_failure OtherException).
  - reflexivity.
  - apply (list_elem_of_lookup_2 _ 1). vm_compute. reflexivity.
Defined.

(** ** A run in which nothing goes wrong *)

Lemma prefix_head a s b t key :
  starts_with (String a s) key = true → starts_with (String b t) key = true → a = b.
Proof.
  destruct key as [|c key]; cbn [starts_with]; [discriminate|].
  destruct (Ascii.eqb a c) eqn:Ha; [|discriminate].
  destruct (Ascii.eqb b c) eqn:Hb; [|discriminate].
  apply Ascii.eqb_eq in Ha, Hb. congruence.
Qed.

Lemma typed_less c room st : typed (c + room) st → typed room st.
Proof.
  intros [Hr Ht]. split; [lia|]. intros key v Hl.
  destruct (Ht _ _ Hl) as [Hk Hv]. split; [exact Hk|].
  destruct v; try exact I. lia.
Qed.

Lemma typed_insert room st key v :
  typed room st → kind_ok key v = true →
  match v with RInt n => n + Z.of_nat room ≤ int64_max | _ => True end →
  typed room (<[key := v]> st).
Proof.
  intros [Hr Ht] Hk Hv. split; [exact Hr|]. intros key' v' Hl.
  destruct (decide (key = key')) as [<-|Hne].
  - rewrite lookup_insert_eq in Hl. injection Hl as <-. by split.
  - rewrite lookup_insert_ne in Hl by done. eauto.
Qed.

Lemma typed_delete room st key : typed room st → typed room (delete key st).
Proof.
  intros [Hr Ht]. split; [exact Hr|]. intros key' v' Hl.
  destruct (decide (key = key')) as [<-|Hne].
  - by rewrite lookup_delete_eq in Hl.
  - rewrite lookup_delete_ne in Hl by done. eauto.
Qed.

(** Two namespaces with different first letters hold different keys. *)
Ltac clash :=
  match goal with
  | H1 : starts_with (String ?a _) ?key = true,
    H2 : starts_with (String ?b _) ?key = true |- _ =>
      let Heq := fresh in
      pose proof (prefix_head _ _ _ _ _ H1 H2) as Heq; discriminate Heq
  end.

Lemma accepts_plain c k : (∀ st, Redis.apply k st = Some st) → accepts c k.
Proof. intros Hk room st Ht. exists st. rewrite Hk. by apply typed_less in Ht. Qed.

Lemma accepts_SET c key v ex : starts_with "key:" key = true → accepts c (SET key v ex).
Proof.
  intros Hk room st Ht. apply typed_less in Ht.
  eexists. split; [reflexivity|]. by apply typed_insert.
Qed.

Lemma accepts_SETEX c key secs v :
  starts_with "key:" key = true → accepts c (SETEX key secs v).
Proof.
  intros Hk room st Ht. apply typed_less in Ht.
  eexists. split; [reflexivity|]. by apply typed_insert.
Qed.

(** An increment takes one of the room the counters have. *)
Lemma accepts_INCR c key :
  starts_with "counter:" key = true → accepts (S c) (INCR key).
Proof.
  intros Hk room st Ht. cbn [Redis.apply].
  pose proof (typed_less (S c) room st Ht) as Ht'. destruct Ht as [Hr Ht].
  destruct (st !! key) as [v|] eqn:Hl.
  - destruct (Ht _ _ Hl) as [Hv Hn]. destruct v; cbn [kind_ok] in Hv; try clash.
    rewrite (proj2 (Z.ltb_lt n int64_max)) by lia.
    eexists. split; [reflexivity|]. apply typed_insert; [exact Ht'|exact Hk|lia].
  - eexists. split; [reflexivity|]. apply typed_insert; [exact Ht'|exact Hk|lia].
Qed.

Lemma accepts_LPUSH c key v : starts_with "list:" key = true → accepts c (LPUSH key v).
Proof.
  intros Hk room st Ht. apply typed_less in Ht. cbn [Redis.apply].
  destruct (st !! key) as [v'|] eqn:Hl.
  - destruct (proj2 Ht _ _ Hl) as [Hv _]. destruct v'; cbn [kind_ok] in Hv; try clash.
    eexists. split; [reflexivity|]. by apply typed_insert.
  - eexists. split; [reflexivity|]. by apply typed_insert.
Qed.

Lemma accepts_LTRIM c key a b :
  starts_with "list:" key = true → accepts c (LTRIM key a b).
Proof.
  intros Hk room st Ht. apply typed_less in Ht. cbn [Redis.apply].
  destruct (st !! key) as [v'|] eqn:Hl; [|by exists st].
  destruct (proj2 Ht _ _ Hl) as [Hv _]. destruct v'; cbn [kind_ok] in Hv; try clash.
  destruct (ltrim_list l a b); eexists; (split; [reflexivity|]).
  - by apply typed_delete.
  - by apply typed_insert.
Qed.

Lemma accepts_SADD c key m : starts_with "set:" key = true → accepts c (SADD key m).
Proof.
  intros Hk room st Ht. apply typed_less in Ht. cbn [Redis.apply].
  destruct (st !! key) as [v'|] eqn:Hl.
  - destruct (proj2 Ht _ _ Hl) as [Hv _]. destruct v'; cbn [kind_ok] in Hv; try clash.
    eexists. split; [reflexivity|]. by apply typed_insert.
  - eexists. split; [reflexivity|]. by apply typed_insert.
Qed.

Lemma accepts_HSET c key f v :
  starts_with "hash:" key = true → accepts c (HSET key f v).
Proof.
  intros Hk room st Ht. apply typed_less in Ht. cbn [Redis.apply].
  destruct (st !! key) as [v'|] eqn:Hl.
  - destruct (proj2 Ht _ _ Hl) as [Hv _]. destruct v'; cbn [kind_ok] in Hv; try clash.
    eexists. split; [reflexivity|]. by apply typed_insert.
  - eexists. split; [reflexivity|]. by apply typed_insert.
Qed.

Lemma typed_empty room : Z.of_nat room ≤ int64_max → typed room ∅.
Proof. intros Hr. split; [exact Hr|]. intros key v Hl. by rewrite lookup_empty in Hl. Qed.
Section Healthy.
Context {St : Type}.
Implicit Types w : World St.

Lemma healthy_less c room w : healthy (c + room) w → healthy room w.
Proof. intros (Hn & Hz & Ht). split; [done|]. split; [done|]. by apply typed_less in Ht. Qed.

Lemma healthy_hd_net room w : healthy room w → hd NetOk (net w) = NetOk.
Proof. intros [Hn _]. by destruct Hn. Qed.

Lemma healthy_hd_naps room w : healthy room w → hd false (naps w) = false.
Proof. intros (_ & Hz & _). by destruct Hz. Qed.

Lemma healthy_answered room w (s : St) :
  healthy room w →
  healthy room (mkWorld (rng w) (tl (net w)) (naps w) (clock w) (store w) s).
Proof.
  intros (Hn & Hz & Ht). split; [|by split]. cbn [net]. by destruct Hn.
Qed.

Lemma healthy_slept room w :
  healthy room w →
  healthy room (mkWorld (rng w) (net w) (tl (naps w)) (clock w) (store w) (self w)).
Proof.
  intros (Hn & Hz & Ht). split; [done|]. split; [|done]. cbn [naps]. by destruct Hz.
Qed.
End Healthy.

Section Smooth.
Context {St L : Type} (c : nat) (I : St → Prop) (P : event L → Prop).
#[local] Abbreviation Sm := (smooth c I P).

Lemma smooth_ret {A} (a : A) : Sm (ret a).
Proof.
  intros room w Hw Hi. apply healthy_less in Hw.
  split; [exact Hw|]. split; [exact Hi|]. split; [constructor|by eexists].
Qed.

(** What follows a step that takes no room may take it all. *)
Lemma smooth_bind {A B} (m : M St L A) (f : A → M St L B) :
  smooth 0 I P m → (∀ a, Sm (f a)) → Sm (bind m f).
Proof.
  intros Hm Hf room w Hw Hi.
  destruct (Hm (c + room)%nat w Hw Hi) as (Hw1 & Hi1 & Hp1 & a & Hr1).
  unfold result, after, events. rewrite bind_unfold, Hr1. cbn [fst snd].
  destruct (Hf a room _ Hw1 Hi1) as (Hw2 & Hi2 & Hp2 & Hr2).
  split; [exact Hw2|]. split; [exact Hi2|]. split; [by apply Forall_app_2|exact Hr2].
Qed.

(** What follows a step that may take all the room takes none. *)
Lemma smooth_bind_first {A B} (m : M St L A) (f : A → M St L B) :
  Sm m → (∀ a, smooth 0 I P (f a)) → Sm (bind m f).
Proof.
  intros Hm Hf room w Hw Hi.
  destruct (Hm room w Hw Hi) as (Hw1 & Hi1 & Hp1 & a & Hr1).
  unfold result, after, events. rewrite bind_unfold, Hr1. cbn [fst snd].
  destruct (Hf a room _ Hw1 Hi1) as (Hw2 & Hi2 & Hp2 & Hr2).
  split; [exact Hw2|]. split; [exact Hi2|]. split; [by apply Forall_app_2|exact Hr2].
Qed.

(** Nothing is raised, so no handler runs. *)
Lemma smooth_try_except {A} (body : M St L A) handler :
  Sm body → Sm (try_except body handler).
Proof.
  intros Hm room w Hw Hi. destruct (Hm room w Hw Hi) as (Hw1 & Hi1 & Hp1 & a & Hr1).
  unfold result, after, events. rewrite try_except_unfold, Hr1. cbn [fst snd].
  split; [exact Hw1|]. split; [exact Hi1|]. split; [exact Hp1|by eexists].
Qed.

Lemma smooth_emit e : P e → Sm (emit e).
Proof.
  intros He room w Hw Hi. apply healthy_less in Hw.
  split; [exact Hw|]. split; [exact Hi|]. split; [by constructor|by eexists].
Qed.

Lemma smooth_log l : P (Log l) → Sm (log l).
Proof. apply smooth_emit. Qed.

Lemma smooth_bind_get_self {B} (f : St → M St L B) :
  (∀ s, I s → Sm (f s)) → Sm (bind get_self f).
Proof.
  intros Hf room w Hw Hi. unfold result, after, events. rewrite bind_get_self.
  exact (Hf _ Hi room w Hw Hi).
Qed.

Lemma smooth_modify_self f : (∀ s, I s → I (f s)) → Sm (modify_self f).
Proof.
  intros Hf room w Hw Hi. apply healthy_less in Hw.
  split; [exact Hw|]. split; [exact (Hf _ Hi)|]. split; [constructor|by eexists].
Qed.

Lemma smooth_random : Sm random.
Proof.
  intros room w Hw Hi. apply healthy_less in Hw.
  split; [exact Hw|]. split; [exact Hi|]. split; [constructor|by eexists].
Qed.

Lemma smooth_time_time : Sm time_time.
Proof.
  intros room w Hw Hi. apply healthy_less in Hw.
  split; [exact Hw|]. split; [exact Hi|]. split; [constructor|by eexists].
Qed.

Lemma smooth_sleep d : Qle_bool 0 d = true → P (Sleep d) → Sm (sleep d).
Proof.
  intros Hd Hp room w Hw Hi. apply healthy_less in Hw.
  unfold result, after, events. rewrite (sleep_run d w Hd).
  cbv zeta. rewrite (healthy_hd_naps room w Hw). cbn [fst snd self].
  split; [by apply healthy_slept|]. split; [exact Hi|].
  split; [by constructor|by eexists].
Qed.

Lemma smooth_round_trip e : P e → Sm (round_trip e).
Proof.
  intros Hp room w Hw Hi. apply healthy_less in Hw.
  unfold result, after, events, round_trip.
  rewrite (healthy_hd_net room w Hw). cbn [fst snd self].
  split; [by apply healthy_answered|]. split; [exact Hi|].
  split; [by constructor|by eexists].
Qed.

Lemma smooth_call cl k : P (Cmd cl k) → accepts c k → Sm (call (Some cl) k).
Proof.
  intros Hp Hk room w Hw Hi. unfold result, after, events. rewrite call_run.
  unfold answered. rewrite (healthy_hd_net _ w Hw).
  destruct (writes_to_primary cl).
  - destruct (Hk room (store w) (proj2 (proj2 Hw))) as (st' & -> & Ht').
    rewrite ret_run, prepend_triple. cbn [fst snd self app].
    split; [|split; [exact Hi|split; [by constructor|by eexists]]].
    destruct Hw as (Hn & Hz & _). split; [|by split]. cbn [net]. by destruct Hn.
  - rewrite ret_run, prepend_triple. cbn [fst snd self app].
    apply healthy_less in Hw.
    split; [by apply healthy_answered|]. split; [exact Hi|].
    split; [by constructor|by eexists].
Qed.

Lemma smooth_bind_random {B} (f : Z → M St L B) :
  (∀ r, Sm (f r)) → Sm (bind random f).
Proof.
  intros Hf room w Hw Hi. unfold result, after, events. rewrite bind_random.
  apply Hf; [exact Hw|exact Hi].
Qed.

Lemma smooth_randint a b : Sm (randint a b).
Proof. apply smooth_bind_random. intros; apply smooth_ret. Qed.

Lemma smooth_choice {A} (seq : list A) d : Sm (choice seq d).
Proof. apply smooth_bind_random. intros; apply smooth_ret. Qed.

Lemma smooth_bind_choice {A B} (seq : list A) d (f : A → M St L B) :
  seq ≠ [] → (∀ x, x ∈ seq → Sm (f x)) → Sm (bind (choice seq d) f).
Proof.
  intros Hne Hf room w Hw Hi. unfold result, after, events. rewrite bind_choice.
  apply (Hf _ (choice_of_elem seq d _ Hne)); [exact Hw|exact Hi].
Qed.

Lemma smooth_bind_ret {A B} (a : A) (f : A → M St L B) : Sm (f a) → Sm (bind (ret a) f).
Proof.
  intros Hf room w Hw Hi. unfold result, after, events. rewrite bind_ret.
  exact (Hf room w Hw Hi).
Qed.

Lemma smooth_generate_random_string n : Sm (generate_random_string n).
Proof.
  intros room w Hw Hi. apply healthy_less in Hw. unfold result, after, events.
  rewrite <- (bind_ret_r (generate_random_string n) w), bind_generate_random_string.
  split; [exact Hw|]. split; [exact Hi|]. split; [constructor|by eexists].
Qed.

Lemma smooth_bind_generate_random_key {B} (f : string → M St L B) :
  (∀ n, Sm (f (fmt_key "key" n))) → Sm (bind generate_random_key f).
Proof.
  intros Hf room w Hw Hi. unfold result, after, events. rewrite bind_generate_random_key.
  apply Hf; [exact Hw|exact Hi].
Qed.

End Smooth.

Lemma smooth_bind_attr c I (Q : event LoadGenerator.line → Prop) h cl {B}
    (f : client → LoadGenerator.Run B) :
  (∀ s, I s → h s = Some cl) → smooth c I Q (f cl) →
  smooth c I Q (bind (LoadGenerator.attr h) f).
Proof.
  intros Hh Hf room w Hw Hi. unfold result, after, events. rewrite bind_attr, (Hh _ Hi).
  exact (Hf room w Hw Hi).
Qed.

(** The steps that take of the room of the counters: those that
    increment one. *)
Ltac spends m :=
  lazymatch m with
  | context [INCR] => idtac
  | context [LoadGenerator.write_body] => idtac
  end.

Ltac smooth_step :=
  lazymatch goal with
  | |- smooth _ _ _ (ret _) => apply smooth_ret
  | |- smooth _ _ _ random => apply smooth_random
  | |- smooth _ _ _ time_time => apply smooth_time_time
  | |- smooth _ _ _ (randint _ _) => apply smooth_randint
  | |- smooth _ _ _ (choice _ _) => apply smooth_choice
  | |- smooth _ _ _ (generate_random_string _) => apply smooth_generate_random_string
  | |- smooth _ _ _ (bind (choice [Replica1; Replica2] _) _) =>
      apply smooth_bind_choice;
      [done|
       let x := fresh "client" in let Hx := fresh "Hclient" in
       intros x Hx;
       apply elem_of_cons in Hx as [->|Hx];
       [|apply elem_of_cons in Hx as [->|Hx]; [|by apply elem_of_nil in Hx]]]
  | |- smooth _ _ _ (bind (LoadGenerator.attr _) _) =>
      eapply smooth_bind_attr;
      [let s := fresh "s" in let Hs := fresh "Hs" in
       intros s Hs;
       first [exact (proj1 Hs) | exact (proj1 (proj1 Hs)) | exact (proj2 (proj1 Hs))]|]
  | |- smooth _ _ _ (bind get_self _) =>
      apply smooth_bind_get_self; let s := fresh "me" in let Hs := fresh "Hme" in
      intros s Hs
  | |- smooth _ _ _ (bind generate_random_key _) =>
      apply smooth_bind_generate_random_key; intros ?
  | |- smooth _ _ _ (bind (ret _) _) => apply smooth_bind_ret
  | |- smooth _ _ _ (bind ?m _) =>
      tryif spends m then (apply smooth_bind_first; [|intros ?])
      else (apply smooth_bind; [|intros ?])
  | |- smooth _ _ _ (try_except _ _) => apply smooth_try_except
  | |- smooth _ _ _ (log _) => apply smooth_log
  | |- smooth _ _ _ (emit _) => apply smooth_emit
  | |- smooth _ _ _ (sleep _) => apply smooth_sleep
  | |- smooth _ _ _ (round_trip _) => apply smooth_round_trip
  | |- smooth _ _ _ (call (Some _) _) => apply smooth_call
  | |- smooth _ _ _ (modify_self _) => apply smooth_modify_self
  | |- smooth _ _ _ (if ?b then _ else _) => destruct b
  | |- smooth _ _ _ (match ?x with _ => _ end) => destruct x
  | |- _ => progress cbv zeta
  end.

Tactic Notation "settled" open_constr(lem) :=
  lazymatch goal with
  | |- smooth _ _ _ ?m =>
      let hm := head_of m in
      lazymatch type of lem with
      | smooth _ _ _ ?m' => let hm' := head_of m' in constr_eq hm hm'; exact lem
      end
  end.

Ltac smooth_side :=
  first [ exact I | reflexivity | assumption
        | apply class_sleep_time_nonneg
        | apply accepts_plain; intros ?; reflexivity
        | apply accepts_SET; reflexivity
        | apply accepts_SETEX; reflexivity
        | apply accepts_INCR; reflexivity
        | apply accepts_LPUSH; reflexivity
        | apply accepts_LTRIM; reflexivity
        | apply accepts_SADD; reflexivity
        | apply accepts_HSET; reflexivity
        | let s := fresh "s" in let Hs := fresh "Hs" in intros s Hs; exact Hs
        | let s := fresh "s" in let Hs := fresh "Hs" in
          intros s Hs; split; [exact (proj1 Hs)|reflexivity]
        | match goal with Hme : unfailed _ _ |- _ => exact (proj2 Hme) end ].

#[local] Abbreviation Fine c topo := (smooth c (unfailed topo) fine).

Lemma read_body_smooth c topo : Fine c topo (LoadGenerator.read_body topo).
Proof.
  unfold LoadGenerator.read_body. destruct topo.
  all: repeat smooth_step; smooth_side.
Qed.

(** A write may be an increment. *)
Lemma write_body_smooth topo : Fine 1 topo (LoadGenerator.write_body topo).
Proof.
  unfold LoadGenerator.write_body. destruct topo.
  all: repeat smooth_step; smooth_side.
Qed.

Lemma tick_body_smooth ops ratio topo :
  Fine 1 topo (LoadGenerator.tick_body ops ratio topo).
Proof.
  unfold LoadGenerator.tick_body, LoadGenerator.perform_read, LoadGenerator.perform_write,
    LoadGenerator.report_stats.
  destruct topo.
  all: repeat first [settled (read_body_smooth _ _) | settled (write_body_smooth _)
                    | smooth_step]; smooth_side.
Qed.

Lemma answered_plain {St L B} c k (f : unit → M St L B) (w : World St) :
  hd NetOk (net w) = NetOk → (∀ st, Redis.apply k st = Some st) →
  answered c k f w
  = prepend [Cmd c k]
      (f tt (mkWorld (rng w) (tl (net w)) (naps w) (clock w) (store w) (self w))).
Proof.
  intros Hn Hk. unfold answered. rewrite Hn, Hk. by destruct (writes_to_primary c).
Qed.

Lemma Forall_hd_tl ns :
  Forall (λ o, o = NetOk) ns → hd NetOk ns = NetOk ∧ Forall (λ o, o = NetOk) (tl ns).
Proof. by destruct 1. Qed.

(** In a healthy world the first attempt to connect succeeds. *)
Lemma connect_attempt_healthy topo attempt room (w : World LoadGenerator.t) :
  healthy room w → LoadGenerator.failed_ops (LoadGenerator.stats (self w)) = 0 →
  let m := LoadGenerator.connect_attempt topo attempt in
  result m w = Ret tt ∧ healthy room (after m w) ∧ unfailed topo (self (after m w)) ∧
  Forall fine (events m w).
Proof.
  intros (Hn & Hz & Ht) Hf. cbv zeta.
  destruct w as [rs ns zs cs st me]. cbn [net naps store self] in *.
  destruct (Forall_hd_tl _ Hn) as [H1 Hn1].
  destruct (Forall_hd_tl _ Hn1) as [H2 Hn2].
  destruct (Forall_hd_tl _ Hn2) as [H3 Hn3].
  unfold LoadGenerator.connect_attempt, result, after, events, healthy, unfailed.
  destruct topo.
  - rewrite bind_log, bind_round_trip. cbv zeta. cbn [rng net naps clock store self].
    rewrite H1. repeat run_step.
    cbv beta iota delta [LoadGenerator.set_cluster LoadGenerator.cluster].
    repeat run_step.
    rewrite answered_plain by first [exact H1 | exact H2 | exact H3 | intros; reflexivity].
    cbn [rng net naps clock store self]. repeat run_step.
    cbv beta iota delta [LoadGenerator.set_cluster LoadGenerator.cluster].
    repeat run_step.
    rewrite answered_plain by first [exact H1 | exact H2 | exact H3 | intros; reflexivity].
    cbn [rng net naps clock store self]. repeat run_step. settle.
    cbn [fst snd prepend app net naps store self ready LoadGenerator.cluster
         LoadGenerator.stats].
    split; [reflexivity|]. split; [split; [assumption|split; assumption]|].
    split; [by split|].
    by repeat constructor.
  - repeat run_step.
    cbv beta iota delta [LoadGenerator.set_sentinel LoadGenerator.set_master
      LoadGenerator.set_slave LoadGenerator.sentinel LoadGenerator.master
      LoadGenerator.slave LoadGenerator.cluster].
    repeat run_step.
    cbv beta iota delta [LoadGenerator.set_sentinel LoadGenerator.set_master
      LoadGenerator.set_slave LoadGenerator.sentinel LoadGenerator.master
      LoadGenerator.slave LoadGenerator.cluster].
    repeat run_step.
    cbv beta iota delta [LoadGenerator.set_sentinel LoadGenerator.set_master
      LoadGenerator.set_slave LoadGenerator.sentinel LoadGenerator.master
      LoadGenerator.slave LoadGenerator.cluster].
    repeat run_step.
    rewrite answered_plain by first [exact H1 | exact H2 | exact H3 | intros; reflexivity].
    cbn [rng net naps clock store self]. repeat run_step. settle.
    cbn [fst snd prepend app net naps store self ready LoadGenerator.master
         LoadGenerator.slave LoadGenerator.stats].
    split; [reflexivity|]. split; [split; [assumption|split; assumption]|].
    split; [by split|].
    by repeat constructor.
Qed.

Lemma connect_healthy topo room (w : World LoadGenerator.t) :
  healthy room w → LoadGenerator.failed_ops (LoadGenerator.stats (self w)) = 0 →
  let m := LoadGenerator.connect topo in
  result m w = Ret tt ∧ healthy room (after m w) ∧ unfailed topo (self (after m w)) ∧
  Forall fine (events m w).
Proof.
  intros Hw Hf. cbv zeta. unfold LoadGenerator.connect.
  change (Z.to_nat LoadGenerator.max_retries) with 10%nat.
  destruct (connect_attempt_healthy topo 0 room w Hw Hf) as (Hr & Hrest).
  cbv zeta in Hr, Hrest.
  unfold result at 1, after at 1 2, events at 1. rewrite connect_from_S. cbv zeta.
  rewrite Hr. cbn [fst snd]. split; [reflexivity|exact Hrest].
Qed.

(** An iteration takes one of the room of the counters at most. *)
Lemma class_tick_healthy ops ratio topo room (w : World LoadGenerator.t) :
  healthy (S room) w → unfailed topo (self w) →
  let m := LoadGenerator.tick ops ratio topo in
  result m w = Ret Continue ∧ healthy room (after m w) ∧
  unfailed topo (self (after m w)) ∧ Forall fine (events m w).
Proof.
  intros Hw Hi. cbv zeta.
  destruct (tick_body_smooth ops ratio topo room w Hw Hi) as (Hw1 & Hi1 & Hp1 & a & Hr1).
  unfold LoadGenerator.tick, result, after, events. rewrite try_except_unfold.
  rewrite result_then_ret, after_then_ret, events_then_ret, Hr1. cbn [fst snd].
  split; [reflexivity|]. split; [exact Hw1|]. split; [exact Hi1|exact Hp1].
Qed.

Lemma class_loop_healthy ops ratio topo fuel room (w : World LoadGenerator.t) :
  healthy (fuel + room) w → unfailed topo (self w) →
  let m := LoadGenerator.loop ops ratio topo fuel in
  result m w = Ret Continue ∧ Forall fine (events m w).
Proof.
  revert w; induction fuel as [|fuel IH]; intros w Hw Hi; cbn [LoadGenerator.loop];
    [by split|].
  cbv zeta.
  destruct (class_tick_healthy ops ratio topo (fuel + room) w Hw Hi)
    as (Hr & Hw1 & Hi1 & Hp1).
  cbv zeta in Hr, Hw1, Hi1, Hp1.
  unfold result, events. rewrite bind_unfold, Hr. cbn [fst snd].
  destruct (IH _ Hw1 Hi1) as [Hr2 Hp2]. cbv zeta in Hr2, Hp2.
  split; [exact Hr2|by apply Forall_app_2].
Qed.



Ltac dragonfly_side Hops :=
  first [ exact I | reflexivity | assumption
        | apply dragonfly_interval_nonneg; exact Hops
        | apply accepts_plain; intros ?; reflexivity
        | apply accepts_SET; reflexivity
        | apply accepts_SETEX; reflexivity
        | apply accepts_INCR; reflexivity
        | apply accepts_LPUSH; reflexivity
        | apply accepts_LTRIM; reflexivity
        | apply accepts_SADD; reflexivity
        | apply accepts_HSET; reflexivity
        | let s := fresh "s" in let Hs := fresh "Hs" in intros s Hs; exact Hs
        | let s := fresh "s" in let Hs := fresh "Hs" in
          intros s Hs; split; [reflexivity|split; reflexivity]
        | intros; exact I ].

Lemma wait_from_smooth c (I : Dragonfly.globals → Prop) todo i :
  smooth c I dragonfly_fine (Dragonfly.wait_from todo i).
Proof.
  revert i; induction todo as [|todo IH]; intros i; cbn [Dragonfly.wait_from].
  - smooth_step.
  - unfold Dragonfly.ping_all.
    repeat first [settled (IH _) | smooth_step];
      first [exact Logic.I | apply accepts_plain; intros ?; reflexivity].
Qed.

Section DragonflyHealthy.
Variables (ops ratio : Z).
Hypothesis Hops : 0 < ops.
#[local] Abbreviation Well := (smooth 1 dragonfly_unfailed dragonfly_fine).

Lemma dragonfly_tick_body_smooth : Well (Dragonfly.tick_body ratio (1 / inject_Z ops)).
Proof.
  unfold Dragonfly.tick_body, Dragonfly.read_op, Dragonfly.write_op,
    Dragonfly.read_try, Dragonfly.write_try, Dragonfly.report_check,
    Dragonfly.print_stats, Dragonfly.get_random_int.
  repeat smooth_step; dragonfly_side Hops.
Qed.

(** An iteration takes one of the room of the counters at most. *)
Lemma dragonfly_tick_healthy room (w : World Dragonfly.globals) :
  healthy (S room) w → dragonfly_unfailed (self w) →
  let m := Dragonfly.tick ratio (1 / inject_Z ops) in
  result m w = Ret Continue ∧ healthy room (after m w) ∧
  dragonfly_unfailed (self (after m w)) ∧ Forall dragonfly_fine (events m w).
Proof.
  intros Hw Hi. cbv zeta.
  destruct (dragonfly_tick_body_smooth room w Hw Hi) as (Hw1 & Hi1 & Hp1 & a & Hr1).
  unfold Dragonfly.tick, result, after, events. rewrite try_except_unfold.
  rewrite result_then_ret, after_then_ret, events_then_ret, Hr1. cbn [fst snd].
  split; [reflexivity|]. split; [exact Hw1|]. split; [exact Hi1|exact Hp1].
Qed.

Lemma dragonfly_loop_healthy fuel room (w : World Dragonfly.globals) :
  healthy (fuel + room) w → dragonfly_unfailed (self w) →
  let m := Dragonfly.loop ratio (1 / inject_Z ops) fuel in
  result m w = Ret Continue ∧ Forall dragonfly_fine (events m w).
Proof.
  revert w; induction fuel as [|fuel IH]; intros w Hw Hi; cbn [Dragonfly.loop];
    [by split|].
  cbv zeta.
  destruct (dragonfly_tick_healthy (fuel + room) w Hw Hi) as (Hr & Hw1 & Hi1 & Hp1).
  cbv zeta in Hr, Hw1, Hi1, Hp1.
  unfold result, events. rewrite bind_unfold, Hr. cbn [fst snd].
  destruct (IH _ Hw1 Hi1) as [Hr2 Hp2]. cbv zeta in Hr2, Hp2.
  split; [exact Hr2|by apply Forall_app_2].
Qed.
End DragonflyHealthy.


